(** * Juggl graph view: link-graph extraction and incremental synchronisation

    A shallow embedding of the Obsidian data store ([ObsidianStore]:
    [createEdges], [connectNodes], [getOtherId], [getNeighbourhood], [get],
    [refreshNode] and the handlers of the vault's notifications), of the
    graph view ([Juggl]: [mergeToGraph], [expand], [neighbourhood],
    [buildEdges], [removeNodes]) and of the local mode ([LocalMode]:
    [onOpenFile], [updateActiveFile]).

    JavaScript strings are [string]s, arrays are [list]s, a [Record<string, T>]
    used as an insertion-ordered dictionary is an association list, and the
    mutable view (the cytoscape container plus the events it emits) is
    threaded through a small state-and-exception monad. *)

From Stdlib Require Import String Ascii List Bool Arith Lia DecimalString DecimalNat.
Import ListNotations.
Local Open Scope string_scope.
Local Open Scope list_scope.

Set Implicit Arguments.

(** String concatenation, written apart from list append. *)
Infix "^^" := String.append (at level 60, right associativity).

(* ================================================================== *)
(** ** JavaScript string primitives used by the store *)
(* ================================================================== *)

Module JS.

(** [s.split(c)] for a one-character separator: never empty, the empty
    string gives one empty segment. *)
Fixpoint split (c : ascii) (s : string) : list string :=
  match s with
  | EmptyString => [EmptyString]
  | String a rest =>
      if Ascii.eqb a c then EmptyString :: split c rest
      else match split c rest with
           | [] => [String a EmptyString]
           | seg :: segs => String a seg :: segs
           end
  end.

(** [xs.join(sep)]. *)
Fixpoint join (sep : string) (xs : list string) : string :=
  match xs with
  | [] => EmptyString
  | [x] => x
  | x :: rest => x ^^ sep ^^ join sep rest
  end.

(** [xs.slice(0, -1)]: everything but the last entry. *)
Definition slice_init (xs : list string) : list string := removelast xs.

(** [s.replace(/a/g, b)] and [s.replaceAll(a, b)] for single characters. *)
Fixpoint replaceAll (a b : ascii) (s : string) : string :=
  match s with
  | EmptyString => EmptyString
  | String c rest => String (if Ascii.eqb c a then b else c) (replaceAll a b rest)
  end.

(** [s.includes(t)]. *)
Fixpoint includes (t s : string) : bool :=
  String.prefix t s ||
  match s with
  | EmptyString => false
  | String _ rest => includes t rest
  end.

(** Template-literal rendering of a positive counter. *)
Definition ofNat (n : nat) : string := NilZero.string_of_uint (Nat.to_uint n).

(** Occurrences of a character. *)
Fixpoint occurs (a : ascii) (s : string) : nat :=
  match s with
  | EmptyString => 0
  | String c rest => (if Ascii.eqb c a then 1 else 0) + occurs a rest
  end.

End JS.

Definition dot : ascii := "."%char.
Definition underscore : ascii := "_"%char.
Definition space : ascii := " "%char.
Definition dash : ascii := "-"%char.
Definition newline : ascii := "010"%char.

(* ================================================================== *)
(** ** Element descriptors (cytoscape [ElementDefinition]) *)
(* ================================================================== *)

(** [classes?: string | string[]]. *)
Inductive Classes : Type :=
| NoClasses
| ClassString (s : string)
| ClassList (l : list string).

Definition Classes_eqb_string (c : Classes) (s : string) : bool :=
  match c with
  | ClassString s' => String.eqb s' s
  | _ => false
  end.

(** [EdgeDataDefinition]; [d_extra] holds whatever further properties the
    reference parser attaches. *)
Record EdgeData : Type := mkEdgeData {
  d_id : string;
  d_source : string;
  d_target : string;
  d_context : string;
  d_edgeCount : nat;
  d_type : option string;
  d_extra : list (string * string)
}.

Record EdgeDefinition : Type := mkEdge {
  e_data : EdgeData;
  e_classes : Classes
}.

Definition set_context (c : string) (e : EdgeDefinition) : EdgeDefinition :=
  let d := e_data e in
  mkEdge (mkEdgeData (d_id d) (d_source d) (d_target d) c (d_edgeCount d)
            (d_type d) (d_extra d)) (e_classes e).

Definition set_edgeCount (n : nat) (e : EdgeDefinition) : EdgeDefinition :=
  let d := e_data e in
  mkEdge (mkEdgeData (d_id d) (d_source d) (d_target d) (d_context d) n
            (d_type d) (d_extra d)) (e_classes e).

Definition set_type (t : option string) (e : EdgeDefinition) : EdgeDefinition :=
  let d := e_data e in
  mkEdge (mkEdgeData (d_id d) (d_source d) (d_target d) (d_context d)
            (d_edgeCount d) t (d_extra d)) (e_classes e).

(** [transformEdgeLabel]: [label.replace(/_/g, ' ')]. *)
Definition transformEdgeLabel (label : string) : string :=
  JS.replaceAll underscore space label.

(** The relation type of a front-matter link, lines 76-81 of the store:
    [split.length > 1 ? split.slice(0, -1).join() : link.key]. *)
Definition frontmatterType (key : string) : string :=
  let split := JS.split dot key in
  if (1 <? List.length split)%nat then JS.join "," (JS.slice_init split) else key.

(** The edge built for a front-matter link, lines 84-97. *)
Definition frontmatterEdge (id srcId otherId key : string) : EdgeDefinition :=
  let type := frontmatterType key in
  let displayType := transformEdgeLabel type in
  mkEdge
    (mkEdgeData id srcId otherId "" 1 (Some displayType) [])
    (ClassList [type; "type-" ^^ type; "type-" ^^ JS.replaceAll space dash type]).

(** [NodeDefinition]: the id, the [linkedNodeIds] that [refreshNode] may
    attach, the classes, and the remaining display data. *)
Record NodeDefinition : Type := mkNode {
  n_id : string;
  n_linkedNodeIds : option (list string);
  n_classes : Classes;
  n_extra : list (string * string)
}.

Inductive ElementDefinition : Type :=
| NodeDef (n : NodeDefinition)
| EdgeDef (e : EdgeDefinition).

Definition def_id (d : ElementDefinition) : string :=
  match d with
  | NodeDef n => n_id n
  | EdgeDef e => d_id (e_data e)
  end.

Definition def_classes (d : ElementDefinition) : Classes :=
  match d with
  | NodeDef n => n_classes n
  | EdgeDef e => e_classes e
  end.

(* ================================================================== *)
(** ** Insertion-ordered dictionaries ([Record<string, T>])

    Own string-keyed properties in insertion order.  Every key used by the
    store is a serialised node id or an edge key containing ["->"]: it is
    taken to be neither an array index nor the name of an inherited property,
    so [Object.keys] and [Object.values] enumerate in insertion order and
    [k in d] asks for an own property. *)
(* ================================================================== *)

Module Dict.
Section Entries.
Variable V : Type.

Definition t := list (string * V).

Fixpoint get (k : string) (d : t) : option V :=
  match d with
  | [] => None
  | (k', v) :: rest => if String.eqb k k' then Some v else get k rest
  end.

(** [k in d]. *)
Definition has (k : string) (d : t) : bool :=
  match get k d with Some _ => true | None => false end.

(** [d[k] = v]: an existing key keeps its place. *)
Fixpoint set (k : string) (v : V) (d : t) : t :=
  match d with
  | [] => [(k, v)]
  | (k', v') :: rest =>
      if String.eqb k k' then (k', v) :: rest else (k', v') :: set k v rest
  end.

Definition keys (d : t) : list string := map fst d.
Definition values (d : t) : list V := map snd d.
End Entries.
End Dict.

(* ================================================================== *)
(** ** The host's document model (Obsidian) *)
(* ================================================================== *)

Record TFile : Type := mkTFile {
  path : string;
  name : string;
  extension : string
}.

(** [VizId]: logical name and origin store. *)
Record VizId : Type := mkVizId {
  vid : string;
  storeId : string
}.

(** A reference in the body of a document ([ReferenceCache]). *)
Record ReferenceCache : Type := mkRefCache {
  rc_link : string;
  rc_original : string;
  rc_line : nat;
  rc_start : nat;
  rc_end : nat
}.

(** A reference declared in the front matter ([FrontmatterLinkCache]). *)
Record FrontmatterLinkCache : Type := mkFrontLink {
  fl_link : string;
  fl_key : string
}.

(** What the callback of [iterLinks] receives: a reference together with the
    flag telling which of the two it is ([InlineRef r] is [(r, true)],
    [FrontRef l] is [(l, false)]). *)
Inductive Reference : Type :=
| InlineRef (r : ReferenceCache)
| FrontRef (l : FrontmatterLinkCache).

Definition link (ref : Reference) : string :=
  match ref with
  | InlineRef r => rc_link r
  | FrontRef l => fl_link l
  end.

(** [CachedMetadata]: [cacheRefs] are the references [iterateCacheRefs]
    visits, in the order it visits them. *)
Record CachedMetadata : Type := mkCache {
  cacheRefs : list ReferenceCache;
  frontmatterLinks : option (list FrontmatterLinkCache)
}.

(** The fields of [ObsidianStore] read by the code: the metadata cache, the
    vault and the plugin settings. *)
Record ObsidianStore : Type := mkStore {
  getFirstLinkpathDest : string -> string -> option TFile;
  getFileCache : TFile -> option CachedMetadata;
  resolvedLinks : Dict.t (list string);
  cachedRead : TFile -> string;
  getAbstractFileByPath : string -> option TFile;
  typedLinkPrefix : string
}.

(** A node collection is held by the ids of its elements; the elements
    themselves live in the container. *)
Definition Collection := list string.

Definition mem (x : string) (c : Collection) : bool :=
  existsb (String.eqb x) c.

(** [a.difference(b)]. *)
Definition difference (a b : Collection) : Collection :=
  filter (fun x => negb (mem x b)) a.

(** [a.merge(b)] / [a.union(b)]: elements of [b] not yet in [a] are appended. *)
Definition union (a b : Collection) : Collection :=
  fold_left (fun acc x => if mem x acc then acc else acc ++ [x]) b a.

(** Outcome of a computation that may throw. *)
Inductive outcome (A : Type) : Type :=
| Ret (a : A)
| Throw.
Arguments Throw {A}.

Definition obind {A B} (o : outcome A) (k : A -> outcome B) : outcome B :=
  match o with
  | Ret a => k a
  | Throw => Throw
  end.

(** The separator written between merged contexts (lines 116-120): a line
    break, sixteen blanks, a line break, three dashes and two line breaks. *)
Definition separator : string :=
  String newline ("                " ^^ String newline ("---" ^^ String newline (String newline ""))).

Definition CORE : string := "core".


(* ================================================================== *)
(** ** The live graph, the view and the collaborators *)
(* ================================================================== *)

Section Types.

(** Screen positions belong to the renderer. *)
Variable Pos : Type.

(** An element held by the cytoscape container: the descriptor it was
    created from, its classes and its position.  The presentation state that
    the structural-change notification derives for the nodes (their [degree]
    and [nameLength], the classes [has-incoming-*] and [has-outgoing-*], the
    filter class and the style-group classes) is the renderer's and is not
    kept here. *)
Record Element : Type := mkElement {
  el_def : ElementDefinition;
  el_classes : list string;
  el_position : Pos
}.

Definition Graph := list Element.

Inductive Event : Type :=
| GraphChanged (debounceLayout : bool)
| Trigger (name : string) (eles : Collection).

(** The fields of [Juggl] that the code reads and writes. *)
Record Juggl : Type := mkJuggl {
  vizReady : bool;
  viz : option Graph;
  mergeEdges : bool;
  events : list Event
}.

(** [IMergedToGraph]. *)
Record MergedToGraph : Type := mkMerged {
  merged : Collection;
  added : Collection
}.

(** The stores known to a view ([IDataStore]). *)
Record DataStore : Type := mkDataStore {
  ds_getNeighbourhood : list VizId -> Juggl -> outcome (list NodeDefinition);
  ds_connectNodes : Collection -> Collection -> Juggl -> outcome (list EdgeDefinition)
}.

(** Collaborators outside the sources, taken as they are used: the
    [juggl-api] helpers ([VizId.toId], [VizId.fromFile], [VizId.fromNode],
    [parseRefCache], [nodeFromFile], [nodeDangling]), Obsidian's
    [getLinkpath], the class-name constants and the positioning heuristic.
    They are functions of their arguments; [parseRefCache] answers a
    descriptor of its own at each call, so the updates [createEdges] makes to
    it stay within the extraction. *)
Record Api : Type := mkApi {
  api_toId : VizId -> string;
  api_getLinkpath : string -> string;
  api_parseRefCache :
    ReferenceCache -> list string -> string -> string -> string -> string -> EdgeDefinition;
  api_nodeFromFile : TFile -> NodeDefinition;
  api_nodeDangling : string -> NodeDefinition;
  api_fromFile : TFile -> VizId;
  api_fromNode : Element -> VizId;
  api_CLASS_EXPANDED : string;
  api_CLASS_PROTECTED : string;
  api_initialPosition : Graph -> option Collection -> ElementDefinition -> Pos
}.

End Types.

(* ================================================================== *)
(** ** The store and the view *)
(* ================================================================== *)

Section GraphView.

Variable Pos : Type.
Variable api : Api Pos.

Local Abbreviation Element := (Element Pos).
Local Abbreviation Graph := (Graph Pos).
Local Abbreviation Juggl := (Juggl Pos).
Local Abbreviation DataStore := (DataStore Pos).
Local Abbreviation toId := (api_toId api).
Local Abbreviation getLinkpath := (api_getLinkpath api).
Local Abbreviation parseRefCache := (api_parseRefCache api).
Local Abbreviation nodeFromFile := (api_nodeFromFile api).
Local Abbreviation nodeDangling := (api_nodeDangling api).
Local Abbreviation fromFile := (api_fromFile api).
Local Abbreviation fromNode := (api_fromNode api).
Local Abbreviation CLASS_EXPANDED := (api_CLASS_EXPANDED api).
Local Abbreviation CLASS_PROTECTED := (api_CLASS_PROTECTED api).
Local Abbreviation initialPosition := (api_initialPosition api).

(** *** The live graph (the cytoscape container) *)

Definition el_id (el : Element) : string := def_id (el_def el).

Definition isNode (el : Element) : bool :=
  match el_def el with NodeDef _ => true | EdgeDef _ => false end.


(** [cy.$id(i)] as an element. *)
Definition findEl (g : Graph) (i : string) : option Element :=
  find (fun el => String.eqb (el_id el) i) g.

Definition ids (g : Graph) : Collection := map el_id g.

(** The collection answered by [cy.$id(i)]. *)
Definition nodeAt (g : Graph) (i : string) : Collection :=
  match findEl g i with Some _ => [i] | None => [] end.

(** [cy.nodes()]. *)
Definition nodes (g : Graph) : Collection := ids (filter isNode g).

(** [ele.hasClass(c)]: read on the first element of the collection. *)
Definition hasClass (g : Graph) (c : string) (coll : Collection) : bool :=
  match coll with
  | [] => false
  | i :: _ =>
      match findEl g i with
      | Some el => mem c (el_classes el)
      | None => false
      end
  end.

(** [eles.addClass(c)]. *)
Definition addClassTo (coll : Collection) (c : string) (g : Graph) : Graph :=
  map (fun el =>
         if mem (el_id el) coll && negb (mem c (el_classes el))
         then mkElement (el_def el) (el_classes el ++ [c]) (el_position el)
         else el) g.

(** Whether an edge element touches one of the given nodes. *)
Definition touches (coll : Collection) (el : Element) : bool :=
  match el_def el with
  | EdgeDef e => mem (d_source (e_data e)) coll || mem (d_target (e_data e)) coll
  | NodeDef _ => false
  end.

(** [nodes.connectedEdges()]. *)
Definition connectedEdges (g : Graph) (coll : Collection) : Collection :=
  ids (filter (touches (ids (filter (fun el => isNode el && mem (el_id el) coll) g))) g).

(** Elements that leave the container on [eles.remove()]: the elements of
    the collection and every edge attached to a removed node. *)
Definition leaves (g : Graph) (coll : Collection) (el : Element) : bool :=
  mem (el_id el) coll
  || touches (ids (filter (fun n => isNode n && mem (el_id n) coll) g)) el.

Definition removeFrom (coll : Collection) (g : Graph) : Graph :=
  filter (fun el => negb (leaves g coll el)) g.

(** *** The mutable view *)

Definition M (A : Type) : Type := Juggl -> outcome A * Juggl.

Definition ret {A} (a : A) : M A := fun v => (Ret a, v).

Definition bind {A B} (m : M A) (k : A -> M B) : M B :=
  fun v => match m v with
           | (Ret a, v') => k a v'
           | (Throw, v') => (Throw, v')
           end.

Notation "x <- m ;; k" := (bind m (fun x => k))
  (at level 61, m at next level, right associativity).
Notation "m ;;; k" := (bind m (fun _ => k))
  (at level 61, right associativity).

Definition lift {A} (o : outcome A) : M A := fun v => (o, v).

Definition getView : M Juggl := fun v => (Ret v, v).

(** Dereferencing [this.viz]: a missing container is a [TypeError]. *)
Definition theViz : M Graph :=
  fun v => match viz v with
           | Some g => (Ret g, v)
           | None => (Throw, v)
           end.

Definition setViz (g : Graph) : M unit :=
  fun v => (Ret tt, mkJuggl (vizReady v) (Some g) (mergeEdges v) (events v)).

Definition emit (e : Event) : M unit :=
  fun v => (Ret tt, mkJuggl (vizReady v) (viz v) (mergeEdges v) (events v ++ [e])).

Definition when (b : bool) (m : M unit) : M unit := if b then m else ret tt.

(** [this.viz.startBatch()] and [this.viz.endBatch()]. *)
Definition startBatch : M unit := _ <- theViz ;; ret tt.
Definition endBatch : M unit := _ <- theViz ;; ret tt.

(** [this.viz.$id(i)]. *)
Definition byId (i : string) : M Collection :=
  g <- theViz ;;
  ret (nodeAt g i).

Definition addClass (coll : Collection) (c : string) : M unit :=
  g <- theViz ;; setViz (addClassTo coll c g).

(** [eles.remove()], returning what was removed. *)
Definition remove (coll : Collection) : M Collection :=
  g <- theViz ;;
  setViz (removeFrom coll g) ;;;
  ret (ids (filter (leaves g coll) g)).

(** [onGraphChanged(batch, debounceLayout)], lines 613-645 of the view: the
    structural-change notification.  The call is recorded as the event
    [GraphChanged debounceLayout], which stands for
    [this.trigger('elementsChange')] and for the layout, restarted after a
    delay or not at all.  Besides, the call derives presentation state for
    the nodes: it writes their [degree] and [nameLength], adds their
    [has-incoming-*] and [has-outgoing-*] classes, and sets the filter class
    and the style-group classes anew.  It goes over [viz.nodes()] only: no
    edge is touched, no element is added or removed, and no id, source,
    target or descriptor changes.  That state is not part of [Element], so
    what is stated of a node after a notification is its id and the classes
    other than these.  Every node is taken to carry the [name] whose length
    is read, as the descriptors of [nodeFromFile] and [nodeDangling] do. *)
Definition onGraphChanged (batch debounceLayout : bool) : M unit :=
  when batch startBatch ;;;
  _ <- theViz ;;
  when batch endBatch ;;;
  emit (GraphChanged debounceLayout).

(** [this.trigger(name, eles)]. *)
Definition trigger (name : string) (eles : Collection) : M unit :=
  emit (Trigger name eles).

(** *** [ObsidianStore]: extraction *)

Definition ObsidianStore_storeId : string := CORE.

(** [getOtherId(link, sourcePath)], lines 172-180. *)
Definition getOtherId (this : ObsidianStore) (ref : Reference) (sourcePath : string) : VizId :=
  let path := getLinkpath (link ref) in
  match getFirstLinkpathDest this path sourcePath with
  | Some file => mkVizId (name file) ObsidianStore_storeId
  | None => mkVizId path ObsidianStore_storeId
  end.

(** [getNodeFromLink(link, sourcePath, graph)], lines 182-190. *)
Definition getNodeFromLink (this : ObsidianStore) (ref : Reference) (sourcePath : string)
  : NodeDefinition :=
  let path := getLinkpath (link ref) in
  match getFirstLinkpathDest this path sourcePath with
  | Some file => nodeFromFile file
  | None => nodeDangling path
  end.

(** [getFile(nodeId)], lines 192-194. *)
Definition getFile (this : ObsidianStore) (nodeId : VizId) : option TFile :=
  getFirstLinkpathDest this (vid nodeId) "".

(** [iterLinks(cache, cb)], lines 219-226: the calls made to [cb], in order. *)
Definition iterLinks (cache : CachedMetadata) : list Reference :=
  map InlineRef (cacheRefs cache)
  ++ match frontmatterLinks cache with
     | Some links => map FrontRef links
     | None => []
     end.

(** The key under which the edges of a pair are grouped, and the id of the
    [count]-th of them (lines 60-62). *)
Definition edgeKey (srcId otherId : string) : string := srcId ^^ "->" ^^ otherId.

Definition edgeIdOf (srcId otherId : string) (count : nat) : string :=
  edgeKey srcId otherId ^^ JS.ofNat count.

(** The descriptor built for one reference (lines 63-98). *)
Definition makeEdge (this : ObsidianStore) (content : list string)
           (id srcId otherId : string) (ref : Reference) : EdgeDefinition :=
  match ref with
  | InlineRef r =>
      let edge := parseRefCache r content id srcId otherId (typedLinkPrefix this) in
      match d_type (e_data edge) with
      | Some t =>
          if String.eqb t "" then edge
          else set_type (Some (transformEdgeLabel t)) edge
      | None => edge
      end
  | FrontRef l => frontmatterEdge id srcId otherId (fl_key l)
  end.

(** The body of the callback given to [iterLinks] in [createEdges],
    lines 56-105. *)
Definition collectEdge (this : ObsidianStore) (srcFile : TFile) (srcId : string)
           (toNodes : Collection) (content : list string)
           (edges : Dict.t (list EdgeDefinition)) (ref : Reference)
  : Dict.t (list EdgeDefinition) :=
  let otherId := toId (getOtherId this ref (path srcFile)) in
  if mem otherId toNodes then
    let edgeId := edgeKey srcId otherId in
    let count := match Dict.get edgeId edges with
                 | Some es => List.length es + 1
                 | None => 1
                 end in
    let id := edgeId ^^ JS.ofNat count in
    let edge := makeEdge this content id srcId otherId ref in
    match Dict.get edgeId edges with
    | Some es => Dict.set edgeId (es ++ [edge]) edges
    | None => Dict.set edgeId [edge] edges
    end
  else edges.

(** State of the loop over one group when merging (lines 111-129). *)
Record MergeState : Type := mkMergeState {
  returnEdges : list EdgeDefinition;
  inlineEdge : option EdgeDefinition;
  countInline : nat
}.

Definition mergeOne (st : MergeState) (edge : EdgeDefinition) : MergeState :=
  if Classes_eqb_string (e_classes edge) " inline" then
    match inlineEdge st with
    | Some ie =>
        mkMergeState (returnEdges st)
          (Some (set_context (d_context (e_data ie) ^^ separator ^^ d_context (e_data edge)) ie))
          (countInline st + 1)
    | None => mkMergeState (returnEdges st) (Some edge) 1
    end
  else mkMergeState (returnEdges st ++ [edge]) (inlineEdge st) (countInline st).

(** One iteration of the loop over [Object.keys(edges)], lines 109-134. *)
Definition mergeGroup (returnEdges0 : list EdgeDefinition)
           (connectedEdges0 : list EdgeDefinition) : list EdgeDefinition :=
  let st := fold_left mergeOne connectedEdges0 (mkMergeState returnEdges0 None 0) in
  match inlineEdge st with
  | Some ie => returnEdges st ++ [set_edgeCount (countInline st) ie]
  | None => returnEdges st
  end.

(** [createEdges(srcFile, srcId, toNodes, view)], lines 45-138. *)
Definition createEdges (this : ObsidianStore) (srcFile : TFile) (srcId : string)
           (toNodes : Collection) (view : Juggl) : list EdgeDefinition :=
  if negb (String.eqb (extension srcFile) "md") then []
  else
    match getFileCache this srcFile with
    | None => []
    | Some cache =>
        let content := JS.split newline (cachedRead this srcFile) in
        let edges :=
          fold_left (collectEdge this srcFile srcId toNodes content) (iterLinks cache) [] in
        if mergeEdges view then
          fold_left mergeGroup
            (map (fun edgeId => match Dict.get edgeId edges with
                                | Some es => es
                                | None => []
                                end) (Dict.keys edges)) []
        else concat (Dict.values edges)
    end.

(** [this.viz.$id(i)] read from a view handed to the store. *)
Definition nodeOf (view : Juggl) (i : string) : option Element :=
  match viz view with
  | Some g => findEl g i
  | None => None
  end.

(** The body shared by the two loops of [connectNodes]: the edges of one
    node's document towards [toNodes]. *)
Definition edgesOfNode (this : ObsidianStore) (view : Juggl) (toNodes : Collection)
           (i : string) : list EdgeDefinition :=
  match nodeOf view i with
  | Some node =>
      let id := fromNode node in
      if String.eqb (storeId id) ObsidianStore_storeId then
        match getFile this id with
        | Some file => createEdges this file (toId id) toNodes view
        | None => []
        end
      else []
  | None => []
  end.

(** [connectNodes(allNodes, newNodes, view)], lines 140-170. *)
Definition connectNodes (this : ObsidianStore) (allNodes newNodes : Collection)
           (view : Juggl) : list EdgeDefinition :=
  let edges :=
    fold_left (fun edges node => edges ++ edgesOfNode this view allNodes node)
              newNodes [] in
  fold_left (fun edges node => edges ++ edgesOfNode this view newNodes node)
            (difference allNodes newNodes) edges.

(** *** [ObsidianStore]: neighbourhoods *)

Definition Nodes := Dict.t NodeDefinition.

(** The body of the loop of [fillWithBacklinks], lines 207-213.  The cast
    [as TFile] takes the indexed path to name a file; when it does not,
    [VizId.fromFile] is applied to [null] and fails. *)
Definition backlinkStep (this : ObsidianStore) (path : string)
           (acc : outcome Nodes) (otherPath : string) : outcome Nodes :=
  obind acc (fun nodes =>
    let targets := match Dict.get otherPath (resolvedLinks this) with
                   | Some ts => ts
                   | None => []
                   end in
    if mem path targets then
      match getAbstractFileByPath this otherPath with
      | Some file =>
          let id := toId (fromFile file) in
          if Dict.has id nodes then Ret nodes
          else Ret (Dict.set id (nodeFromFile file) nodes)
      | None => Throw
      end
    else Ret nodes).

(** [fillWithBacklinks(nodes, nodeId, graph)], lines 196-216. *)
Definition fillWithBacklinks (this : ObsidianStore) (nodes : Nodes) (nodeId : VizId)
  : outcome Nodes :=
  if String.eqb (storeId nodeId) "core" then
    match getFile this nodeId with
    | None => Ret nodes
    | Some file =>
        fold_left (backlinkStep this (path file))
                  (Dict.keys (resolvedLinks this)) (Ret nodes)
    end
  else Ret nodes.

(** The callback given to [iterLinks] in [getNeighbourhood], lines 245-250. *)
Definition promiseStep (this : ObsidianStore) (file : TFile) (nodes : Nodes)
           (promiseNodes : Nodes) (ref : Reference) : Nodes :=
  let id := toId (getOtherId this ref (path file)) in
  if Dict.has id nodes then promiseNodes
  else Dict.set id (getNodeFromLink this ref (path file)) promiseNodes.

(** The loop over [Object.keys(promiseNodes)], lines 251-255. *)
Definition settleStep (promiseNodes : Nodes) (nodes : Nodes) (id : string) : Nodes :=
  if Dict.has id nodes then nodes
  else match Dict.get id promiseNodes with
       | Some n => Dict.set id n nodes
       | None => nodes
       end.

(** The body of the loop of [getNeighbourhood], lines 232-257. *)
Definition neighbourhoodStep (this : ObsidianStore) (nodes : Nodes) (nodeId : VizId)
  : outcome Nodes :=
  if String.eqb (storeId nodeId) ObsidianStore_storeId then
    match getFile this nodeId with
    | None => Ret nodes
    | Some file =>
        match getFileCache this file with
        | None => Ret nodes
        | Some cache =>
            let nodes1 :=
              if Dict.has (toId nodeId) nodes then nodes
              else Dict.set (toId nodeId) (nodeFromFile file) nodes in
            let promiseNodes :=
              fold_left (promiseStep this file nodes1) (iterLinks cache) [] in
            let nodes2 :=
              fold_left (settleStep promiseNodes) (Dict.keys promiseNodes) nodes1 in
            fillWithBacklinks this nodes2 nodeId
        end
    end
  else Ret nodes.

(** The dictionary [nodes] at the end of [getNeighbourhood]. *)
Definition neighbourhoodNodes (this : ObsidianStore) (nodeIds : list VizId)
  : outcome Nodes :=
  fold_left (fun acc nodeId => obind acc (fun nodes => neighbourhoodStep this nodes nodeId))
            nodeIds (Ret []).

(** [getNeighbourhood(nodeIds, viz)], lines 229-260. *)
Definition getNeighbourhood (this : ObsidianStore) (nodeIds : list VizId)
  : outcome (list NodeDefinition) :=
  obind (neighbourhoodNodes this nodeIds) (fun nodes => Ret (Dict.values nodes)).

(** [get(nodeId, view)], lines 266-277. *)
Definition get (this : ObsidianStore) (nodeId : VizId) : option NodeDefinition :=
  match getFile this nodeId with
  | None => None
  | Some file =>
      match getFileCache this file with
      | None => None
      | Some _ => Some (nodeFromFile file)
      end
  end.


(** [ObsidianStore] as one of them. *)
Definition coreStore (this : ObsidianStore) : DataStore :=
  mkDataStore
    (fun nodeIds _ => getNeighbourhood this nodeIds)
    (fun allNodes newNodes view => Ret (connectNodes this allNodes newNodes view)).

Variable dataStores : list DataStore.

(** *** [Juggl]: merging and expanding *)


(** Class names of a new element, as the container reads [classes]. *)
Definition classNames (c : Classes) : list string :=
  match c with
  | NoClasses => []
  | ClassString s => filter (fun w => negb (String.eqb w "")) (JS.split space s)
  | ClassList l => l
  end.

(** Modelled from the spec: [mergeToGraph] of [new-node-positioning], which
    is not among the sources.  Section 4.5: every element is keyed by its
    id; an element whose id is already in the live graph is left untouched
    and reported only in [merged]; an absent one is inserted (a new node
    placed by the positioning heuristic) and reported in [merged] and
    [added]. *)
Definition mergeElement (parentNodes : option Collection)
           (st : Graph * MergedToGraph) (el : ElementDefinition) : Graph * MergedToGraph :=
  let '(g, r) := st in
  let i := def_id el in
  match findEl g i with
  | Some _ => (g, mkMerged (union (merged r) [i]) (added r))
  | None =>
      (g ++ [mkElement el (classNames (def_classes el)) (initialPosition g parentNodes el)],
       mkMerged (merged r ++ [i]) (added r ++ [i]))
  end.

(** Modelled from the spec: the merge engine of section 4.5 ([batch] only
    scopes the container's batching; with [triggerGraphChanged] the
    structural-change signal fires once, after the merge). *)
Definition mergeToGraphUtil (elements : list ElementDefinition)
           (batch triggerGraphChanged : bool) (parentNodes : option Collection)
           (notify : bool -> M unit) : M MergedToGraph :=
  when batch startBatch ;;;
  g <- theViz ;;
  let '(g', r) := fold_left (mergeElement parentNodes) elements (g, mkMerged [] []) in
  setViz g' ;;;
  when triggerGraphChanged (notify false) ;;;
  when batch endBatch ;;;
  ret r.

(** [mergeToGraph(elements, batch, triggerGraphChanged, parentNodes)],
    lines 542-562 of the view. *)
Definition mergeToGraph (elements : list ElementDefinition)
           (batch triggerGraphChanged : bool) (parentNodes : option Collection)
  : M MergedToGraph :=
  result <- mergeToGraphUtil elements batch triggerGraphChanged parentNodes
              (fun batch => onGraphChanged batch false) ;;
  g <- theViz ;;
  let newNodes := filter (fun i => match findEl g i with
                                   | Some el => isNode el
                                   | None => false
                                   end) (added result) in
  when (Nat.ltb 0 (List.length newNodes)) (trigger "newNodesAdded" newNodes) ;;;
  ret result.

(** [neighbourhood(toExpand)], lines 421-428. *)
Definition neighbourhood (toExpand : list VizId) : M (list NodeDefinition) :=
  fold_left (fun acc store =>
               nodes <- acc ;;
               view <- getView ;;
               storeNodes <- lift (ds_getNeighbourhood store toExpand view) ;;
               ret (nodes ++ storeNodes))
            dataStores (ret []).

(** [buildEdges(newNodes)], lines 430-436. *)
Definition buildEdges (newNodes : Collection) : M (list EdgeDefinition) :=
  fold_left (fun acc store =>
               edges <- acc ;;
               g <- theViz ;;
               view <- getView ;;
               storeEdges <- lift (ds_connectNodes store (nodes g) newNodes view) ;;
               ret (edges ++ storeEdges))
            dataStores (ret []).

(** [toExpand.map((n) => VizId.fromNode(n))]. *)
Definition vizIds (g : Graph) (coll : Collection) : list VizId :=
  flat_map (fun i => match findEl g i with
                     | Some el => [fromNode el]
                     | None => []
                     end) coll.

(** [expand(toExpand, batch, triggerGraphChanged)], lines 438-466. *)
Definition expand (toExpand : Collection) (batch triggerGraphChanged : bool)
  : M (option MergedToGraph) :=
  if Nat.eqb (List.length toExpand) 0 then ret None
  else
    when batch startBatch ;;;
    addClass toExpand CLASS_EXPANDED ;;;
    addClass toExpand CLASS_PROTECTED ;;;
    g <- theViz ;;
    let expandedIds := vizIds g toExpand in
    neighbourhood0 <- neighbourhood expandedIds ;;
    _ <- mergeToGraph (map NodeDef neighbourhood0) false false (Some toExpand) ;;
    g1 <- theViz ;;
    let nodes0 :=
      fold_left (fun acc n => union acc (match findEl g1 (n_id n) with
                                         | Some _ => [n_id n]
                                         | None => []
                                         end)) neighbourhood0 [] in
    edges <- buildEdges nodes0 ;;
    edgesInGraph <- mergeToGraph (map EdgeDef edges) false triggerGraphChanged None ;;
    when batch endBatch ;;;
    trigger "expand" toExpand ;;;
    ret (Some edgesInGraph).

(** *** [ObsidianStore]: refreshing a node *)

Definition throw {A} : M A := fun v => (Throw, v).

(** A collection is an object, and an object is truthy whether or not the
    collection is empty. *)
Definition truthy (coll : Collection) : bool := true.

Definition isReady (view : Juggl) : bool :=
  vizReady view && match viz view with Some _ => true | None => false end.

(** Lines 296-331 of [refreshNode]: the node collection and the recomputed
    edges, or nothing when the refresh gives up. *)
Definition refreshRecompute (this : ObsidianStore) (id : VizId) (node : Collection)
  : M (option (Collection * option MergedToGraph)) :=
  g <- theViz ;;
  if Nat.ltb 0 (List.length node) && hasClass g CLASS_EXPANDED node then
    correctEdges <- expand node true false ;;
    ret (Some (node, correctEdges))
  else
    match get this id with
    | None => ret None
    | Some nodeDef =>
        let file := getFile this id in
        let cache := match file with
                     | Some f => getFileCache this f
                     | None => None
                     end in
        let linkedNodeIds :=
          match cache, file with
          | Some c, Some f =>
              map (fun ref => toId (getOtherId this ref (path f))) (iterLinks c)
          | _, _ => []
          end in
        let nodeDef1 :=
          if Nat.ltb 0 (List.length linkedNodeIds)
          then mkNode (n_id nodeDef) (Some linkedNodeIds) (n_classes nodeDef) (n_extra nodeDef)
          else nodeDef in
        _ <- mergeToGraph [NodeDef nodeDef1] true false None ;;
        view <- getView ;;
        match viz view with
        | None => ret None
        | Some _ =>
            node1 <- byId (toId id) ;;
            edges <- buildEdges node1 ;;
            correctEdges <- mergeToGraph (map EdgeDef edges) true false None ;;
            ret (Some (node1, Some correctEdges))
        end
    end.

(** The edges to drop, lines 333-335. *)
Definition edgesToRemove (g : Graph) (node : Collection) (correctEdges : MergedToGraph)
  : Collection :=
  filter (fun edge => negb (hasClass g "terminal-connection" [edge]))
         (difference (connectedEdges g node) (merged correctEdges)).

(** Lines 332-339 of [refreshNode]. *)
Definition refreshPrune (node : Collection) (correctEdges : option MergedToGraph) : M unit :=
  g <- theViz ;;
  ce <- match correctEdges with
        | Some ce => ret ce
        | None => throw
        end ;;
  removed <- remove (edgesToRemove g node ce) ;;
  when (Nat.ltb 0 (List.length removed) || Nat.ltb 0 (List.length (added ce)))
       (onGraphChanged true true).

(** Lines 341-354 of [refreshNode]. *)
Definition refreshAppended (this : ObsidianStore) (id : VizId) (node : Collection) : M unit :=
  view <- getView ;;
  match getFile this id, viz view with
  | Some file, Some _ =>
      when (JS.includes "+++" (cachedRead this file))
           (trigger "nodeContentAppended" node)
  | _, _ => ret tt
  end.

(** [refreshNode(id, view)], lines 279-355. *)
Definition refreshNode (this : ObsidianStore) (id : VizId) : M unit :=
  view <- getView ;;
  if negb (isReady view) then ret tt
  else
    let idS := toId id in
    node <- byId idS ;;
    match getFile this id with
    | None =>
        when (truthy node) (_ <- remove node ;; onGraphChanged true true)
    | Some _ =>
        r <- refreshRecompute this id node ;;
        match r with
        | None => ret tt
        | Some (node1, correctEdges) =>
            refreshPrune node1 correctEdges ;;;
            refreshAppended this id node1
        end
    end.

(** *** Notions used to state the properties *)

(** The ids reported in [merged]: each id once, in order of first mention. *)
Definition mentioned (acc : Collection) (xs : list string) : Collection :=
  fold_left (fun acc i => union acc [i]) xs acc.

(** The nodes among freshly added elements ([result.added.nodes()]). *)
Definition addedNodes (g : Graph) (r : MergedToGraph) : Collection :=
  filter (fun i => match findEl g i with
                   | Some el => isNode el
                   | None => false
                   end) (added r).

(** The events of one call of [mergeToGraph]. *)
Definition mergeEvents (triggerGraphChanged : bool) (newNodes : Collection) : list Event :=
  (if triggerGraphChanged then [GraphChanged false] else [])
  ++ (if Nat.ltb 0 (List.length newNodes) then [Trigger "newNodesAdded" newNodes] else []).

(** A property of the dictionary that holds whenever a result is there. *)
Definition whenRet {A} (P : A -> Prop) (o : outcome A) : Prop :=
  match o with
  | Ret a => P a
  | Throw => True
  end.

Definition uniqueKeys (nodes : Nodes) : Prop := NoDup (Dict.keys nodes).

(** Whether the store has structural metadata for the document of an id. *)
Definition indexed (this : ObsidianStore) (nodeId : VizId) : bool :=
  match getFile this nodeId with
  | Some file => match getFileCache this file with
                 | Some _ => true
                 | None => false
                 end
  | None => false
  end.

(** The id a reference resolves to. *)
Definition targetOf (this : ObsidianStore) (srcFile : TFile) (ref : Reference) : string :=
  toId (getOtherId this ref (path srcFile)).

(** The references that give an edge: those resolving into [toNodes]. *)
Definition accepted (this : ObsidianStore) (srcFile : TFile) (toNodes : Collection)
           (cache : CachedMetadata) : list Reference :=
  filter (fun ref => mem (targetOf this srcFile ref) toNodes) (iterLinks cache).

(** The descriptors of successive references to [t], the first of them being
    the [k]-th. *)
Fixpoint buildFrom (this : ObsidianStore) (content : list string) (srcId t : string)
         (k : nat) (refs : list Reference) : list EdgeDefinition :=
  match refs with
  | [] => []
  | ref :: rest =>
      makeEdge this content (edgeIdOf srcId t k) srcId t ref
      :: buildFrom this content srcId t (S k) rest
  end.

(** The group of a target: its references in order, numbered from one. *)
Definition groupOf (this : ObsidianStore) (srcFile : TFile) (content : list string)
           (srcId : string) (refs : list Reference) (t : string) : list EdgeDefinition :=
  buildFrom this content srcId t 1
            (filter (fun ref => String.eqb (targetOf this srcFile ref) t) refs).

(** Targets in order of first occurrence. *)
Definition targetsOf (this : ObsidianStore) (srcFile : TFile) (refs : list Reference)
  : list string :=
  mentioned [] (map (targetOf this srcFile) refs).

(** A dictionary laid out by targets. *)
Definition byTarget {V} (srcId : string) (f : string -> V) (ts : list string) : Dict.t V :=
  map (fun t => (edgeKey srcId t, f t)) ts.

(** The test of line 114. *)
Definition isInline (edge : EdgeDefinition) : bool :=
  Classes_eqb_string (e_classes edge) " inline".

(** The descriptor standing for the inline edges [e :: es]: the first of
    them, with the contexts joined by the separator and the count of the
    edges it stands for. *)
Definition mergedInline (e : EdgeDefinition) (es : list EdgeDefinition) : EdgeDefinition :=
  let d := e_data e in
  mkEdge (mkEdgeData (d_id d) (d_source d) (d_target d)
            (JS.join separator (map (fun x => d_context (e_data x)) (e :: es)))
            (List.length (e :: es)) (d_type d) (d_extra d))
         (e_classes e).

(** A group after merging: its other edges one by one, then the one
    descriptor of its inline edges, if it has any. *)
Definition mergedGroup (group : list EdgeDefinition) : list EdgeDefinition :=
  filter (fun e => negb (isInline e)) group
  ++ match filter isInline group with
     | [] => []
     | e :: es => [mergedInline e es]
     end.

(** Two states of the corpus that show the same document: the same metadata
    and content for the file, the same resolution of link paths from it, and
    the same settings. *)
Definition sameDocument (this this' : ObsidianStore) (srcFile : TFile) : Prop :=
  getFileCache this' srcFile = getFileCache this srcFile
  /\ cachedRead this' srcFile = cachedRead this srcFile
  /\ typedLinkPrefix this' = typedLinkPrefix this
  /\ (forall linkpath, getFirstLinkpathDest this' linkpath (path srcFile)
                       = getFirstLinkpathDest this linkpath (path srcFile)).

(** [keeps P v v']: going from [v], whose container has distinct ids, to
    [v'], the container stays there, its ids stay distinct, and every element
    satisfying [P] is still in it, as it was. *)
Definition keeps (P : Element -> Prop) (v v' : Juggl) : Prop :=
  forall g, viz v = Some g -> NoDup (ids g) ->
    exists g', viz v' = Some g'
               /\ NoDup (ids g')
               /\ (forall el, In el g -> P el -> In el g').

(** A step that keeps the elements satisfying [P], whatever it answers. *)

Definition framed (P : Element -> Prop) {A} (m : M A) : Prop :=
  forall v, keeps P v (snd (m v)).

(** The node ids of the container among those of a collection. *)
Definition nodesAmong (g : Graph) (coll : Collection) : Collection :=
  ids (filter (fun n => isNode n && mem (el_id n) coll) g).


(* ------------------------------------------------------------------ *)
(** *** Further operations of the container *)

(** [eles.removeClass(cs)]. *)
Definition removeClassFrom (coll : Collection) (cs : list string) (g : Graph) : Graph :=
  map (fun el =>
         if mem (el_id el) coll
         then mkElement (el_def el)
                        (filter (fun c => negb (mem c cs)) (el_classes el))
                        (el_position el)
         else el) g.

Definition removeClass (coll : Collection) (cs : list string) : M unit :=
  g <- theViz ;; setViz (removeClassFrom coll cs g).

(** [cy.nodes('.c')]: the nodes carrying a class. *)
Definition nodesWithClass (g : Graph) (c : string) : Collection :=
  ids (filter (fun el => isNode el && mem c (el_classes el)) g).

(** Whether the edge element [e] joins a node of [around] to the node [n]. *)
Definition joins (around : Collection) (n : string) (e : Element) : bool :=
  match el_def e with
  | EdgeDef d =>
      (mem (d_source (e_data d)) around && String.eqb (d_target (e_data d)) n)
      || (mem (d_target (e_data d)) around && String.eqb (d_source (e_data d)) n)
  | NodeDef _ => false
  end.

(** [nodes.neighborhood()]: the edges attached to the nodes of the
    collection and the nodes at the other end of those edges. *)
Definition neighborhood (g : Graph) (coll : Collection) : Collection :=
  let around := ids (filter (fun n => isNode n && mem (el_id n) coll) g) in
  ids (filter (fun el =>
                 touches around el
                 || (isNode el && existsb (joins around (el_id el)) g)) g).

(** [nodes.closedNeighborhood()]: the neighbourhood and the nodes themselves. *)
Definition closedNeighborhood (g : Graph) (coll : Collection) : Collection :=
  union (filter (fun i => mem i (ids g)) coll) (neighborhood g coll).


(** [edges.connectedNodes()]: the nodes at the ends of the edges. *)
Definition connectedNodes (g : Graph) (edges : Collection) : Collection :=
  ids (filter (fun n =>
                 isNode n
                 && existsb (fun e =>
                               mem (el_id e) edges
                               && match el_def e with
                                  | EdgeDef d =>
                                      String.eqb (d_source (e_data d)) (el_id n)
                                      || String.eqb (d_target (e_data d)) (el_id n)
                                  | NodeDef _ => false
                                  end) g) g).

(** Where the container puts an element created without the heuristic. *)
Variable renderedPosition : ElementDefinition -> Pos.

(** [cy.add(def)]: a descriptor whose id is taken creates nothing. *)
Definition addElement (def : ElementDefinition) : M Collection :=
  g <- theViz ;;
  match findEl g (def_id def) with
  | Some _ => ret []
  | None =>
      setViz (g ++ [mkElement def (classNames (def_classes def)) (renderedPosition def)]) ;;;
      ret [def_id def]
  end.

(* ------------------------------------------------------------------ *)
(** *** [Juggl]: selections and forced removal *)


(** [getProtected()], lines 681-683. *)
Definition getProtected : M Collection :=
  g <- theViz ;; ret (nodesWithClass g CLASS_PROTECTED).


(* ------------------------------------------------------------------ *)
(** *** [ObsidianStore]: the vault's delete notification *)

(** The handler registered for ['delete'], lines 398-411, on one view. *)
Definition onDelete (file : TFile) : M unit :=
  view <- getView ;;
  if negb (isReady view) then ret tt
  else
    node <- byId (toId (fromFile file)) ;;
    _ <- remove node ;;
    ret tt.

(** The handler registered for ['changed'], lines 361-372, on one view. *)
Definition onChanged (this : ObsidianStore) (file : TFile) : M unit :=
  view <- getView ;;
  if isReady view then refreshNode this (fromFile file) else ret tt.

(* ------------------------------------------------------------------ *)
(** *** [LocalMode] *)

Variable CLASS_ACTIVE_NODE : string.
Variable CLASS_CONNECTED_ACTIVE_NODE : string.
Variable CLASS_INACTIVE_NODE : string.

(** [updateActiveFile(node)], lines 182-193 of the local mode. *)
Definition updateActiveFile (node : Collection) : M unit :=
  g <- theViz ;;
  removeClass (ids g)
    [CLASS_CONNECTED_ACTIVE_NODE; CLASS_ACTIVE_NODE; CLASS_INACTIVE_NODE] ;;;
  g1 <- theViz ;;
  addClass (difference (ids g1) (closedNeighborhood g1 node)) CLASS_INACTIVE_NODE ;;;
  addClass node CLASS_ACTIVE_NODE ;;;
  g2 <- theViz ;;
  let edges := connectedEdges g2 node in
  addClass edges CLASS_CONNECTED_ACTIVE_NODE ;;;
  g3 <- theViz ;;
  addClass (connectedNodes g3 edges) CLASS_CONNECTED_ACTIVE_NODE.

(** Lines 101-113 of [onOpenFile]: the node of the opened file, created from
    the store when the container does not show it; nothing when the store
    has no descriptor for it. *)
Definition openedNode (coreStore : ObsidianStore) (file : TFile) : M (option Collection) :=
  let id := mkVizId (name file) "core" in
  startBatch ;;;
  shown <- byId (toId id) ;;
  if Nat.eqb (List.length shown) 0 then
    match get coreStore id with
    | None => endBatch ;;; ret None
    | Some nodeDef =>
        node <- addElement (NodeDef nodeDef) ;;
        ret (Some node)
    end
  else
    node <- byId (toId id) ;;
    ret (Some node).

(** [onOpenFile(file)], lines 93-122; [this.viz] is the container of the
    view, taken over when the mode was loaded. *)
Definition onOpenFile (autoAddNodes : bool) (coreStore : ObsidianStore) (file : TFile)
  : M unit :=
  if negb autoAddNodes then ret tt
  else
    view <- getView ;;
    match viz view with
    | None => ret tt
    | Some _ =>
        opened <- openedNode coreStore file ;;
        match opened with
        | None => ret tt
        | Some node =>
            _ <- expand node false true ;;
            addClass node CLASS_ACTIVE_NODE ;;;
            g <- theViz ;;
            _ <- remove (difference (nodes g) (closedNeighborhood g node)) ;;
            onGraphChanged false false ;;;
            updateActiveFile node ;;;
            endBatch
        end
    end.

(* ------------------------------------------------------------------ *)
(** *** Notions used to state further properties *)

(** The references of a document that give an edge towards [toNodes]; none
    for a file that is not markdown or has no metadata. *)
Definition linksInto (this : ObsidianStore) (srcFile : TFile) (toNodes : Collection)
  : list Reference :=
  if negb (String.eqb (extension srcFile) "md") then []
  else match getFileCache this srcFile with
       | Some cache => accepted this srcFile toNodes cache
       | None => []
       end.

(** The groups of [createEdges], one per target in order of first reference. *)
Definition edgeGroups (this : ObsidianStore) (srcFile : TFile) (srcId : string)
           (toNodes : Collection) : list (list EdgeDefinition) :=
  let refs := linksInto this srcFile toNodes in
  map (groupOf this srcFile (JS.split newline (cachedRead this srcFile)) srcId refs)
      (targetsOf this srcFile refs).

(** The reference parser hands back the endpoints it is given. *)
Definition parserKeepsEndpoints : Prop :=
  forall (r : ReferenceCache) (content : list string) (id srcId otherId prefix : string),
    d_source (e_data (parseRefCache r content id srcId otherId prefix)) = srcId
    /\ d_target (e_data (parseRefCache r content id srcId otherId prefix)) = otherId.

(** Each descriptor of a dictionary carries the id it is stored under. *)
Definition labelled (nodes : Nodes) : Prop :=
  forall (k : string) (v : NodeDefinition), In (k, v) nodes -> n_id v = k.

(** The helpers agree on the id of a document and of a dangling link: the
    descriptor of a file carries the id written for its name, which is the id
    of [VizId.fromFile], and the descriptor of a dangling link carries the id
    written for its path. *)
Definition descriptorsFollowIds : Prop :=
  (forall file, n_id (nodeFromFile file) = toId (mkVizId (name file) CORE))
  /\ (forall file, toId (fromFile file) = toId (mkVizId (name file) CORE))
  /\ (forall path, n_id (nodeDangling path) = toId (mkVizId path CORE)).

(** A requested id that is the one its document's descriptor carries. *)
Definition canonical (this : ObsidianStore) (nodeId : VizId) : Prop :=
  forall file, getFile this nodeId = Some file ->
               toId nodeId = toId (mkVizId (name file) CORE).

End GraphView.

Arguments ret {Pos A} a.
Arguments throw {Pos A}.
Arguments lift {Pos A} o.
Arguments getView {Pos}.
Arguments theViz {Pos}.
Arguments startBatch {Pos}.
Arguments endBatch {Pos}.
Arguments emit {Pos} e.
Arguments trigger {Pos} name eles.
Arguments onGraphChanged {Pos} batch debounceLayout.

(* ================================================================== *)
(** ** A small vault

    [A.md] has the two lines "A" and "B", links to [B.md] from each of them,
    links to a missing [Ghost], and declares [related.sibling: C] in its
    front matter.  The [juggl-api] helpers are given their plainest
    behaviour: ids are written [store:name], the reference parser yields an
    untyped inline edge whose context is the line of the reference. *)
(* ================================================================== *)

Module Scenario.

Definition fileA : TFile := mkTFile "A.md" "A.md" "md".
Definition fileB : TFile := mkTFile "B.md" "B.md" "md".
Definition fileC : TFile := mkTFile "notes/C.md" "C.md" "md".

Definition resolve (linkpath sourcePath : string) : option TFile :=
  if String.eqb linkpath "A" || String.eqb linkpath "A.md" then Some fileA
  else if String.eqb linkpath "B" || String.eqb linkpath "B.md" then Some fileB
  else if String.eqb linkpath "C" || String.eqb linkpath "C.md" then Some fileC
  else None.

Definition cacheA : CachedMetadata :=
  mkCache [mkRefCache "B" "[[B]]" 0 0 5; mkRefCache "B" "[[B]]" 1 0 5;
           mkRefCache "Ghost" "[[Ghost]]" 1 6 15]
          (Some [mkFrontLink "C" "related.sibling"]).

Definition cacheOf (f : TFile) : option CachedMetadata :=
  if String.eqb (path f) "A.md" then Some cacheA
  else if String.eqb (path f) "B.md" then Some (mkCache [] None)
  else if String.eqb (path f) "notes/C.md" then Some (mkCache [] None)
  else None.

Definition contentOf (f : TFile) : string :=
  if String.eqb (path f) "A.md" then "A" ^^ String newline "B" else "".

Definition fileAt (p : string) : option TFile :=
  if String.eqb p "A.md" then Some fileA
  else if String.eqb p "B.md" then Some fileB
  else if String.eqb p "notes/C.md" then Some fileC
  else None.

Definition vault : ObsidianStore :=
  mkStore resolve cacheOf
    [("A.md", ["B.md"; "notes/C.md"]); ("B.md", []); ("notes/C.md", [])]
    contentOf fileAt "-".

Definition Pos : Type := (nat * nat)%type.

Definition toId (v : VizId) : string := storeId v ^^ ":" ^^ vid v.

Definition fromId (i : string) : VizId :=
  match JS.split ":"%char i with
  | [] => mkVizId "" ""
  | s :: rest => mkVizId (JS.join ":" rest) s
  end.

Definition parseRef (r : ReferenceCache) (content : list string)
           (id srcId otherId prefix : string) : EdgeDefinition :=
  mkEdge (mkEdgeData id srcId otherId (nth (rc_line r) content "") 1 None [])
         (ClassString " inline").

Definition nodeOfFile (f : TFile) : NodeDefinition :=
  mkNode (toId (mkVizId (name f) "core")) None NoClasses [("name", name f)].

Definition dangling (p : string) : NodeDefinition :=
  mkNode (toId (mkVizId p "core")) None (ClassString "dangling") [("name", p)].

Definition api : Api Pos :=
  mkApi toId (fun l => l) parseRef nodeOfFile dangling
        (fun f => mkVizId (name f) "core")
        (fun el => fromId (def_id (el_def el)))
        "expanded" "protected"
        (fun _ _ _ => (0, 0)).

Definition stores : list (DataStore Pos) := [coreStore api vault].

Definition nodeEl (n : string) : Element Pos :=
  mkElement (NodeDef (mkNode (toId (mkVizId n "core")) None NoClasses [("name", n)]))
            [] (0, 0).

Definition edgeEl (i s t : string) (classes : list string) : Element Pos :=
  mkElement (EdgeDef (mkEdge (mkEdgeData i s t "" 1 None []) NoClasses)) classes (0, 0).

Definition viewOf (g : Graph Pos) (mergeEdges : bool) : Juggl Pos :=
  mkJuggl true (Some g) mergeEdges [].

(** A dangling reference of [A.md]. *)
Definition ghostRef : Reference := InlineRef (mkRefCache "Ghost" "[[Ghost]]" 1 6 15).

(** A container showing [A.md], [B.md] and a node [X.md], with an edge from
    [A.md] that its document no longer declares and a terminal connection. *)
Definition shown : Graph Pos :=
  [nodeEl "A.md"; nodeEl "B.md"; nodeEl "X.md";
   edgeEl "core:A.md->core:X.md1" "core:A.md" "core:X.md" [];
   edgeEl "terminal-1" "core:A.md" "core:X.md" ["terminal-connection"]].

(** The inline edge from [A.md] to [B.md] once merged, and its front-matter
    edge to [C.md]. *)
Definition edgeAB : EdgeDefinition :=
  mkEdge (mkEdgeData "core:A.md->core:B.md1" "core:A.md" "core:B.md"
            ("A" ^^ separator ^^ "B") 2 None [])
         (ClassString " inline").

Definition edgeAC : EdgeDefinition :=
  mkEdge (mkEdgeData "core:A.md->core:C.md1" "core:A.md" "core:C.md" "" 1
            (Some "related") [])
         (ClassList ["related"; "type-related"; "type-related"]).

(** The container [shown] once the edges of [A.md] have been recomputed. *)
Definition recomputed : Graph Pos :=
  shown ++ [mkElement (EdgeDef edgeAB) ["inline"] (0, 0)].

(** The vault before its metadata is indexed: the files are there, their
    structure is not. *)
Definition bareVault : ObsidianStore :=
  mkStore resolve (fun _ => None) [] contentOf fileAt "-".

(** The container places an element it is given where it is drawn. *)
Definition rendered (def : ElementDefinition) : Pos := (0, 0).

End Scenario.

(* ================================================================== *)
(** ** Strings: splitting, joining, replacing *)
(* ================================================================== *)

Lemma append_assoc (a b c : string) : (a ^^ b) ^^ c = a ^^ b ^^ c.
Proof. induction a as [|x a IH]; simpl; [reflexivity | now rewrite IH]. Qed.

Lemma append_empty_r (a : string) : a ^^ "" = a.
Proof. induction a as [|x a IH]; simpl; [reflexivity | now rewrite IH]. Qed.

Lemma append_inj_l (a b c : string) : a ^^ b = a ^^ c -> b = c.
Proof.
  induction a as [|x a IH]; simpl; intros H; [exact H|].
  injection H as H. auto.
Qed.

Lemma split_nonempty (c : ascii) (s : string) : JS.split c s <> [].
Proof.
  destruct s as [|a s]; simpl; [discriminate|].
  destruct (Ascii.eqb a c); [discriminate|].
  destruct (JS.split c s); discriminate.
Qed.

Lemma split_clean (c : ascii) (s : string) :
  JS.occurs c s = 0 -> JS.split c s = [s].
Proof.
  induction s as [|a s IH]; simpl; [reflexivity|].
  destruct (Ascii.eqb a c); [discriminate|].
  intros H. rewrite IH by exact H. reflexivity.
Qed.

Lemma split_cons (c : ascii) (s rest : string) :
  JS.occurs c s = 0 ->
  JS.split c (s ^^ String c rest) = s :: JS.split c rest.
Proof.
  induction s as [|a s IH]; simpl.
  - intros _. now rewrite Ascii.eqb_refl.
  - destruct (Ascii.eqb a c); [discriminate|].
    intros H. rewrite IH by exact H. reflexivity.
Qed.

(** Splitting a dotted path gives back its segments. *)
Lemma split_join (segs : list string) (lst : string) :
  Forall (fun s => JS.occurs dot s = 0) (segs ++ [lst]) ->
  JS.split dot (JS.join "." (segs ++ [lst])) = segs ++ [lst].
Proof.
  induction segs as [|s segs IH]; simpl; intros H.
  - apply split_clean. now inversion H.
  - inversion H as [|? ? Hs Hrest]; subst.
    destruct (segs ++ [lst]) as [|s' rest] eqn:E.
    + destruct segs; discriminate.
    + change (s ^^ "." ^^ JS.join "." (s' :: rest))
        with (s ^^ String dot (JS.join "." (s' :: rest))).
      rewrite split_cons by exact Hs. f_equal. exact (IH Hrest).
Qed.

Lemma replaceAll_get (a b : ascii) (s : string) (n : nat) :
  String.get n (JS.replaceAll a b s)
  = option_map (fun c => if Ascii.eqb c a then b else c) (String.get n s).
Proof.
  revert n. induction s as [|c s IH]; intros n; simpl; [reflexivity|].
  destruct n; simpl; [reflexivity | apply IH].
Qed.

Lemma replaceAll_clears (a b : ascii) (s : string) :
  a <> b -> JS.occurs a (JS.replaceAll a b s) = 0.
Proof.
  intros Hab. induction s as [|c s IH]; simpl; [reflexivity|].
  destruct (Ascii.eqb c a) eqn:E.
  - destruct (Ascii.eqb b a) eqn:E'; [|exact IH].
    apply Ascii.eqb_eq in E'. congruence.
  - rewrite E. exact IH.
Qed.

(* ================================================================== *)
(** ** Front-matter relation types *)
(* ================================================================== *)

(** C1 (as amended).  For a front-matter key made of the dot-free segments
    [init ++ [lst]], the relation type is the key without its last segment,
    the remaining segments joined by commas; a key of one segment is its own
    type.  The display type is the type with every underscore turned into a
    space, and the classes are built from the type as it is, underscores
    kept. *)
Theorem frontmatter_type_drops_last_segment :
  forall (id srcId otherId : string) (init : list string) (lst : string),
    Forall (fun s => JS.occurs dot s = 0) (init ++ [lst]) ->
    let key := JS.join "." (init ++ [lst]) in
    let type := match init with [] => lst | _ :: _ => JS.join "," init end in
    let edge := frontmatterEdge id srcId otherId key in
    frontmatterType key = type
    /\ d_type (e_data edge) = Some (transformEdgeLabel type)
    /\ JS.occurs underscore (transformEdgeLabel type) = 0
    /\ (forall n, String.get n (transformEdgeLabel type)
                  = option_map (fun c => if Ascii.eqb c underscore then space else c)
                               (String.get n type))
    /\ e_classes edge
       = ClassList [type; "type-" ^^ type; "type-" ^^ JS.replaceAll space dash type].
Proof.
  intros id srcId otherId init lst H key type edge.
  assert (Ht : frontmatterType key = type).
  { unfold frontmatterType, key. rewrite split_join by exact H.
    unfold JS.slice_init. rewrite removelast_last.
    rewrite length_app. simpl.
    destruct init as [|s init]; simpl; [reflexivity|].
    replace (Nat.ltb 1 (S (List.length init + 1))) with true; [reflexivity|].
    symmetry. apply Nat.ltb_lt. lia. }
  split; [exact Ht|].
  split; [unfold edge, frontmatterEdge; rewrite Ht; reflexivity|].
  split; [apply replaceAll_clears; discriminate|].
  split; [intros n; apply replaceAll_get|].
  unfold edge, frontmatterEdge. rewrite Ht. reflexivity.
Qed.

(* ================================================================== *)
(** ** Collections and the container *)
(* ================================================================== *)

Lemma mem_In (x : string) (c : Collection) : mem x c = true <-> In x c.
Proof.
  unfold mem. rewrite existsb_exists. split.
  - intros [y [Hy E]]. apply String.eqb_eq in E. now subst.
  - intros H. exists x. split; [exact H | apply String.eqb_refl].
Qed.

Lemma mem_false (x : string) (c : Collection) : mem x c = false <-> ~ In x c.
Proof.
  rewrite <- mem_In. destruct (mem x c); intuition congruence.
Qed.

Lemma mem_app (x : string) (a b : Collection) : mem x (a ++ b) = mem x a || mem x b.
Proof. unfold mem. apply existsb_app. Qed.

Lemma union_single (a : Collection) (i : string) :
  union a [i] = if mem i a then a else a ++ [i].
Proof. reflexivity. Qed.

Lemma difference_In (x : string) (a b : Collection) :
  In x (difference a b) <-> In x a /\ ~ In x b.
Proof.
  unfold difference. rewrite filter_In, negb_true_iff, mem_false. tauto.
Qed.

Section Properties.

Variable Pos : Type.
Variable api : Api Pos.
Variable dataStores : list (DataStore Pos).

Local Abbreviation targetOf := (targetOf api).
Local Abbreviation accepted := (accepted api).
Local Abbreviation buildFrom := (buildFrom api).
Local Abbreviation groupOf := (groupOf api).
Local Abbreviation targetsOf := (targetsOf api).

Lemma findEl_mem (g : Graph Pos) (i : string) :
  mem i (ids g) = match findEl g i with Some _ => true | None => false end.
Proof.
  induction g as [|el g IH]; simpl; [reflexivity|].
  unfold findEl in *. simpl. rewrite String.eqb_sym.
  destruct (String.eqb (el_id el) i); simpl; [reflexivity | exact IH].
Qed.

Lemma findEl_app (g h : Graph Pos) (i : string) :
  findEl (g ++ h) i = match findEl g i with Some el => Some el | None => findEl h i end.
Proof.
  unfold findEl. induction g as [|el g IH]; simpl; [reflexivity|].
  destruct (String.eqb (el_id el) i); [reflexivity | exact IH].
Qed.

(* ------------------------------------------------------------------ *)
(** *** Expanding nothing *)

(** C10.  [expand] of an empty collection answers [null] and leaves the
    view as it was: the container and the emitted events are unchanged,
    whatever the stores would have answered. *)
Theorem expand_empty_is_noop :
  forall (batch triggerGraphChanged : bool) (view : Juggl Pos),
    expand api dataStores [] batch triggerGraphChanged view = (Ret None, view).
Proof.
  intros batch triggerGraphChanged view.
  unfold expand. simpl. reflexivity.
Qed.

(* ------------------------------------------------------------------ *)
(** *** Resolving links *)

(** C6.  A link whose target the host does not resolve gets the placeholder
    id made of the link path and the store tag.  That id differs from the id
    of every document the host finds under its own name from the same source,
    and it depends on the corpus only through the resolution of this link: a
    corpus that resolves it alike gives the same id. *)
Theorem dangling_link_placeholder :
  forall (this : ObsidianStore) (ref : Reference) (sourcePath : string),
    getFirstLinkpathDest this (api_getLinkpath api (link ref)) sourcePath = None ->
    getOtherId api this ref sourcePath
    = mkVizId (api_getLinkpath api (link ref)) ObsidianStore_storeId
    /\ (forall file : TFile,
           getFirstLinkpathDest this (name file) sourcePath <> None ->
           getOtherId api this ref sourcePath <> mkVizId (name file) ObsidianStore_storeId)
    /\ (forall this' : ObsidianStore,
           getFirstLinkpathDest this' (api_getLinkpath api (link ref)) sourcePath
           = getFirstLinkpathDest this (api_getLinkpath api (link ref)) sourcePath ->
           getOtherId api this' ref sourcePath = getOtherId api this ref sourcePath).
Proof.
  intros this ref sourcePath Hnone.
  assert (E : getOtherId api this ref sourcePath
              = mkVizId (api_getLinkpath api (link ref)) ObsidianStore_storeId).
  { unfold getOtherId. now rewrite Hnone. }
  split; [exact E|]. split.
  - intros file Hfound Heq. rewrite E in Heq.
    injection Heq as Hname. apply Hfound. rewrite <- Hname. exact Hnone.
  - intros this' Hsame. unfold getOtherId. now rewrite Hsame.
Qed.

(* ------------------------------------------------------------------ *)
(** *** Refreshing a node whose file is gone *)


(* ------------------------------------------------------------------ *)
(** *** Merging into the live graph *)

Lemma mentioned_keeps (xs : list string) (acc : Collection) (i : string) :
  In i acc -> In i (mentioned acc xs).
Proof.
  revert acc. induction xs as [|j xs IH]; intros acc H; simpl; [exact H|].
  apply IH. unfold union; simpl. destruct (mem j acc); [exact H|].
  apply in_or_app. now left.
Qed.

Lemma mentioned_all (xs : list string) (acc : Collection) (i : string) :
  In i xs -> In i (mentioned acc xs).
Proof.
  revert acc. induction xs as [|j xs IH]; intros acc H; simpl; [contradiction|].
  destruct H as [-> | H]; [|now apply IH].
  apply mentioned_keeps. unfold union; simpl.
  destruct (mem i acc) eqn:E; [now apply mem_In|].
  apply in_or_app. right. now left.
Qed.

(** A merge only appends: the elements already in the container stay as they
    are, [added] lists the ids of the appended elements and [merged] every id
    of the batch. *)
Lemma merge_fold (parents : option Collection) (els : list ElementDefinition) :
  forall (g : Graph Pos) (r : MergedToGraph),
    (forall i, In i (merged r) -> In i (ids g)) ->
    exists inserted : Graph Pos,
      fold_left (mergeElement api parents) els (g, r)
      = (g ++ inserted,
         mkMerged (mentioned (merged r) (map def_id els)) (added r ++ ids inserted))
      /\ (forall i, In i (map def_id els) -> In i (ids (g ++ inserted)))
      /\ (forall i, In i (ids inserted) -> ~ In i (ids g)).
Proof.
  induction els as [|el els IH]; intros g r Hinv.
  - exists []. simpl. rewrite !app_nil_r. destruct r. repeat split; simpl; tauto.
  - simpl. destruct (findEl g (def_id el)) as [old|] eqn:Efind.
    + destruct (IH g (mkMerged (union (merged r) [def_id el]) (added r)))
        as [ins [Hfold [Hall Hnew]]].
      { simpl. intros i. unfold union; simpl.
        destruct (mem (def_id el) (merged r)); [apply Hinv|].
        intros Hi. apply in_app_or in Hi. destruct Hi as [Hi | [<- | []]]; [now apply Hinv|].
        apply mem_In. rewrite findEl_mem, Efind. reflexivity. }
      exists ins. split; [exact Hfold|]. split; [|exact Hnew].
      intros i [<- | Hi]; [|now apply Hall].
      unfold ids. rewrite map_app. apply in_or_app. left.
      apply mem_In. fold (ids g). rewrite findEl_mem, Efind. reflexivity.
    + set (new := mkElement el (classNames (def_classes el))
                    (api_initialPosition api g parents el)).
      assert (Hfresh : ~ In (def_id el) (ids g)).
      { apply mem_false. rewrite findEl_mem, Efind. reflexivity. }
      destruct (IH (g ++ [new]) (mkMerged (merged r ++ [def_id el]) (added r ++ [def_id el])))
        as [ins [Hfold [Hall Hnew]]].
      { simpl. intros i Hi. unfold ids. rewrite map_app. apply in_or_app.
        apply in_app_or in Hi. destruct Hi as [Hi | [<- | []]].
        - left. now apply Hinv.
        - right. now left. }
      exists (new :: ins). simpl in Hfold. rewrite <- app_assoc in Hfold. simpl in Hfold.
      split; [|split].
      * etransitivity; [exact Hfold|]. f_equal. f_equal.
        -- unfold union; simpl.
           replace (mem (def_id el) (merged r)) with false; [reflexivity|].
           symmetry. apply mem_false. intros Hin. apply Hfresh. now apply Hinv.
        -- rewrite <- app_assoc. reflexivity.
      * intros i [<- | Hi].
        -- unfold ids. rewrite map_app. apply in_or_app. right. now left.
        -- rewrite <- app_assoc in Hall. now apply Hall.
      * intros i [<- | Hi]; [exact Hfresh|].
        intros Hg. apply (Hnew i Hi). unfold ids. rewrite map_app.
        apply in_or_app. now left.
Qed.

(** Merging a batch whose ids are all present changes nothing. *)
Lemma merge_fold_present (parents : option Collection) (els : list ElementDefinition) :
  forall (g : Graph Pos) (r : MergedToGraph),
    (forall i, In i (map def_id els) -> In i (ids g)) ->
    fold_left (mergeElement api parents) els (g, r)
    = (g, mkMerged (mentioned (merged r) (map def_id els)) (added r)).
Proof.
  induction els as [|el els IH]; intros g r Hall; simpl.
  - now destruct r.
  - assert (Hin : In (def_id el) (ids g)) by (apply Hall; now left).
    apply mem_In in Hin. rewrite findEl_mem in Hin.
    destruct (findEl g (def_id el)); [|discriminate].
    rewrite IH; [reflexivity|]. intros i Hi. apply Hall. now right.
Qed.

(** [mergeToGraph] on a view that has its container. *)
Lemma mergeToGraph_run
      (elements : list ElementDefinition) (batch triggerGraphChanged : bool)
      (parents : option Collection)
      (ready : bool) (g : Graph Pos) (me : bool) (evs : list Event) :
  mergeToGraph api elements batch triggerGraphChanged parents (mkJuggl ready (Some g) me evs)
  = let '(g1, r) := fold_left (mergeElement api parents) elements (g, mkMerged [] []) in
    (Ret r, mkJuggl ready (Some g1) me
              (evs ++ mergeEvents triggerGraphChanged (addedNodes g1 r))).
Proof.
  unfold mergeToGraph, mergeToGraphUtil, mergeEvents, addedNodes.
  destruct (fold_left (mergeElement api parents) elements (g, mkMerged [] []))
    as [g1 r] eqn:Efold.
  unfold bind, when, startBatch, endBatch, onGraphChanged, trigger, emit, bind,
    theViz, setViz, ret.
  destruct batch, triggerGraphChanged; simpl; rewrite Efold; simpl;
    match goal with
    | |- context [Nat.ltb 0 (List.length ?l)] => destruct (Nat.ltb 0 (List.length l))
    end; simpl; rewrite ?app_nil_r, <- ?app_assoc; reflexivity.
Qed.

(** C2.  Merging a batch appends the elements whose ids are new and leaves
    the others as they are.  Merging the same batch again leaves the container
    exactly as the first merge left it: nothing is added ([added] is empty, no
    new-node event is emitted) and every element of the batch is reported in
    [merged]. *)
Theorem merge_twice_is_idempotent :
  forall (elements : list ElementDefinition) (batch triggerGraphChanged : bool)
         (parents : option Collection)
         (ready : bool) (g : Graph Pos) (me : bool) (evs : list Event),
  exists (inserted : Graph Pos) (r1 r2 : MergedToGraph) (evs1 : list Event),
    mergeToGraph api elements batch triggerGraphChanged parents (mkJuggl ready (Some g) me evs)
    = (Ret r1, mkJuggl ready (Some (g ++ inserted)) me evs1)
    /\ mergeToGraph api elements batch triggerGraphChanged parents
         (mkJuggl ready (Some (g ++ inserted)) me evs1)
       = (Ret r2, mkJuggl ready (Some (g ++ inserted)) me
                    (evs1 ++ if triggerGraphChanged then [GraphChanged false] else []))
    /\ added r1 = ids inserted
    /\ (forall i, In i (ids inserted) -> ~ In i (ids g))
    /\ added r2 = []
    /\ merged r2 = merged r1
    /\ (forall el, In el elements -> In (def_id el) (merged r2)).
Proof.
  intros elements batch triggerGraphChanged parents ready g me evs.
  destruct (@merge_fold parents elements g (mkMerged [] [])) as [ins [Hfold [Hall Hnew]]].
  { simpl. tauto. }
  simpl in Hfold.
  exists ins.
  exists (mkMerged (mentioned [] (map def_id elements)) (ids ins)).
  exists (mkMerged (mentioned [] (map def_id elements)) []).
  eexists.
  split; [rewrite mergeToGraph_run, Hfold; reflexivity|].
  split.
  { rewrite mergeToGraph_run, (merge_fold_present parents elements _ _ Hall).
    unfold mergeEvents, addedNodes. simpl. rewrite app_nil_r. reflexivity. }
  simpl. repeat split; try assumption.
  intros el Hel. apply mentioned_all. now apply in_map.
Qed.

(* ------------------------------------------------------------------ *)
(** *** Connecting new nodes *)

Lemma fold_push_flat_map {A B} (f : A -> list B) (l : list A) (init : list B) :
  fold_left (fun acc x => acc ++ f x) l init = init ++ flat_map f l.
Proof.
  revert init. induction l as [|x l IH]; intros init; simpl.
  - now rewrite app_nil_r.
  - rewrite IH, app_assoc. reflexivity.
Qed.

Lemma difference_NoDup (a b : Collection) : NoDup a -> NoDup (difference a b).
Proof. apply NoDup_filter. Qed.


(* ------------------------------------------------------------------ *)
(** *** Neighbourhoods *)

Lemma has_keys {V} (k : string) (d : Dict.t V) : Dict.has k d = mem k (Dict.keys d).
Proof.
  unfold Dict.has. induction d as [|[k' v] d IH]; simpl; [reflexivity|].
  destruct (String.eqb k k'); simpl; [reflexivity | exact IH].
Qed.

Lemma set_keys {V} (k : string) (v : V) (d : Dict.t V) :
  Dict.keys (Dict.set k v d) = if Dict.has k d then Dict.keys d else Dict.keys d ++ [k].
Proof.
  unfold Dict.has. induction d as [|[k' v'] d IH]; simpl; [reflexivity|].
  destruct (String.eqb k k') eqn:E; simpl; [reflexivity|].
  rewrite IH. destruct (Dict.get k d); reflexivity.
Qed.

Lemma set_NoDup {V} (k : string) (v : V) (d : Dict.t V) :
  NoDup (Dict.keys d) -> NoDup (Dict.keys (Dict.set k v d)).
Proof.
  intros H. rewrite set_keys. destruct (Dict.has k d) eqn:E; [exact H|].
  apply NoDup_app; [exact H | repeat constructor; auto |].
  intros x Hx [<- | []]. rewrite has_keys in E. apply mem_false in E. contradiction.
Qed.

Lemma backlinks_uniqueKeys (this : ObsidianStore) (p : string) (paths : list string) :
  forall acc, whenRet uniqueKeys acc ->
              whenRet uniqueKeys (fold_left (backlinkStep api this p) paths acc).
Proof.
  induction paths as [|q paths IH]; intros acc H; simpl; [exact H|].
  apply IH. destruct acc as [nodes|]; simpl in *; [|exact I].
  destruct (mem p _); [|exact H].
  destruct (getAbstractFileByPath this q); [|exact I].
  destruct (Dict.has _ nodes); simpl; [exact H | now apply set_NoDup].
Qed.

Lemma settle_uniqueKeys (promiseNodes : Nodes) (keys : list string) :
  forall nodes, uniqueKeys nodes -> uniqueKeys (fold_left (settleStep promiseNodes) keys nodes).
Proof.
  induction keys as [|k keys IH]; intros nodes H; simpl; [exact H|].
  apply IH. unfold settleStep. destruct (Dict.has k nodes); [exact H|].
  destruct (Dict.get k promiseNodes); [now apply set_NoDup | exact H].
Qed.

Lemma step_uniqueKeys (this : ObsidianStore) (nodes : Nodes) (nodeId : VizId) :
  uniqueKeys nodes -> whenRet uniqueKeys (neighbourhoodStep api this nodes nodeId).
Proof.
  intros H. unfold neighbourhoodStep.
  destruct (String.eqb (storeId nodeId) ObsidianStore_storeId); [|exact H].
  destruct (getFile this nodeId) as [file|] eqn:Efile; [|exact H].
  destruct (getFileCache this file) as [cache|]; [|exact H].
  unfold fillWithBacklinks. rewrite Efile.
  match goal with
  | |- context [fold_left (settleStep ?pn) ?ks ?n1] =>
      assert (H2 : uniqueKeys (fold_left (settleStep pn) ks n1))
  end.
  { apply settle_uniqueKeys. destruct (Dict.has _ nodes); [exact H | now apply set_NoDup]. }
  destruct (String.eqb (storeId nodeId) "core"); [|exact H2].
  now apply backlinks_uniqueKeys.
Qed.

Lemma neighbourhood_uniqueKeys (this : ObsidianStore) (nodeIds : list VizId) :
  forall acc, whenRet uniqueKeys acc ->
    whenRet uniqueKeys
      (fold_left (fun acc nodeId => obind acc (fun nodes => neighbourhoodStep api this nodes nodeId))
                 nodeIds acc).
Proof.
  induction nodeIds as [|nodeId nodeIds IH]; intros acc H; simpl; [exact H|].
  apply IH. destruct acc as [nodes|]; simpl in *; [|exact I].
  now apply step_uniqueKeys.
Qed.

Lemma step_not_indexed (this : ObsidianStore) (nodes : Nodes) (nodeId : VizId) :
  indexed this nodeId = false -> neighbourhoodStep api this nodes nodeId = Ret nodes.
Proof.
  unfold indexed, neighbourhoodStep. intros H.
  destruct (String.eqb (storeId nodeId) ObsidianStore_storeId); [|reflexivity].
  destruct (getFile this nodeId) as [file|]; [|reflexivity].
  destruct (getFileCache this file); [discriminate | reflexivity].
Qed.


(* ------------------------------------------------------------------ *)
(** *** Extracting edges: groups and occurrence counters *)

Lemma mentioned_In (xs : list string) (acc : Collection) (i : string) :
  In i (mentioned acc xs) <-> In i acc \/ In i xs.
Proof.
  revert acc. induction xs as [|j xs IH]; intros acc; simpl; [tauto|].
  rewrite IH. unfold union; simpl.
  destruct (mem j acc) eqn:E.
  - apply mem_In in E. intuition (subst; auto).
  - rewrite in_app_iff. simpl. intuition (subst; auto).
Qed.

Lemma mentioned_snoc (xs : list string) (acc : Collection) (i : string) :
  mentioned acc (xs ++ [i]) = union (mentioned acc xs) [i].
Proof. unfold mentioned. now rewrite fold_left_app. Qed.

Lemma mentioned_NoDup (xs : list string) (acc : Collection) :
  NoDup acc -> NoDup (mentioned acc xs).
Proof.
  revert acc. induction xs as [|j xs IH]; intros acc H; simpl; [exact H|].
  apply IH. unfold union; simpl. destruct (mem j acc) eqn:E; [exact H|].
  apply mem_false in E. apply NoDup_app; [exact H | repeat constructor; auto |].
  intros x Hx [<- | []]. contradiction.
Qed.

Lemma edgeKey_inj (srcId t t' : string) : edgeKey srcId t = edgeKey srcId t' -> t = t'.
Proof.
  unfold edgeKey. intros H. apply append_inj_l in H. now apply append_inj_l in H.
Qed.

Lemma edgeKey_eqb (srcId t t' : string) :
  String.eqb (edgeKey srcId t) (edgeKey srcId t') = String.eqb t t'.
Proof.
  destruct (String.eqb t t') eqn:E.
  - apply String.eqb_eq in E. subst. apply String.eqb_refl.
  - apply String.eqb_neq. intros H. apply edgeKey_inj in H.
    apply String.eqb_neq in E. contradiction.
Qed.

Lemma byTarget_get {V} (srcId : string) (f : string -> V) (ts : list string) (t : string) :
  Dict.get (edgeKey srcId t) (byTarget srcId f ts) = if mem t ts then Some (f t) else None.
Proof.
  induction ts as [|t' ts IH]; simpl; [reflexivity|].
  rewrite edgeKey_eqb. destruct (String.eqb t t') eqn:E; simpl; [|exact IH].
  apply String.eqb_eq in E. now subst.
Qed.

Lemma byTarget_ext {V} (srcId : string) (f f' : string -> V) (ts : list string) :
  (forall t, In t ts -> f t = f' t) -> byTarget srcId f ts = byTarget srcId f' ts.
Proof.
  intros H. unfold byTarget. apply map_ext_in. intros t Ht. now rewrite H.
Qed.

Lemma byTarget_set {V} (srcId : string) (f f' : string -> V) (ts : list string)
      (t : string) (v : V) :
  NoDup ts -> f' t = v -> (forall t', t' <> t -> f' t' = f t') ->
  Dict.set (edgeKey srcId t) v (byTarget srcId f ts)
  = if mem t ts then byTarget srcId f' ts else byTarget srcId f' (ts ++ [t]).
Proof.
  intros Hnd Hv Hother. induction ts as [|t' ts IH]; simpl.
  - now rewrite Hv.
  - apply NoDup_cons_iff in Hnd. destruct Hnd as [Hnotin Hnd'].
    rewrite edgeKey_eqb. destruct (String.eqb t t') eqn:E; simpl.
    + apply String.eqb_eq in E. subst t'. f_equal; [now rewrite Hv|].
      apply byTarget_ext. intros x Hx. symmetry. apply Hother. congruence.
    + rewrite (IH Hnd'). apply String.eqb_neq in E.
      rewrite (Hother t') by congruence.
      destruct (mem t ts); reflexivity.
Qed.

Lemma buildFrom_app (this : ObsidianStore) (content : list string) (srcId t : string)
      (a b : list Reference) :
  forall k, buildFrom this content srcId t k (a ++ b)
            = buildFrom this content srcId t k a
              ++ buildFrom this content srcId t (k + List.length a) b.
Proof.
  induction a as [|r a IH]; intros k; simpl.
  - now rewrite Nat.add_0_r.
  - rewrite IH. replace (k + S (List.length a)) with (S k + List.length a) by lia.
    reflexivity.
Qed.

Lemma buildFrom_length (this : ObsidianStore) (content : list string) (srcId t : string)
      (refs : list Reference) :
  forall k, List.length (buildFrom this content srcId t k refs) = List.length refs.
Proof. induction refs as [|r refs IH]; intros k; simpl; [reflexivity | now rewrite IH]. Qed.

(** The callback skips the references that resolve outside [toNodes]. *)
Lemma collect_accepted (this : ObsidianStore) (srcFile : TFile) (srcId : string)
      (toNodes : Collection) (content : list string) (refs : list Reference) :
  forall edges,
    fold_left (collectEdge api this srcFile srcId toNodes content) refs edges
    = fold_left (collectEdge api this srcFile srcId toNodes content)
                (filter (fun ref => mem (targetOf this srcFile ref) toNodes) refs) edges.
Proof.
  induction refs as [|r refs IH]; intros edges; simpl; [reflexivity|].
  destruct (mem (targetOf this srcFile r) toNodes) eqn:E; simpl.
  - apply IH.
  - rewrite <- IH. f_equal. unfold collectEdge. fold (targetOf this srcFile r).
    now rewrite E.
Qed.

Lemma unmentioned_target (this : ObsidianStore) (srcFile : TFile)
      (refs : list Reference) (t : string) :
  ~ In t (targetsOf this srcFile refs) ->
  filter (fun ref => String.eqb (targetOf this srcFile ref) t) refs = [].
Proof.
  intros Hnot.
  assert (H : forall ref, In ref refs -> String.eqb (targetOf this srcFile ref) t = false).
  { intros ref Hin. apply String.eqb_neq. intros E. apply Hnot.
    unfold targetsOf. apply mentioned_In. right. rewrite <- E. now apply in_map. }
  clear Hnot. induction refs as [|x refs IH]; simpl; [reflexivity|].
  rewrite (H x) by now left. apply IH. intros ref Hin. apply H. now right.
Qed.

(** The dictionary [edges] after the callback has seen the references [refs],
    all of them resolving into [toNodes]: one entry per target, in order of
    first occurrence, holding the target's group. *)
Lemma collect_groups (this : ObsidianStore) (srcFile : TFile) (srcId : string)
      (toNodes : Collection) (content : list string) (refs : list Reference) :
  Forall (fun ref => mem (targetOf this srcFile ref) toNodes = true) refs ->
  fold_left (collectEdge api this srcFile srcId toNodes content) refs []
  = byTarget srcId (groupOf this srcFile content srcId refs) (targetsOf this srcFile refs).
Proof.
  induction refs as [|r refs IH] using rev_ind; intros Hacc.
  { reflexivity. }
  apply Forall_app in Hacc. destruct Hacc as [Hrefs Hr].
  inversion Hr as [|? ? Hr' _]; subst.
  rewrite fold_left_app. simpl. rewrite (IH Hrefs).
  unfold collectEdge. fold (targetOf this srcFile r). rewrite Hr'.
  set (t := targetOf this srcFile r).
  assert (Hgroup : groupOf this srcFile content srcId (refs ++ [r]) t
                   = groupOf this srcFile content srcId refs t
                     ++ [makeEdge api this content
                           (edgeKey srcId t
                            ^^ JS.ofNat (List.length (groupOf this srcFile content srcId refs t) + 1))
                           srcId t r]).
  { unfold groupOf. rewrite filter_app. simpl. fold t. rewrite String.eqb_refl.
    rewrite buildFrom_app. cbn [buildFrom]. rewrite buildFrom_length.
    unfold edgeIdOf.
    match goal with
    | |- context [List.length ?l + 1] =>
        replace (List.length l + 1) with (1 + List.length l) by lia
    end.
    reflexivity. }
  assert (Hother : forall t', t' <> t ->
            groupOf this srcFile content srcId (refs ++ [r]) t'
            = groupOf this srcFile content srcId refs t').
  { intros t' Hne. unfold groupOf. rewrite filter_app. simpl. fold t.
    replace (String.eqb t t') with false; [now rewrite app_nil_r|].
    symmetry. apply String.eqb_neq. congruence. }
  assert (Hts : targetsOf this srcFile (refs ++ [r])
                = if mem t (targetsOf this srcFile refs)
                  then targetsOf this srcFile refs
                  else targetsOf this srcFile refs ++ [t]).
  { unfold targetsOf. rewrite map_app. simpl. now rewrite mentioned_snoc. }
  assert (Hnd : NoDup (targetsOf this srcFile refs)).
  { apply mentioned_NoDup. constructor. }
  rewrite byTarget_get. rewrite Hts.
  destruct (mem t (targetsOf this srcFile refs)) eqn:Emem.
  - rewrite (byTarget_set srcId _ (groupOf this srcFile content srcId (refs ++ [r])) Hnd
               (v := groupOf this srcFile content srcId refs t ++ _) Hgroup Hother).
    now rewrite Emem.
  - rewrite (byTarget_set srcId _ (groupOf this srcFile content srcId (refs ++ [r])) Hnd
               (v := [_]) (t := t)); [now rewrite Emem | | exact Hother].
    rewrite Hgroup.
    assert (Hempty : groupOf this srcFile content srcId refs t = []).
    { unfold groupOf. rewrite unmentioned_target; [reflexivity|].
      now apply mem_false. }
    rewrite Hempty. reflexivity.
Qed.

(* ------------------------------------------------------------------ *)
(** *** Extracting edges: merging inline edges *)

Lemma join_absorb (sep a b : string) (rest : list string) :
  JS.join sep (a :: b :: rest) = JS.join sep ((a ^^ sep ^^ b) :: rest).
Proof.
  destruct rest as [|c rest]; [reflexivity|].
  change (JS.join sep (a :: b :: c :: rest))
    with (a ^^ sep ^^ b ^^ sep ^^ JS.join sep (c :: rest)).
  change (JS.join sep ((a ^^ sep ^^ b) :: c :: rest))
    with ((a ^^ sep ^^ b) ^^ sep ^^ JS.join sep (c :: rest)).
  now rewrite !append_assoc.
Qed.

Lemma set_context_twice (c1 c2 : string) (e : EdgeDefinition) :
  set_context c2 (set_context c1 e) = set_context c2 e.
Proof. reflexivity. Qed.

Lemma mergeOne_inline_some (ret0 : list EdgeDefinition) (ie e : EdgeDefinition) (c : nat) :
  isInline e = true ->
  mergeOne (mkMergeState ret0 (Some ie) c) e
  = mkMergeState ret0
      (Some (set_context (d_context (e_data ie) ^^ separator ^^ d_context (e_data e)) ie))
      (c + 1).
Proof. intros E. unfold mergeOne. fold (isInline e). now rewrite E. Qed.

Lemma mergeOne_inline_none (ret0 : list EdgeDefinition) (e : EdgeDefinition) (c : nat) :
  isInline e = true ->
  mergeOne (mkMergeState ret0 None c) e = mkMergeState ret0 (Some e) 1.
Proof. intros E. unfold mergeOne. fold (isInline e). now rewrite E. Qed.

Lemma mergeOne_other (st : MergeState) (e : EdgeDefinition) :
  isInline e = false ->
  mergeOne st e = mkMergeState (returnEdges st ++ [e]) (inlineEdge st) (countInline st).
Proof. intros E. unfold mergeOne. fold (isInline e). now rewrite E. Qed.

Lemma merge_with_inline (group : list EdgeDefinition) :
  forall (ret0 : list EdgeDefinition) (ie : EdgeDefinition) (ctx : string) (c : nat),
    fold_left mergeOne group (mkMergeState ret0 (Some (set_context ctx ie)) c)
    = mkMergeState
        (ret0 ++ filter (fun e => negb (isInline e)) group)
        (Some (set_context
                 (JS.join separator
                    (ctx :: map (fun x => d_context (e_data x)) (filter isInline group)))
                 ie))
        (c + List.length (filter isInline group)).
Proof.
  induction group as [|e group IH]; intros ret0 ie ctx c.
  - simpl. now rewrite app_nil_r, Nat.add_0_r.
  - cbn [fold_left filter]. destruct (isInline e) eqn:E; cbn [negb].
    + rewrite mergeOne_inline_some by exact E.
      rewrite set_context_twice.
      change (d_context (e_data (set_context ctx ie))) with ctx.
      rewrite IH. cbn [map List.length]. rewrite join_absorb.
      replace (c + 1 + List.length (filter isInline group))
        with (c + S (List.length (filter isInline group))) by lia.
      reflexivity.
    + rewrite mergeOne_other by exact E. cbn [returnEdges inlineEdge countInline].
      rewrite IH, <- app_assoc. reflexivity.
Qed.

Lemma set_context_same (e : EdgeDefinition) : set_context (d_context (e_data e)) e = e.
Proof. destruct e as [[? ? ? ? ? ? ?] ?]. reflexivity. Qed.

Lemma mergedInline_eq (e : EdgeDefinition) (es : list EdgeDefinition) :
  set_edgeCount (1 + List.length es)
    (set_context (JS.join separator
                    (d_context (e_data e) :: map (fun x => d_context (e_data x)) es)) e)
  = mergedInline e es.
Proof. reflexivity. Qed.

Lemma mergeGroup_spec (group ret0 : list EdgeDefinition) :
  mergeGroup ret0 group = ret0 ++ mergedGroup group.
Proof.
  unfold mergeGroup, mergedGroup. revert ret0.
  induction group as [|e group IH]; intros ret0.
  - simpl. now rewrite app_nil_r.
  - cbn [fold_left filter]. destruct (isInline e) eqn:E; cbn [negb].
    + rewrite mergeOne_inline_none by exact E.
      pose proof (merge_with_inline group ret0 e (d_context (e_data e)) 1) as Hm.
      rewrite set_context_same in Hm. rewrite Hm.
      cbn [inlineEdge returnEdges countInline].
      rewrite mergedInline_eq, <- app_assoc. reflexivity.
    + rewrite mergeOne_other by exact E. cbn [returnEdges inlineEdge countInline].
      rewrite IH, <- app_assoc. reflexivity.
Qed.

Lemma mergeGroups_spec (groups : list (list EdgeDefinition)) :
  forall ret0, fold_left mergeGroup groups ret0
               = ret0 ++ flat_map mergedGroup groups.
Proof.
  induction groups as [|group groups IH]; intros ret0; simpl.
  - now rewrite app_nil_r.
  - rewrite IH, mergeGroup_spec, <- app_assoc. reflexivity.
Qed.

Lemma byTarget_values {V} (srcId : string) (f : string -> list V) (ts : list string) :
  map (fun edgeId => match Dict.get edgeId (byTarget srcId f ts) with
                     | Some es => es
                     | None => []
                     end) (Dict.keys (byTarget srcId f ts))
  = map f ts.
Proof.
  assert (Hkeys : Dict.keys (byTarget srcId f ts) = map (edgeKey srcId) ts).
  { unfold Dict.keys, byTarget. rewrite map_map. reflexivity. }
  rewrite Hkeys, map_map.
  apply map_ext_in. intros t Ht. rewrite byTarget_get.
  apply mem_In in Ht. now rewrite Ht.
Qed.

(** The dictionary [edges] of [createEdges]. *)
Lemma createEdges_groups (this : ObsidianStore) (srcFile : TFile) (srcId : string)
      (toNodes : Collection) (cache : CachedMetadata) (content : list string) :
  fold_left (collectEdge api this srcFile srcId toNodes content) (iterLinks cache) []
  = byTarget srcId
      (groupOf this srcFile content srcId (accepted this srcFile toNodes cache))
      (targetsOf this srcFile (accepted this srcFile toNodes cache)).
Proof.
  rewrite collect_accepted. apply collect_groups.
  apply Forall_forall. intros ref Hin. unfold accepted in Hin.
  apply filter_In in Hin. tauto.
Qed.

(** C3.  With merging enabled, [createEdges] answers its groups one after the
    other, one group per target in order of first reference.  Within a group
    the edges whose classes are not [" inline"] are answered one by one, as
    they were built, and the inline edges are answered as one descriptor: the
    first of them, whose [edgeCount] is the number of inline edges of the
    group and whose context is their contexts in order, joined by the
    separator. *)
Theorem createEdges_merges_inline_edges :
  forall (this : ObsidianStore) (srcFile : TFile) (srcId : string) (toNodes : Collection)
         (cache : CachedMetadata) (ready : bool) (g : option (Graph Pos)) (evs : list Event),
    extension srcFile = "md" ->
    getFileCache this srcFile = Some cache ->
    let refs := accepted this srcFile toNodes cache in
    let content := JS.split newline (cachedRead this srcFile) in
    let group := groupOf this srcFile content srcId refs in
    createEdges api this srcFile srcId toNodes (mkJuggl ready g true evs)
    = flat_map
        (fun t =>
           filter (fun e => negb (isInline e)) (group t)
           ++ match filter isInline (group t) with
              | [] => []
              | e :: es => [mergedInline e es]
              end)
        (targetsOf this srcFile refs).
Proof.
  intros this srcFile srcId toNodes cache ready g evs Hmd Hcache refs content group.
  unfold createEdges. rewrite Hmd, Hcache. simpl.
  rewrite createEdges_groups, byTarget_values, mergeGroups_spec. simpl.
  rewrite flat_map_concat_map, map_map, <- flat_map_concat_map. reflexivity.
Qed.

(* ------------------------------------------------------------------ *)
(** *** Extracting edges: determinism *)

Lemma fold_left_ext {A B} (f f' : A -> B -> A) (l : list B) :
  (forall a b, f a b = f' a b) -> forall a, fold_left f l a = fold_left f' l a.
Proof.
  intros H. induction l as [|b l IH]; intros a; simpl; [reflexivity|].
  now rewrite H, IH.
Qed.

Lemma buildFrom_nth (this : ObsidianStore) (content : list string) (srcId t : string)
      (refs : list Reference) :
  forall (k n : nat) (ref : Reference),
    nth_error refs n = Some ref ->
    nth_error (buildFrom this content srcId t k refs) n
    = Some (makeEdge api this content (edgeIdOf srcId t (k + n)) srcId t ref).
Proof.
  induction refs as [|r refs IH]; intros k n ref H.
  - destruct n; discriminate.
  - destruct n as [|n]; simpl in *.
    + injection H as ->. now rewrite Nat.add_0_r.
    + rewrite (IH (S k) n ref H). replace (k + S n) with (S k + n) by lia. reflexivity.
Qed.

(** C9.  Without merging, [createEdges] answers the groups of the targets in
    order of first reference, and in the group of target [t] the descriptor
    of the [n+1]-th reference to [t] is built under the id
    [srcId->t] followed by [n+1]: the id is fixed by the source id, the target
    id and the occurrence index within the pair.  Extraction reads the corpus
    only through the document's metadata, its content and the resolution of
    its links, so two extractions against a corpus showing the same document
    answer the same descriptors. *)
Theorem createEdges_ids_by_occurrence :
  forall (this : ObsidianStore) (srcFile : TFile) (srcId : string) (toNodes : Collection)
         (cache : CachedMetadata) (ready : bool) (g : option (Graph Pos)) (evs : list Event),
    extension srcFile = "md" ->
    getFileCache this srcFile = Some cache ->
    let refs := accepted this srcFile toNodes cache in
    let content := JS.split newline (cachedRead this srcFile) in
    createEdges api this srcFile srcId toNodes (mkJuggl ready g false evs)
    = flat_map (groupOf this srcFile content srcId refs) (targetsOf this srcFile refs)
    /\ (forall (t : string) (n : nat) (ref : Reference),
           nth_error (filter (fun r => String.eqb (targetOf this srcFile r) t) refs) n
           = Some ref ->
           nth_error (groupOf this srcFile content srcId refs t) n
           = Some (makeEdge api this content
                     (srcId ^^ "->" ^^ t ^^ JS.ofNat (n + 1)) srcId t ref))
    /\ (forall (id s t key : string), d_id (e_data (frontmatterEdge id s t key)) = id)
    /\ (forall (this' : ObsidianStore) (view : Juggl Pos),
           sameDocument this this' srcFile ->
           createEdges api this' srcFile srcId toNodes view
           = createEdges api this srcFile srcId toNodes view).
Proof.
  intros this srcFile srcId toNodes cache ready g evs Hmd Hcache refs content.
  split; [|split; [|split]].
  - unfold createEdges. rewrite Hmd, Hcache. simpl.
    rewrite createEdges_groups. unfold Dict.values, byTarget. rewrite map_map. simpl.
    rewrite flat_map_concat_map. reflexivity.
  - intros t n ref Hnth. unfold groupOf.
    rewrite (buildFrom_nth this content srcId t _ 1 n Hnth).
    unfold edgeIdOf, edgeKey. rewrite !append_assoc, (Nat.add_comm 1 n). reflexivity.
  - reflexivity.
  - intros this' view [Hc [Hr [Hp Hl]]]. unfold createEdges.
    rewrite Hc, Hr. destruct (negb (String.eqb (extension srcFile) "md")); [reflexivity|].
    destruct (getFileCache this srcFile) as [cache'|]; [|reflexivity].
    assert (Hfold : forall edges,
      fold_left (collectEdge api this' srcFile srcId toNodes
                   (JS.split newline (cachedRead this srcFile))) (iterLinks cache') edges
      = fold_left (collectEdge api this srcFile srcId toNodes
                     (JS.split newline (cachedRead this srcFile))) (iterLinks cache') edges).
    { apply fold_left_ext. intros edges ref.
      unfold collectEdge, getOtherId, makeEdge. rewrite Hl, Hp. reflexivity. }
    rewrite Hfold. reflexivity.
Qed.

(* ------------------------------------------------------------------ *)
(** *** What a step of the view leaves in place *)

Lemma keeps_refl (P : Element Pos -> Prop) (v : Juggl Pos) : keeps P v v.
Proof. intros g Hg Hnd. exists g. auto. Qed.

Lemma keeps_trans (P : Element Pos -> Prop) (v1 v2 v3 : Juggl Pos) :
  keeps P v1 v2 -> keeps P v2 v3 -> keeps P v1 v3.
Proof.
  intros H12 H23 g Hg Hnd.
  destruct (H12 g Hg Hnd) as [g2 [Hg2 [Hnd2 Hin2]]].
  destruct (H23 g2 Hg2 Hnd2) as [g3 [Hg3 [Hnd3 Hin3]]].
  exists g3. repeat split; auto.
Qed.

Lemma framed_ret (P : Element Pos -> Prop) {A} (a : A) : framed P (ret a).
Proof. intros v. apply keeps_refl. Qed.

Lemma framed_throw (P : Element Pos -> Prop) {A} : framed P (@throw Pos A).
Proof. intros v. apply keeps_refl. Qed.

Lemma framed_bind (P : Element Pos -> Prop) {A B} (m : M Pos A) (k : A -> M Pos B) :
  framed P m -> (forall a, framed P (k a)) -> framed P (bind m k).
Proof.
  intros Hm Hk v. unfold bind. specialize (Hm v).
  destruct (m v) as [[a|] v1]; simpl in *; [|exact Hm].
  eapply keeps_trans; [exact Hm | apply Hk].
Qed.

Lemma framed_lift (P : Element Pos -> Prop) {A} (o : outcome A) : framed P (lift (Pos := Pos) o).
Proof. intros v. apply keeps_refl. Qed.

Lemma framed_getView (P : Element Pos -> Prop) : framed P (getView (Pos := Pos)).
Proof. intros v. apply keeps_refl. Qed.

Lemma framed_theViz (P : Element Pos -> Prop) : framed P (theViz (Pos := Pos)).
Proof. intros v. unfold theViz. destruct (viz v); apply keeps_refl. Qed.

Lemma framed_emit (P : Element Pos -> Prop) (e : Event) : framed P (emit (Pos := Pos) e).
Proof. intros v g Hg Hnd. exists g. simpl. auto. Qed.

Lemma framed_when (P : Element Pos -> Prop) (b : bool) (m : M Pos unit) :
  framed P m -> framed P (when b m).
Proof. intros H. destruct b; [exact H | apply framed_ret]. Qed.

(** One step through a monadic definition. *)
Ltac frame_step :=
  first [ apply framed_bind; [|intros ?]
        | apply framed_when
        | apply framed_ret | apply framed_throw | apply framed_lift
        | apply framed_getView | apply framed_theViz | apply framed_emit ].

Lemma framed_batch (P : Element Pos -> Prop) :
  framed P (startBatch (Pos := Pos)) /\ framed P (endBatch (Pos := Pos)).
Proof. split; unfold startBatch, endBatch; repeat frame_step. Qed.

Lemma framed_onGraphChanged (P : Element Pos -> Prop) (batch debounceLayout : bool) :
  framed P (onGraphChanged (Pos := Pos) batch debounceLayout).
Proof.
  unfold onGraphChanged. repeat frame_step; apply framed_batch.
Qed.

Lemma framed_trigger (P : Element Pos -> Prop) (name : string) (eles : Collection) :
  framed P (trigger (Pos := Pos) name eles).
Proof. apply framed_emit. Qed.

(** Adding a class touches the elements of the collection only. *)
Lemma addClassTo_ids (coll : Collection) (c : string) (g : Graph Pos) :
  ids (addClassTo coll c g) = ids g.
Proof.
  unfold ids, addClassTo. rewrite map_map. apply map_ext. intros el.
  destruct (_ && _); reflexivity.
Qed.

Lemma framed_addClass (P : Element Pos -> Prop) (coll : Collection) (c : string) :
  (forall el, P el -> ~ In (el_id el) coll) -> framed P (addClass coll c).
Proof.
  intros HP v g Hg Hnd. unfold addClass, bind, theViz, setViz. rewrite Hg. simpl.
  eexists. split; [reflexivity|]. split.
  - now rewrite addClassTo_ids.
  - intros el Hin Hel. unfold addClassTo. apply in_map_iff. exists el. split; [|exact Hin].
    replace (mem (el_id el) coll) with false; [reflexivity|].
    symmetry. apply mem_false. now apply HP.
Qed.

Lemma merge_fold_NoDup (parents : option Collection) (els : list ElementDefinition) :
  forall (g g' : Graph Pos) (r r' : MergedToGraph),
    fold_left (mergeElement api parents) els (g, r) = (g', r') ->
    (NoDup (ids g) -> NoDup (ids g')) /\ (forall el, In el g -> In el g').
Proof.
  induction els as [|d els IH]; intros g g' r r' H; simpl in H.
  - injection H as <- <-. auto.
  - destruct (findEl g (def_id d)) eqn:Efind.
    + now apply IH in H.
    + apply IH in H. destruct H as [Hnd Hin]. split.
      * intros Hg. apply Hnd. unfold ids. rewrite map_app. simpl.
        apply NoDup_app; [exact Hg | repeat constructor; auto |].
        intros x Hx [<- | []]. unfold el_id in Hx at 1. simpl in Hx.
        fold (ids g) in Hx.
        apply mem_In in Hx. rewrite findEl_mem, Efind in Hx. discriminate.
      * intros el Hel. apply Hin. apply in_or_app. now left.
Qed.

(** A merge keeps every element there was. *)
Lemma framed_mergeToGraph (P : Element Pos -> Prop) (elements : list ElementDefinition)
      (batch triggerGraphChanged : bool) (parents : option Collection) :
  framed P (mergeToGraph api elements batch triggerGraphChanged parents).
Proof.
  intros v g Hg Hnd0. destruct v as [ready vz me evs]. simpl in Hg. subst vz.
  rewrite mergeToGraph_run.
  destruct (fold_left (mergeElement api parents) elements (g, mkMerged [] []))
    as [g1 r] eqn:Efold.
  apply merge_fold_NoDup in Efold. destruct Efold as [Hnd Hin].
  exists g1. simpl. repeat split; auto.
Qed.

Lemma framed_neighbourhood (P : Element Pos -> Prop) (toExpand : list VizId) :
  framed P (neighbourhood dataStores toExpand).
Proof.
  unfold neighbourhood.
  assert (H : forall init : M Pos (list NodeDefinition), framed P init ->
            framed P (fold_left
                        (fun acc store =>
                           bind acc (fun nodes0 =>
                           bind getView (fun view =>
                           bind (lift (ds_getNeighbourhood store toExpand view))
                                (fun storeNodes => ret (nodes0 ++ storeNodes)))))
                        dataStores init)).
  { induction dataStores as [|store stores IH]; intros init Hinit; simpl; [exact Hinit|].
    apply IH. repeat frame_step. exact Hinit. }
  apply H. apply framed_ret.
Qed.

Lemma framed_buildEdges (P : Element Pos -> Prop) (newNodes : Collection) :
  framed P (buildEdges dataStores newNodes).
Proof.
  unfold buildEdges.
  assert (H : forall init : M Pos (list EdgeDefinition), framed P init ->
            framed P (fold_left
                        (fun acc store =>
                           bind acc (fun edges =>
                           bind theViz (fun g =>
                           bind getView (fun view =>
                           bind (lift (ds_connectNodes store (nodes g) newNodes view))
                                (fun storeEdges => ret (edges ++ storeEdges))))))
                        dataStores init)).
  { induction dataStores as [|store stores IH]; intros init Hinit; simpl; [exact Hinit|].
    apply IH. repeat frame_step. exact Hinit. }
  apply H. apply framed_ret.
Qed.

(** Expanding touches the expanded nodes only. *)
Lemma framed_expand (P : Element Pos -> Prop) (toExpand : Collection)
      (batch triggerGraphChanged : bool) :
  (forall el, P el -> ~ In (el_id el) toExpand) ->
  framed P (expand api dataStores toExpand batch triggerGraphChanged).
Proof.
  intros HP. unfold expand.
  destruct (Nat.eqb (List.length toExpand) 0); [apply framed_ret|].
  repeat first [ apply framed_batch
               | apply framed_addClass; exact HP
               | apply framed_neighbourhood
               | apply framed_buildEdges
               | apply framed_mergeToGraph
               | apply framed_trigger
               | frame_step ].
Qed.


(* ------------------------------------------------------------------ *)
(** *** Refreshing a node: what is pruned *)

Lemma unique_id (g : Graph Pos) (el el' : Element Pos) :
  NoDup (ids g) -> In el g -> In el' g -> el_id el = el_id el' -> el = el'.
Proof.
  induction g as [|x g IH]; intros Hnd Hel Hel' E; [contradiction|].
  simpl in Hnd. apply NoDup_cons_iff in Hnd. destruct Hnd as [Hx Hnd].
  destruct Hel as [<- | Hel], Hel' as [<- | Hel'].
  - reflexivity.
  - exfalso. apply Hx. rewrite E. now apply in_map.
  - exfalso. apply Hx. rewrite <- E. now apply in_map.
  - now apply IH.
Qed.



Lemma connectedEdges_In (g : Graph Pos) (node : Collection) (el : Element Pos) :
  NoDup (ids g) -> In el g ->
  (In (el_id el) (connectedEdges g node) <-> touches (nodesAmong g node) el = true).
Proof.
  intros Hnd Hin. unfold connectedEdges. fold (nodesAmong g node). split.
  - intros H. apply in_map_iff in H. destruct H as [el' [E H]].
    apply filter_In in H. destruct H as [Hin' Ht].
    assert (el' = el) as <- by (eapply unique_id; eauto). exact Ht.
  - intros Ht. apply in_map. apply filter_In. auto.
Qed.


Lemma touches_edge (coll : Collection) (el : Element Pos) :
  touches coll el = true -> isNode el = false.
Proof. unfold touches, isNode. destruct (el_def el); [discriminate | reflexivity]. Qed.

Lemma filter_none {A} (f : A -> bool) (l : list A) :
  (forall x, In x l -> f x = false) -> filter f l = [].
Proof.
  induction l as [|x l IH]; intros H; simpl; [reflexivity|].
  rewrite (H x) by now left. apply IH. intros y Hy. apply H. now right.
Qed.



Lemma bind_Ret {A B} (m : M Pos A) (k : A -> M Pos B) (v v' : Juggl Pos) (a : A) :
  m v = (Ret a, v') -> bind m k v = k a v'.
Proof. intros H. unfold bind. now rewrite H. Qed.



Lemma removeFrom_NoDup (coll : Collection) (g : Graph Pos) :
  NoDup (ids g) -> NoDup (ids (removeFrom coll g)).
Proof.
  unfold removeFrom. generalize (fun el : Element Pos => negb (leaves g coll el)).
  intros f. induction g as [|el g IH]; intros Hnd; simpl; [constructor|].
  simpl in Hnd. apply NoDup_cons_iff in Hnd. destruct Hnd as [Hel Hnd].
  destruct (f el); simpl; [|now apply IH].
  constructor; [|now apply IH].
  intros Hin. apply Hel. unfold ids in *. apply in_map_iff in Hin.
  destruct Hin as [x [E Hx]]. apply filter_In in Hx. rewrite <- E.
  apply in_map. tauto.
Qed.






(* ================================================================== *)
(** ** Further properties of the extraction *)
(* ================================================================== *)

Local Abbreviation linksInto := (linksInto api).
Local Abbreviation edgeGroups := (edgeGroups api).

(** [createEdges] in terms of its groups, for every file. *)
Lemma createEdges_by_groups (this : ObsidianStore) (srcFile : TFile) (srcId : string)
      (toNodes : Collection) (view : Juggl Pos) :
  createEdges api this srcFile srcId toNodes view
  = if mergeEdges view
    then flat_map mergedGroup (edgeGroups this srcFile srcId toNodes)
    else concat (edgeGroups this srcFile srcId toNodes).
Proof.
  unfold createEdges, edgeGroups, linksInto.
  destruct (negb (String.eqb (extension srcFile) "md")).
  { destruct (mergeEdges view); reflexivity. }
  destruct (getFileCache this srcFile) as [cache|].
  2: { destruct (mergeEdges view); reflexivity. }
  cbv zeta. rewrite createEdges_groups. destruct (mergeEdges view).
  - rewrite byTarget_values, mergeGroups_spec. reflexivity.
  - unfold Dict.values, byTarget. rewrite map_map. reflexivity.
Qed.

Lemma targetsOf_In (this : ObsidianStore) (srcFile : TFile) (refs : list Reference)
      (t : string) :
  In t (targetsOf this srcFile refs)
  <-> exists ref, In ref refs /\ targetOf this srcFile ref = t.
Proof.
  unfold targetsOf. rewrite mentioned_In, in_map_iff. simpl. split.
  - intros [[] | [ref [E H]]]. exists ref. auto.
  - intros [ref [H E]]. right. exists ref. auto.
Qed.

Lemma linksInto_In (this : ObsidianStore) (srcFile : TFile) (toNodes : Collection)
      (ref : Reference) :
  In ref (linksInto this srcFile toNodes) -> In (targetOf this srcFile ref) toNodes.
Proof.
  unfold linksInto.
  destruct (negb (String.eqb (extension srcFile) "md")); [contradiction|].
  destruct (getFileCache this srcFile) as [cache|]; [|contradiction].
  unfold accepted. rewrite filter_In. intros [_ H]. now apply mem_In.
Qed.

(* ------------------------------------------------------------------ *)
(** *** No target, no edge *)

(** X1.  When none of the links of the document resolves into [toNodes] (in
    particular when [toNodes] is empty), [createEdges] answers no edge, with
    or without merging. *)
Theorem createEdges_without_targets :
  forall (this : ObsidianStore) (srcFile : TFile) (srcId : string)
         (toNodes : Collection) (view : Juggl Pos),
    (forall cache ref,
        getFileCache this srcFile = Some cache ->
        In ref (iterLinks cache) ->
        ~ In (targetOf this srcFile ref) toNodes) ->
    createEdges api this srcFile srcId toNodes view = [].
Proof.
  intros this srcFile srcId toNodes view Hnone.
  assert (Hlinks : linksInto this srcFile toNodes = []).
  { unfold linksInto.
    destruct (negb (String.eqb (extension srcFile) "md")); [reflexivity|].
    destruct (getFileCache this srcFile) as [cache|] eqn:Ecache; [|reflexivity].
    apply filter_none. intros ref Hin. apply mem_false. now apply (Hnone cache). }
  rewrite createEdges_by_groups. unfold edgeGroups. rewrite Hlinks.
  destruct (mergeEdges view); reflexivity.
Qed.

(* ------------------------------------------------------------------ *)
(** *** Counting edges *)

Lemma list_sum_zero {A} (l : list A) : list_sum (map (fun _ => 0) l) = 0.
Proof. induction l as [|x l IH]; simpl; [reflexivity | exact IH]. Qed.

Lemma list_sum_plus {A} (a b : A -> nat) (l : list A) :
  list_sum (map (fun x => a x + b x) l) = list_sum (map a l) + list_sum (map b l).
Proof. induction l as [|x l IH]; simpl; [reflexivity | rewrite IH; lia]. Qed.

Lemma list_sum_indicator (ts : list string) (x : string) :
  NoDup ts -> In x ts ->
  list_sum (map (fun t => if String.eqb x t then 1 else 0) ts) = 1.
Proof.
  induction ts as [|t ts IH]; intros Hnd Hin; [contradiction|].
  apply NoDup_cons_iff in Hnd. destruct Hnd as [Ht Hnd]. simpl.
  destruct (String.eqb x t) eqn:E.
  - apply String.eqb_eq in E. subst t.
    replace (list_sum (map (fun t => if String.eqb x t then 1 else 0) ts)) with 0;
      [reflexivity|].
    symmetry. erewrite map_ext_in; [apply list_sum_zero|].
    intros t Hin'. simpl. destruct (String.eqb x t) eqn:E'; [|reflexivity].
    apply String.eqb_eq in E'. subst. contradiction.
  - destruct Hin as [-> | Hin]; [rewrite String.eqb_refl in E; discriminate|].
    now apply IH.
Qed.

(** Every reference belongs to the group of exactly one target. *)
Lemma groups_partition (this : ObsidianStore) (srcFile : TFile) (ts : list string)
      (refs : list Reference) :
  NoDup ts ->
  (forall ref, In ref refs -> In (targetOf this srcFile ref) ts) ->
  list_sum (map (fun t => List.length
                            (filter (fun ref => String.eqb (targetOf this srcFile ref) t) refs))
                ts)
  = List.length refs.
Proof.
  intros Hnd. induction refs as [|r refs IH]; intros Hall.
  - simpl. apply list_sum_zero.
  - erewrite map_ext with
      (g := fun t => (if String.eqb (targetOf this srcFile r) t then 1 else 0)
                     + List.length
                         (filter (fun ref => String.eqb (targetOf this srcFile ref) t) refs)).
    + rewrite list_sum_plus.
      rewrite IH by (intros ref Hin; apply Hall; now right).
      rewrite list_sum_indicator by (auto; apply Hall; now left).
      reflexivity.
    + intros t. simpl. destruct (String.eqb (targetOf this srcFile r) t); reflexivity.
Qed.

(** X2.  Without merging, [createEdges] answers exactly one edge for each
    link of the document that resolves into [toNodes]. *)
Theorem createEdges_one_edge_per_link :
  forall (this : ObsidianStore) (srcFile : TFile) (srcId : string)
         (toNodes : Collection) (ready : bool) (g : option (Graph Pos))
         (evs : list Event),
    List.length (createEdges api this srcFile srcId toNodes (mkJuggl ready g false evs))
    = List.length (linksInto this srcFile toNodes).
Proof.
  intros this srcFile srcId toNodes ready g evs.
  rewrite createEdges_by_groups. simpl.
  unfold edgeGroups. rewrite length_concat, map_map.
  erewrite map_ext.
  - apply groups_partition.
    + apply mentioned_NoDup. constructor.
    + intros ref Hin. apply targetsOf_In. exists ref. auto.
  - intros t. unfold groupOf. now rewrite buildFrom_length.
Qed.

(* ------------------------------------------------------------------ *)
(** *** What merging changes and what it does not *)

Lemma filter_twice {A} (f : A -> bool) (l : list A) : filter f (filter f l) = filter f l.
Proof.
  induction l as [|x l IH]; simpl; [reflexivity|].
  destruct (f x) eqn:E; simpl; [rewrite E, IH; reflexivity | exact IH].
Qed.

Lemma filter_opposite {A} (f : A -> bool) (l : list A) :
  filter f (filter (fun x => negb (f x)) l) = [].
Proof.
  apply filter_none. intros x Hx. apply filter_In in Hx.
  destruct Hx as [_ Hx]. now apply negb_true_iff in Hx.
Qed.

Lemma filter_head {A} (f : A -> bool) (l : list A) (x : A) (xs : list A) :
  filter f l = x :: xs -> f x = true.
Proof.
  intros E. assert (H : In x (filter f l)) by (rewrite E; now left).
  apply filter_In in H. tauto.
Qed.

Lemma mergedInline_isInline (e : EdgeDefinition) (es : list EdgeDefinition) :
  isInline (mergedInline e es) = isInline e.
Proof. reflexivity. Qed.

(** The edges of a merged group that are not inline, and those that are. *)
Lemma mergedGroup_others (group : list EdgeDefinition) :
  filter (fun e => negb (isInline e)) (mergedGroup group)
  = filter (fun e => negb (isInline e)) group.
Proof.
  unfold mergedGroup. rewrite filter_app, filter_twice.
  destruct (filter isInline group) as [|e es] eqn:E; simpl.
  - now rewrite app_nil_r.
  - rewrite mergedInline_isInline, (filter_head _ _ E). simpl. now rewrite app_nil_r.
Qed.

Lemma mergedGroup_inline (group : list EdgeDefinition) :
  filter isInline (mergedGroup group)
  = match filter isInline group with
    | [] => []
    | e :: es => [mergedInline e es]
    end.
Proof.
  unfold mergedGroup. rewrite filter_app.
  rewrite (filter_opposite isInline group).
  destruct (filter isInline group) as [|e es] eqn:E; simpl; [reflexivity|].
  now rewrite mergedInline_isInline, (filter_head _ _ E).
Qed.

(** X3.  Merging leaves the edges that are not inline as they are: with and
    without merging, [createEdges] answers the same non-inline edges, in the
    same order. *)
Theorem merging_keeps_other_edges :
  forall (this : ObsidianStore) (srcFile : TFile) (srcId : string)
         (toNodes : Collection) (ready : bool) (g : option (Graph Pos))
         (evs : list Event),
    filter (fun e => negb (isInline e))
           (createEdges api this srcFile srcId toNodes (mkJuggl ready g true evs))
    = filter (fun e => negb (isInline e))
             (createEdges api this srcFile srcId toNodes (mkJuggl ready g false evs)).
Proof.
  intros this srcFile srcId toNodes ready g evs.
  rewrite !createEdges_by_groups. simpl.
  induction (edgeGroups this srcFile srcId toNodes) as [|group groups IH]; simpl.
  - reflexivity.
  - rewrite !filter_app, IH, mergedGroup_others. reflexivity.
Qed.

(** X4.  Merging accounts for every inline edge: the [edgeCount]s of the
    inline edges answered with merging add up to the number of inline edges
    answered without it, and merging never answers more edges. *)
Theorem merging_accounts_for_inline_edges :
  forall (this : ObsidianStore) (srcFile : TFile) (srcId : string)
         (toNodes : Collection) (ready : bool) (g : option (Graph Pos))
         (evs : list Event),
    let mergedEdges :=
      createEdges api this srcFile srcId toNodes (mkJuggl ready g true evs) in
    let plainEdges :=
      createEdges api this srcFile srcId toNodes (mkJuggl ready g false evs) in
    list_sum (map (fun e => d_edgeCount (e_data e)) (filter isInline mergedEdges))
    = List.length (filter isInline plainEdges)
    /\ List.length mergedEdges <= List.length plainEdges.
Proof.
  intros this srcFile srcId toNodes ready g evs mergedEdges plainEdges.
  unfold mergedEdges, plainEdges. rewrite !createEdges_by_groups. simpl.
  induction (edgeGroups this srcFile srcId toNodes) as [|group groups [IH1 IH2]]; simpl.
  - auto.
  - rewrite !filter_app, map_app, list_sum_app, !length_app, IH1. split.
    + f_equal. rewrite mergedGroup_inline.
      destruct (filter isInline group) as [|e es]; simpl; lia.
    + assert (Hgroup : List.length (mergedGroup group) <= List.length group).
      { unfold mergedGroup. rewrite length_app.
        pose proof (filter_length isInline group) as Hsplit.
        destruct (filter isInline group) as [|e es]; simpl in *; lia. }
      lia.
Qed.

(* ------------------------------------------------------------------ *)
(** *** The id scheme *)

Lemma to_uint_not_nil (n : nat) : Nat.to_uint n <> Decimal.Nil.
Proof.
  intros H. assert (E : n = 0).
  { rewrite <- (Unsigned.of_to n), H. reflexivity. }
  subst n. discriminate H.
Qed.

Lemma ofNat_inj (n n' : nat) : JS.ofNat n = JS.ofNat n' -> n = n'.
Proof.
  unfold JS.ofNat. intros H. apply Unsigned.to_uint_inj.
  assert (E : Some (Nat.to_uint n) = Some (Nat.to_uint n')).
  { rewrite <- (NilZero.usu _ (to_uint_not_nil n)), <- (NilZero.usu _ (to_uint_not_nil n')).
    now rewrite H. }
  now injection E.
Qed.

Lemma append_length (a b : string) : String.length (a ^^ b) = String.length a + String.length b.
Proof. induction a as [|x a IH]; simpl; [reflexivity | now rewrite IH]. Qed.

Lemma append_inj_r (a b c : string) : a ^^ c = b ^^ c -> a = b.
Proof.
  revert b. induction a as [|x a IH]; intros b H; destruct b as [|y b]; simpl in H.
  - reflexivity.
  - exfalso. apply (f_equal String.length) in H. simpl in H.
    rewrite append_length in H. lia.
  - exfalso. apply (f_equal String.length) in H. simpl in H.
    rewrite append_length in H. lia.
  - injection H as -> H. f_equal. now apply IH.
Qed.

(** X5.  The ids given to the edges of one (source, target) pair are pairwise
    distinct, one per occurrence index; and at one occurrence index, two
    targets get different ids. *)
Theorem edge_ids_tell_occurrences_apart :
  forall (srcId : string),
    (forall (otherId : string) (count count' : nat),
        edgeIdOf srcId otherId count = edgeIdOf srcId otherId count' -> count = count')
    /\ (forall (otherId otherId' : string) (count : nat),
           edgeIdOf srcId otherId count = edgeIdOf srcId otherId' count ->
           otherId = otherId').
Proof.
  intros srcId. split.
  - intros otherId count count' H. unfold edgeIdOf in H.
    apply append_inj_l in H. now apply ofNat_inj.
  - intros otherId otherId' count H. unfold edgeIdOf in H.
    apply append_inj_r in H. now apply (edgeKey_inj srcId).
Qed.

(* ------------------------------------------------------------------ *)
(** *** What every answered edge satisfies *)

Lemma buildFrom_Forall (Q : EdgeDefinition -> Prop) (this : ObsidianStore)
      (content : list string) (srcId t : string) (refs : list Reference) :
  (forall k ref, Q (makeEdge api this content (edgeIdOf srcId t k) srcId t ref)) ->
  forall k, Forall Q (buildFrom this content srcId t k refs).
Proof.
  intros HQ. induction refs as [|r refs IH]; intros k; simpl; constructor; auto.
Qed.

Lemma mergedGroup_Forall (Q : EdgeDefinition -> Prop) (group : list EdgeDefinition) :
  (forall e es, Q e -> Q (mergedInline e es)) ->
  Forall Q group -> Forall Q (mergedGroup group).
Proof.
  intros Hmerge HQ. rewrite Forall_forall in HQ. unfold mergedGroup.
  apply Forall_app. split.
  - apply Forall_forall. intros e He. apply filter_In in He. now apply HQ.
  - destruct (filter isInline group) as [|e es] eqn:E; constructor; [|constructor].
    apply Hmerge. apply HQ.
    assert (He : In e (filter isInline group)) by (rewrite E; now left).
    apply filter_In in He. tauto.
Qed.

(** A property of every built descriptor that merging keeps holds of every
    edge [createEdges] answers. *)
Lemma createEdges_Forall (Q : EdgeDefinition -> Prop) (this : ObsidianStore)
      (srcFile : TFile) (srcId : string) (toNodes : Collection) (view : Juggl Pos) :
  (forall t k ref,
      In t toNodes ->
      Q (makeEdge api this (JS.split newline (cachedRead this srcFile))
                  (edgeIdOf srcId t k) srcId t ref)) ->
  (forall e es, Q e -> Q (mergedInline e es)) ->
  Forall Q (createEdges api this srcFile srcId toNodes view).
Proof.
  intros Hbuilt Hmerge. rewrite createEdges_by_groups.
  assert (Hgroups : Forall (Forall Q) (edgeGroups this srcFile srcId toNodes)).
  { unfold edgeGroups. apply Forall_forall. intros group Hin.
    apply in_map_iff in Hin. destruct Hin as [t [<- Ht]].
    apply targetsOf_In in Ht. destruct Ht as [ref [Href <-]].
    apply buildFrom_Forall. intros k ref'. apply Hbuilt. now apply linksInto_In. }
  destruct (mergeEdges view).
  - apply Forall_flat_map. eapply Forall_impl; [|exact Hgroups].
    intros group. now apply mergedGroup_Forall.
  - now apply Forall_concat.
Qed.

(** X6.  No edge answered by [createEdges] shows an underscore in its type
    label, whatever the reference parser and the front matter gave. *)
Theorem edge_type_labels_have_no_underscore :
  forall (this : ObsidianStore) (srcFile : TFile) (srcId : string)
         (toNodes : Collection) (view : Juggl Pos) (edge : EdgeDefinition)
         (label : string),
    In edge (createEdges api this srcFile srcId toNodes view) ->
    d_type (e_data edge) = Some label ->
    JS.occurs underscore label = 0.
Proof.
  intros this srcFile srcId toNodes view edge label Hin.
  revert label.
  pose proof (@createEdges_Forall
                (fun e => forall label, d_type (e_data e) = Some label ->
                                        JS.occurs underscore label = 0)
                this srcFile srcId toNodes view) as H.
  rewrite Forall_forall in H. apply H; [| |exact Hin].
  - intros t k ref _ label. destruct ref as [r|l]; simpl.
    + destruct (d_type (e_data (api_parseRefCache api r _ _ _ _ _))) as [ty|] eqn:Ety.
      * destruct (String.eqb ty "") eqn:Eempty.
        -- rewrite Ety. intros E. injection E as <-.
           apply String.eqb_eq in Eempty. now subst ty.
        -- simpl. intros E. injection E as <-.
           apply replaceAll_clears. discriminate.
      * rewrite Ety. discriminate.
    + intros E. injection E as <-. apply replaceAll_clears. discriminate.
  - intros e es He label. simpl. apply He.
Qed.

(** X7.  With a reference parser that hands back the endpoints it is given,
    every edge answered by [createEdges] leaves from [srcId] and arrives at
    one of [toNodes]. *)
Theorem edges_run_from_source_into_targets :
  forall (this : ObsidianStore) (srcFile : TFile) (srcId : string)
         (toNodes : Collection) (view : Juggl Pos) (edge : EdgeDefinition),
    parserKeepsEndpoints api ->
    In edge (createEdges api this srcFile srcId toNodes view) ->
    d_source (e_data edge) = srcId /\ In (d_target (e_data edge)) toNodes.
Proof.
  intros this srcFile srcId toNodes view edge Hparser Hin.
  pose proof (@createEdges_Forall
                (fun e => d_source (e_data e) = srcId /\ In (d_target (e_data e)) toNodes)
                this srcFile srcId toNodes view) as H.
  rewrite Forall_forall in H. apply H; [| |exact Hin].
  - intros t k ref Ht. destruct ref as [r|l]; simpl.
    + destruct (Hparser r (JS.split newline (cachedRead this srcFile))
                        (edgeIdOf srcId t k) srcId t (typedLinkPrefix this)) as [Hs Htgt].
      destruct (d_type (e_data (api_parseRefCache api r _ _ _ _ _))) as [ty|].
      * destruct (String.eqb ty ""); simpl; rewrite ?Hs, ?Htgt; auto.
      * rewrite Hs, Htgt. auto.
    + auto.
  - intros e es He. exact He.
Qed.

(** X8.  The display transform keeps the length of a label and is
    idempotent: a label already shown with spaces is left as it is. *)
Theorem transformEdgeLabel_idempotent :
  forall (label : string),
    transformEdgeLabel (transformEdgeLabel label) = transformEdgeLabel label
    /\ String.length (transformEdgeLabel label) = String.length label.
Proof.
  intros label. unfold transformEdgeLabel. split.
  - induction label as [|c label IH]; simpl; [reflexivity|].
    rewrite IH. destruct (Ascii.eqb c underscore) eqn:E; [reflexivity|].
    now rewrite E.
  - induction label as [|c label IH]; simpl; [reflexivity | now rewrite IH].
Qed.

(* ================================================================== *)
(** ** Further properties of [connectNodes] *)
(* ================================================================== *)

Lemma makeEdge_endpoints (this : ObsidianStore) (content : list string)
      (id srcId otherId : string) (ref : Reference) :
  parserKeepsEndpoints api ->
  d_source (e_data (makeEdge api this content id srcId otherId ref)) = srcId
  /\ d_target (e_data (makeEdge api this content id srcId otherId ref)) = otherId.
Proof.
  intros Hparser. destruct ref as [r|l]; simpl; [|auto].
  destruct (Hparser r content id srcId otherId (typedLinkPrefix this)) as [Hs Ht].
  destruct (d_type (e_data (api_parseRefCache api r _ _ _ _ _))) as [ty|]; [|auto].
  destruct (String.eqb ty ""); simpl; auto.
Qed.

Lemma createEdges_endpoints (this : ObsidianStore) (srcFile : TFile) (srcId : string)
      (toNodes : Collection) (view : Juggl Pos) (edge : EdgeDefinition) :
  parserKeepsEndpoints api ->
  In edge (createEdges api this srcFile srcId toNodes view) ->
  d_source (e_data edge) = srcId /\ In (d_target (e_data edge)) toNodes.
Proof.
  intros Hparser Hin.
  pose proof (@createEdges_Forall
                (fun e => d_source (e_data e) = srcId /\ In (d_target (e_data e)) toNodes)
                this srcFile srcId toNodes view) as H.
  rewrite Forall_forall in H. apply H; [| |exact Hin].
  - intros t k ref Ht.
    destruct (@makeEdge_endpoints this (JS.split newline (cachedRead this srcFile))
                (edgeIdOf srcId t k) srcId t ref Hparser) as [-> ->]. auto.
  - intros e es He. exact He.
Qed.

Lemma createEdges_no_targets (this : ObsidianStore) (srcFile : TFile) (srcId : string)
      (view : Juggl Pos) :
  createEdges api this srcFile srcId [] view = [].
Proof.
  pose proof (@createEdges_Forall (fun _ => False) this srcFile srcId [] view) as H.
  destruct (createEdges api this srcFile srcId [] view) as [|e es]; [reflexivity|].
  exfalso. assert (HF : Forall (fun _ : EdgeDefinition => False) (e :: es)).
  { apply H; [intros t k ref [] | auto]. }
  inversion HF. assumption.
Qed.

Lemma edgesOfNode_endpoints (this : ObsidianStore) (g : Graph Pos) (view : Juggl Pos)
      (toNodes : Collection) (i : string) (edge : EdgeDefinition) :
  parserKeepsEndpoints api ->
  viz view = Some g ->
  (forall el, findEl g i = Some el -> api_toId api (api_fromNode api el) = i) ->
  In edge (edgesOfNode api this view toNodes i) ->
  d_source (e_data edge) = i /\ In (d_target (e_data edge)) toNodes.
Proof.
  intros Hparser Hviz Hround. unfold edgesOfNode, nodeOf. rewrite Hviz.
  destruct (findEl g i) as [el|] eqn:Efind; [|contradiction].
  destruct (String.eqb _ _); [|contradiction].
  destruct (getFile this _) as [file|]; [|contradiction].
  intros Hin. apply createEdges_endpoints in Hin; [|exact Hparser].
  rewrite (Hround el eq_refl) in Hin. exact Hin.
Qed.

(** X9.  On a view whose shown nodes carry the id their [VizId] writes, and
    with a reference parser that hands back the endpoints it is given, every
    edge answered by [connectNodes] runs between two of [allNodes] and has a
    new node at one end at least. *)
Theorem connectNodes_edges_touch_new_nodes :
  forall (this : ObsidianStore) (allNodes newNodes : Collection)
         (g : Graph Pos) (view : Juggl Pos) (edge : EdgeDefinition),
    parserKeepsEndpoints api ->
    viz view = Some g ->
    (forall i el, In i allNodes -> findEl g i = Some el ->
                  api_toId api (api_fromNode api el) = i) ->
    (forall i, In i newNodes -> In i allNodes) ->
    In edge (connectNodes api this allNodes newNodes view) ->
    In (d_source (e_data edge)) allNodes
    /\ In (d_target (e_data edge)) allNodes
    /\ (In (d_source (e_data edge)) newNodes \/ In (d_target (e_data edge)) newNodes).
Proof.
  intros this allNodes newNodes g view edge Hparser Hviz Hround Hsub Hin.
  unfold connectNodes in Hin. rewrite !fold_push_flat_map in Hin. simpl in Hin.
  apply in_app_or in Hin. destruct Hin as [Hin | Hin];
    apply in_flat_map in Hin; destruct Hin as [i [Hi Hin]].
  - apply (@edgesOfNode_endpoints this g) in Hin; auto.
    destruct Hin as [-> Ht]. auto.
  - apply difference_In in Hi. destruct Hi as [Hi _].
    apply (@edgesOfNode_endpoints this g) in Hin; auto.
    destruct Hin as [-> Ht]. auto.
Qed.

(** X10.  The two boundary cases of [connectNodes]: with no new node it
    answers no edge, whatever the documents link to; when every node is new,
    the second pass has no source left and the answer is that of the first
    pass alone. *)
Theorem connectNodes_boundary_cases :
  forall (this : ObsidianStore) (allNodes : Collection) (view : Juggl Pos),
    connectNodes api this allNodes [] view = []
    /\ connectNodes api this allNodes allNodes view
       = flat_map (edgesOfNode api this view allNodes) allNodes.
Proof.
  intros this allNodes view. unfold connectNodes.
  rewrite !fold_push_flat_map. simpl. split.
  - induction (difference allNodes []) as [|i rest IH]; simpl; [reflexivity|].
    rewrite IH, app_nil_r. unfold edgesOfNode.
    destruct (nodeOf view i); [|reflexivity].
    destruct (String.eqb _ _); [|reflexivity].
    destruct (getFile this _); [|reflexivity].
    apply createEdges_no_targets.
  - assert (E : difference allNodes allNodes = []).
    { apply filter_none. intros i Hi. apply mem_In in Hi. now rewrite Hi. }
    rewrite E. simpl. now rewrite app_nil_r.
Qed.

(* ================================================================== *)
(** ** Further properties of [getNeighbourhood] and [get] *)
(* ================================================================== *)

Lemma set_absent {V} (k : string) (v : V) (d : Dict.t V) :
  Dict.has k d = false -> Dict.set k v d = d ++ [(k, v)].
Proof.
  unfold Dict.has. induction d as [|[k' v'] d IH]; simpl; [reflexivity|].
  destruct (String.eqb k k'); [discriminate|]. intros H. now rewrite IH.
Qed.

Lemma has_app {V} (k : string) (d e : Dict.t V) :
  Dict.has k (d ++ e) = Dict.has k d || Dict.has k e.
Proof. rewrite !has_keys. unfold Dict.keys. rewrite map_app. apply mem_app. Qed.

Lemma has_grows {V} (k : string) (d e : Dict.t V) :
  Dict.has k d = true -> Dict.has k (d ++ e) = true.
Proof. intros H. now rewrite has_app, H. Qed.

Lemma has_set {V} (k k' : string) (v : V) (d : Dict.t V) :
  Dict.has k (Dict.set k' v d) = String.eqb k k' || Dict.has k d.
Proof.
  rewrite !has_keys, set_keys. destruct (Dict.has k' d) eqn:E.
  - destruct (String.eqb k k') eqn:Ek; [|reflexivity].
    apply String.eqb_eq in Ek. subst k'. now rewrite <- has_keys, E.
  - rewrite mem_app. simpl. rewrite orb_false_r. apply orb_comm.
Qed.

Lemma has_In {V} (k : string) (d : Dict.t V) : Dict.has k d = true <-> In k (Dict.keys d).
Proof. rewrite has_keys. apply mem_In. Qed.

Lemma get_keys {V} (k : string) (v : V) (d : Dict.t V) :
  Dict.get k d = Some v -> In k (Dict.keys d).
Proof. intros H. apply has_In. unfold Dict.has. now rewrite H. Qed.

Lemma backlinks_Throw (this : ObsidianStore) (p : string) (paths : list string) :
  fold_left (backlinkStep api this p) paths Throw = Throw.
Proof. induction paths as [|q paths IH]; simpl; [reflexivity | exact IH]. Qed.

Lemma backlinkStep_grows (this : ObsidianStore) (p : string) (acc : Nodes) (q : string) :
  backlinkStep api this p (Ret acc) q = Throw
  \/ exists extra, backlinkStep api this p (Ret acc) q = Ret (acc ++ extra).
Proof.
  simpl. destruct (mem p _); [|right; exists []; now rewrite app_nil_r].
  destruct (getAbstractFileByPath this q); [|now left].
  right. destruct (Dict.has _ acc) eqn:E.
  - exists []. now rewrite app_nil_r.
  - eexists. now rewrite set_absent by exact E.
Qed.

Lemma backlinks_grow (this : ObsidianStore) (p : string) (paths : list string) :
  forall acc nodes',
    fold_left (backlinkStep api this p) paths (Ret acc) = Ret nodes' ->
    exists extra, nodes' = acc ++ extra.
Proof.
  induction paths as [|q paths IH]; intros acc nodes' H; cbn [fold_left] in H.
  - injection H as <-. exists []. now rewrite app_nil_r.
  - destruct (backlinkStep_grows this p acc q) as [E | [extra E]]; rewrite E in H.
    + rewrite backlinks_Throw in H. discriminate.
    + apply IH in H. destruct H as [extra' ->]. exists (extra ++ extra').
      now rewrite app_assoc.
Qed.

Lemma settleStep_grows (promiseNodes nodes : Nodes) (k : string) :
  exists extra, settleStep promiseNodes nodes k = nodes ++ extra.
Proof.
  unfold settleStep. destruct (Dict.has k nodes) eqn:E.
  - exists []. now rewrite app_nil_r.
  - destruct (Dict.get k promiseNodes) as [n|].
    + eexists. now rewrite set_absent by exact E.
    + exists []. now rewrite app_nil_r.
Qed.

Lemma settle_grows (promiseNodes : Nodes) (ks : list string) :
  forall nodes, exists extra, fold_left (settleStep promiseNodes) ks nodes = nodes ++ extra.
Proof.
  induction ks as [|k ks IH]; intros nodes; simpl.
  - exists []. now rewrite app_nil_r.
  - destruct (settleStep_grows promiseNodes nodes k) as [extra ->].
    destruct (IH (nodes ++ extra)) as [extra' ->].
    exists (extra ++ extra'). now rewrite app_assoc.
Qed.

Lemma step_grows (this : ObsidianStore) (nodes nodes' : Nodes) (nodeId : VizId) :
  neighbourhoodStep api this nodes nodeId = Ret nodes' ->
  exists extra, nodes' = nodes ++ extra.
Proof.
  unfold neighbourhoodStep.
  assert (Hsame : forall n, Ret nodes = Ret n -> exists extra, n = nodes ++ extra).
  { intros n E. injection E as <-. exists []. now rewrite app_nil_r. }
  destruct (String.eqb (storeId nodeId) ObsidianStore_storeId); [|apply Hsame].
  destruct (getFile this nodeId) as [file|] eqn:Efile; [|apply Hsame].
  destruct (getFileCache this file) as [cache|]; [|apply Hsame].
  cbv zeta.
  match goal with
  | |- context [fold_left (settleStep ?pn) ?ks ?n1] =>
      destruct (settle_grows pn ks n1) as [extra2 E2]; rewrite E2;
      assert (E1 : exists extra1, n1 = nodes ++ extra1)
  end.
  { destruct (Dict.has _ nodes) eqn:E.
    - exists []. now rewrite app_nil_r.
    - eexists. now rewrite set_absent by exact E. }
  destruct E1 as [extra1 E1]. rewrite E1. clear E1 E2.
  unfold fillWithBacklinks. rewrite Efile.
  destruct (String.eqb (storeId nodeId) "core").
  - intros H. apply backlinks_grow in H. destruct H as [extra3 ->].
    exists (extra1 ++ extra2 ++ extra3). now rewrite !app_assoc.
  - intros H. injection H as <-. exists (extra1 ++ extra2). now rewrite app_assoc.
Qed.

Lemma neighbourhood_Throw (this : ObsidianStore) (nodeIds : list VizId) :
  fold_left (fun acc nodeId => obind acc (fun nodes => neighbourhoodStep api this nodes nodeId))
            nodeIds Throw = Throw.
Proof. induction nodeIds as [|i nodeIds IH]; simpl; [reflexivity | exact IH]. Qed.

Lemma neighbourhood_grows (this : ObsidianStore) (nodeIds : list VizId) :
  forall acc nodes',
    fold_left (fun acc nodeId => obind acc (fun nodes => neighbourhoodStep api this nodes nodeId))
              nodeIds (Ret acc) = Ret nodes' ->
    exists extra, nodes' = acc ++ extra.
Proof.
  induction nodeIds as [|i nodeIds IH]; intros acc nodes' H; cbn [fold_left obind] in H.
  - injection H as <-. exists []. now rewrite app_nil_r.
  - destruct (neighbourhoodStep api this acc i) as [nodes1|] eqn:E.
    + apply step_grows in E. destruct E as [extra ->].
      apply IH in H. destruct H as [extra' ->]. exists (extra ++ extra').
      now rewrite app_assoc.
    + rewrite neighbourhood_Throw in H. discriminate.
Qed.

(** X11.  Asking [getNeighbourhood] for further ids only appends
    descriptors: the answer for [nodeIds] is a prefix of the answer for
    [nodeIds ++ more].  No descriptor is replaced, dropped or moved by the
    later ids. *)
Theorem neighbourhood_answer_is_prefix :
  forall (this : ObsidianStore) (nodeIds more : list VizId)
         (answer answer' : list NodeDefinition),
    getNeighbourhood api this nodeIds = Ret answer ->
    getNeighbourhood api this (nodeIds ++ more) = Ret answer' ->
    exists extra, answer' = answer ++ extra.
Proof.
  intros this nodeIds more answer answer'.
  unfold getNeighbourhood, neighbourhoodNodes. rewrite fold_left_app.
  match goal with
  | |- context [fold_left ?f nodeIds ?a] =>
      destruct (fold_left f nodeIds a) as [nodes|]; simpl
  end.
  - intros H1 H2. injection H1 as <-.
    match type of H2 with
    | context [fold_left ?f more ?a] =>
        destruct (fold_left f more a) as [nodes'|] eqn:E; simpl in H2; [|discriminate]
    end.
    injection H2 as <-. apply neighbourhood_grows in E. destruct E as [extra ->].
    exists (Dict.values extra). unfold Dict.values. now rewrite map_app.
  - discriminate.
Qed.

(* ------------------------------------------------------------------ *)
(** *** What the neighbourhood holds *)

Lemma promise_has_kept (this : ObsidianStore) (file : TFile) (nodes1 : Nodes)
      (refs : list Reference) (k : string) :
  forall pn, Dict.has k pn = true ->
             Dict.has k (fold_left (promiseStep api this file nodes1) refs pn) = true.
Proof.
  induction refs as [|r refs IH]; intros pn H; simpl; [exact H|].
  apply IH. unfold promiseStep. destruct (Dict.has _ nodes1); [exact H|].
  now rewrite has_set, H, orb_true_r.
Qed.

Lemma promise_has (this : ObsidianStore) (file : TFile) (nodes1 : Nodes)
      (refs : list Reference) (ref : Reference) :
  In ref refs ->
  forall pn,
    Dict.has (targetOf this file ref) nodes1 = true
    \/ Dict.has (targetOf this file ref)
                (fold_left (promiseStep api this file nodes1) refs pn) = true.
Proof.
  induction refs as [|r refs IH]; intros Hin pn; [contradiction|].
  destruct Hin as [-> | Hin]; [|simpl; now apply IH].
  simpl. destruct (Dict.has (targetOf this file ref) nodes1) eqn:E; [now left|].
  right. apply promise_has_kept. unfold promiseStep.
  change (api_toId api (getOtherId api this ref (path file))) with (targetOf this file ref).
  rewrite E, has_set, String.eqb_refl. reflexivity.
Qed.

Lemma settle_has_kept (promiseNodes : Nodes) (ks : list string) (nodes : Nodes) (k : string) :
  Dict.has k nodes = true ->
  Dict.has k (fold_left (settleStep promiseNodes) ks nodes) = true.
Proof.
  intros H. destruct (settle_grows promiseNodes ks nodes) as [extra ->].
  now apply has_grows.
Qed.

Lemma settle_has (promiseNodes : Nodes) (ks : list string) (k : string) :
  In k ks -> Dict.has k promiseNodes = true ->
  forall nodes, Dict.has k (fold_left (settleStep promiseNodes) ks nodes) = true.
Proof.
  intros Hin Hpn. induction ks as [|k' ks IH]; intros nodes; [contradiction|].
  destruct Hin as [-> | Hin]; [|simpl; now apply IH].
  simpl. apply settle_has_kept. unfold settleStep.
  destruct (Dict.has k nodes) eqn:E; [exact E|].
  unfold Dict.has in Hpn. destruct (Dict.get k promiseNodes) as [n|]; [|discriminate].
  now rewrite has_set, String.eqb_refl.
Qed.

Lemma backlinks_has (this : ObsidianStore) (p : string) (paths : list string)
      (q : string) (targets : list string) (other : TFile) :
  In q paths ->
  Dict.get q (resolvedLinks this) = Some targets ->
  In p targets ->
  getAbstractFileByPath this q = Some other ->
  forall acc nodes',
    fold_left (backlinkStep api this p) paths (Ret acc) = Ret nodes' ->
    Dict.has (api_toId api (api_fromFile api other)) nodes' = true.
Proof.
  intros Hin Hget Hp Hfile.
  induction paths as [|q' paths IH]; intros acc nodes' H; [contradiction|].
  cbn [fold_left] in H. destruct Hin as [-> | Hin].
  - assert (E : exists r, backlinkStep api this p (Ret acc) q = Ret r
                          /\ Dict.has (api_toId api (api_fromFile api other)) r = true).
    { simpl. rewrite Hget. apply mem_In in Hp. rewrite Hp, Hfile.
      destruct (Dict.has _ acc) eqn:E; eexists; split; try reflexivity; [exact E|].
      now rewrite has_set, String.eqb_refl. }
    destruct E as [r [E Hr]]. rewrite E in H.
    apply backlinks_grow in H. destruct H as [extra ->]. now apply has_grows.
  - destruct (backlinkStep_grows this p acc q') as [E | [extra E]]; rewrite E in H.
    + rewrite backlinks_Throw in H. discriminate.
    + now apply IH in H.
Qed.

Lemma step_holds (this : ObsidianStore) (nodes nodes' : Nodes) (nodeId : VizId)
      (file : TFile) (cache : CachedMetadata) :
  storeId nodeId = CORE ->
  getFile this nodeId = Some file ->
  getFileCache this file = Some cache ->
  neighbourhoodStep api this nodes nodeId = Ret nodes' ->
  Dict.has (api_toId api nodeId) nodes' = true
  /\ (forall ref, In ref (iterLinks cache) ->
                  Dict.has (targetOf this file ref) nodes' = true)
  /\ (forall q targets other,
         Dict.get q (resolvedLinks this) = Some targets ->
         In (path file) targets ->
         getAbstractFileByPath this q = Some other ->
         Dict.has (api_toId api (api_fromFile api other)) nodes' = true).
Proof.
  intros Hstore Hfile Hcache. unfold neighbourhoodStep, fillWithBacklinks.
  rewrite Hstore, Hfile, Hcache. cbv zeta. simpl String.eqb. cbv iota.
  set (nodes1 := if Dict.has (api_toId api nodeId) nodes then nodes
                 else Dict.set (api_toId api nodeId) (api_nodeFromFile api file) nodes).
  set (pn := fold_left (promiseStep api this file nodes1) (iterLinks cache) []).
  set (nodes2 := fold_left (settleStep pn) (Dict.keys pn) nodes1).
  intros H.
  assert (H1 : Dict.has (api_toId api nodeId) nodes1 = true).
  { subst nodes1. destruct (Dict.has _ nodes) eqn:E; [exact E|].
    now rewrite has_set, String.eqb_refl. }
  pose proof (backlinks_grow _ _ _ _ H) as [extra3 E3].
  split; [|split].
  - rewrite E3. apply has_grows. subst nodes2. now apply settle_has_kept.
  - intros ref Hin. rewrite E3. apply has_grows. subst nodes2.
    destruct (@promise_has this file nodes1 _ ref Hin []) as [Hn | Hp].
    + now apply settle_has_kept.
    + apply settle_has; [|exact Hp]. now apply has_In.
  - intros q targets other Hget Hp Hother.
    apply backlinks_has with (this := this) (p := path file)
                             (paths := Dict.keys (resolvedLinks this)) (q := q)
                             (targets := targets) (acc := nodes2); auto.
    now apply get_keys with (v := targets).
Qed.

(** X12.  What the neighbourhood holds.  When the request answers, then for
    every requested id of this store with an indexed document the dictionary
    holds the id itself, the id every link of the document resolves to
    (dangling ones included), and the id of every document whose resolved
    links lead to it. *)
Theorem neighbourhood_holds_links_and_backlinks :
  forall (this : ObsidianStore) (nodeIds : list VizId) (nodeId : VizId)
         (file : TFile) (cache : CachedMetadata) (nodes : Nodes),
    In nodeId nodeIds ->
    storeId nodeId = CORE ->
    getFile this nodeId = Some file ->
    getFileCache this file = Some cache ->
    neighbourhoodNodes api this nodeIds = Ret nodes ->
    Dict.has (api_toId api nodeId) nodes = true
    /\ (forall ref, In ref (iterLinks cache) ->
                    Dict.has (targetOf this file ref) nodes = true)
    /\ (forall otherPath targets other,
           Dict.get otherPath (resolvedLinks this) = Some targets ->
           In (path file) targets ->
           getAbstractFileByPath this otherPath = Some other ->
           Dict.has (api_toId api (api_fromFile api other)) nodes = true).
Proof.
  intros this nodeIds nodeId file cache nodes Hin Hstore Hfile Hcache Hrun.
  apply in_split in Hin. destruct Hin as [before [after ->]].
  unfold neighbourhoodNodes in Hrun. rewrite fold_left_app in Hrun.
  cbn [fold_left] in Hrun.
  match type of Hrun with
  | context [fold_left ?f before ?a] =>
      destruct (fold_left f before a) as [nodes0|]; cbn [obind] in Hrun
  end.
  2: { rewrite neighbourhood_Throw in Hrun. discriminate. }
  destruct (neighbourhoodStep api this nodes0 nodeId) as [nodes1|] eqn:Estep.
  2: { rewrite neighbourhood_Throw in Hrun. discriminate. }
  apply neighbourhood_grows in Hrun. destruct Hrun as [extra ->].
  destruct (@step_holds this nodes0 nodes1 nodeId file cache Hstore Hfile Hcache Estep)
    as [Hself [Hlinks Hback]].
  split; [|split].
  - now apply has_grows.
  - intros ref Href. apply has_grows. now apply Hlinks.
  - intros q targets other Hget Hp Hother. apply has_grows. eapply Hback; eauto.
Qed.

(* ------------------------------------------------------------------ *)
(** *** When the neighbourhood answers *)

Lemma backlinks_answer (this : ObsidianStore) (p : string) (paths : list string) :
  (forall q, In q paths -> getAbstractFileByPath this q <> None) ->
  forall acc, exists nodes', fold_left (backlinkStep api this p) paths (Ret acc) = Ret nodes'.
Proof.
  induction paths as [|q paths IH]; intros Hfiles acc; cbn [fold_left].
  - now exists acc.
  - assert (E : exists r, backlinkStep api this p (Ret acc) q = Ret r).
    { simpl. destruct (mem p _); [|now eexists].
      destruct (getAbstractFileByPath this q) eqn:Eq.
      - destruct (Dict.has _ acc); now eexists.
      - exfalso. apply (Hfiles q); [now left | exact Eq]. }
    destruct E as [r ->]. apply IH. intros q' Hq'. apply Hfiles. now right.
Qed.

Lemma step_answers (this : ObsidianStore) (nodes : Nodes) (nodeId : VizId) :
  (forall q, In q (Dict.keys (resolvedLinks this)) -> getAbstractFileByPath this q <> None) ->
  exists nodes', neighbourhoodStep api this nodes nodeId = Ret nodes'.
Proof.
  intros Hfiles. unfold neighbourhoodStep.
  destruct (String.eqb (storeId nodeId) ObsidianStore_storeId); [|now eexists].
  destruct (getFile this nodeId) as [file|] eqn:Efile; [|now eexists].
  destruct (getFileCache this file) as [cache|]; [|now eexists].
  cbv zeta. unfold fillWithBacklinks. rewrite Efile.
  destruct (String.eqb (storeId nodeId) "core"); [|now eexists].
  now apply backlinks_answer.
Qed.

(** X13.  When every path indexed in the resolved links names a file of the
    vault, [getNeighbourhood] answers for every list of ids: the only way it
    can fail is a back-link from a path that no longer names a file. *)
Theorem neighbourhood_answers_on_consistent_index :
  forall (this : ObsidianStore) (nodeIds : list VizId),
    (forall q, In q (Dict.keys (resolvedLinks this)) ->
               getAbstractFileByPath this q <> None) ->
    exists answer, getNeighbourhood api this nodeIds = Ret answer.
Proof.
  intros this nodeIds Hfiles.
  assert (H : forall acc, exists nodes,
               fold_left (fun acc nodeId =>
                            obind acc (fun nodes => neighbourhoodStep api this nodes nodeId))
                         nodeIds (Ret acc) = Ret nodes).
  { induction nodeIds as [|i nodeIds IH]; intros acc; cbn [fold_left obind].
    - now exists acc.
    - destruct (@step_answers this acc i Hfiles) as [nodes1 ->]. apply IH. }
  destruct (H []) as [nodes E].
  assert (E' : neighbourhoodNodes api this nodeIds = Ret nodes) by exact E.
  unfold getNeighbourhood. rewrite E'. simpl. now eexists.
Qed.

(** X14.  [get] and [getNeighbourhood] agree: when [get] has a descriptor
    for an id of this store, a neighbourhood requested from that id first
    answers that descriptor first. *)
Theorem get_is_first_of_neighbourhood :
  forall (this : ObsidianStore) (nodeId : VizId) (rest : list VizId)
         (nodeDef : NodeDefinition) (answer : list NodeDefinition),
    storeId nodeId = CORE ->
    get api this nodeId = Some nodeDef ->
    getNeighbourhood api this (nodeId :: rest) = Ret answer ->
    hd_error answer = Some nodeDef.
Proof.
  intros this nodeId rest nodeDef answer Hstore Hget.
  unfold get in Hget.
  destruct (getFile this nodeId) as [file|] eqn:Efile; [|discriminate].
  destruct (getFileCache this file) as [cache|] eqn:Ecache; [|discriminate].
  injection Hget as <-.
  unfold getNeighbourhood, neighbourhoodNodes. cbn [fold_left obind].
  destruct (neighbourhoodStep api this [] nodeId) as [nodes1|] eqn:Estep.
  2: { rewrite neighbourhood_Throw. discriminate. }
  assert (E1 : exists extra,
             nodes1 = (api_toId api nodeId, api_nodeFromFile api file) :: extra).
  { revert Estep. unfold neighbourhoodStep, fillWithBacklinks.
    rewrite Hstore, Efile, Ecache. cbv zeta. simpl String.eqb. cbv iota.
    cbn [Dict.has Dict.get Dict.set].
    match goal with
    | |- context [fold_left (settleStep ?pn) ?ks ?n1] =>
        destruct (settle_grows pn ks n1) as [extra2 ->]
    end.
    intros H. apply backlinks_grow in H. destruct H as [extra3 ->].
    simpl. now eexists. }
  destruct E1 as [extra ->].
  match goal with
  | |- context [fold_left ?f rest ?a] =>
      destruct (fold_left f rest a) as [nodes'|] eqn:E; simpl; [|discriminate]
  end.
  apply neighbourhood_grows in E. destruct E as [extra' ->].
  intros H. injection H as <-. reflexivity.
Qed.

(* ================================================================== *)
(** ** The container: removing and restyling *)
(* ================================================================== *)

Lemma touches_true (coll : Collection) (el : Element Pos) :
  touches coll el = true
  <-> exists e, el_def el = EdgeDef e
                /\ (In (d_source (e_data e)) coll \/ In (d_target (e_data e)) coll).
Proof.
  unfold touches. destruct (el_def el) as [n|e].
  - split; [discriminate | intros [e [E _]]; discriminate].
  - rewrite orb_true_iff, !mem_In. split.
    + intros H. now exists e.
    + intros [e' [E H]]. injection E as <-. exact H.
Qed.

Lemma touches_same (coll coll' : Collection) (el : Element Pos) :
  (forall x, In x coll <-> In x coll') -> touches coll el = touches coll' el.
Proof.
  intros H. destruct (touches coll' el) eqn:E.
  - apply touches_true in E. apply touches_true.
    destruct E as [e [Ee Hin]]. exists e. rewrite !H. auto.
  - destruct (touches coll el) eqn:E'; [|reflexivity].
    apply touches_true in E'. destruct E' as [e [Ee Hin]]. rewrite !H in Hin.
    rewrite <- E. symmetry. apply touches_true. now exists e.
Qed.

Lemma nodes_In (g : Graph Pos) (x : string) :
  In x (nodes g) <-> exists n, In n g /\ isNode n = true /\ el_id n = x.
Proof.
  unfold nodes, ids. rewrite in_map_iff. split.
  - intros [n [E H]]. apply filter_In in H. exists n. tauto.
  - intros [n [H [Hn E]]]. exists n. rewrite filter_In. auto.
Qed.

Lemma nodesAmong_In (g : Graph Pos) (coll : Collection) (x : string) :
  In x (nodesAmong g coll) <-> In x (nodes g) /\ In x coll.
Proof.
  rewrite nodes_In. unfold nodesAmong, ids. rewrite in_map_iff. split.
  - intros [n [E H]]. apply filter_In in H. destruct H as [Hin H].
    apply andb_true_iff in H. destruct H as [Hn Hm]. apply mem_In in Hm.
    split; [exists n; auto | now rewrite <- E].
  - intros [[n [Hin [Hn E]]] Hx]. exists n. rewrite filter_In, Hn, E. simpl.
    apply mem_In in Hx. auto.
Qed.

Lemma leaves_false (g : Graph Pos) (coll : Collection) (el : Element Pos) :
  leaves g coll el = false
  <-> ~ In (el_id el) coll /\ touches (nodesAmong g coll) el = false.
Proof.
  unfold leaves. fold (nodesAmong g coll).
  rewrite orb_false_iff, mem_false. tauto.
Qed.

Lemma nodeAt_In (g : Graph Pos) (i x : string) :
  In x (nodeAt g i) <-> x = i /\ In i (ids g).
Proof.
  unfold nodeAt. rewrite <- (mem_In i (ids g)), findEl_mem.
  destruct (findEl g i); simpl; intuition congruence.
Qed.

(** Restyling: a map over the elements that keeps every descriptor keeps
    the structure of the container. *)
Section Restyle.

Variable f : Element Pos -> Element Pos.
Hypothesis f_def : forall el, el_def (f el) = el_def el.

Lemma restyle_id (el : Element Pos) : el_id (f el) = el_id el.
Proof. unfold el_id. now rewrite f_def. Qed.

Lemma restyle_isNode (el : Element Pos) : isNode (f el) = isNode el.
Proof. unfold isNode. now rewrite f_def. Qed.

Lemma restyle_touches (coll : Collection) (el : Element Pos) :
  touches coll (f el) = touches coll el.
Proof. unfold touches. now rewrite f_def. Qed.

Lemma restyle_ids (g : Graph Pos) : ids (map f g) = ids g.
Proof. unfold ids. rewrite map_map. apply map_ext. apply restyle_id. Qed.

Lemma restyle_filter2 (p' p : Element Pos -> bool) (g : Graph Pos) :
  (forall el, p' (f el) = p el) -> filter p' (map f g) = map f (filter p g).
Proof.
  intros Hp. induction g as [|el g IH]; simpl; [reflexivity|].
  rewrite Hp. destruct (p el); simpl; now rewrite IH.
Qed.

Lemma restyle_filter (p : Element Pos -> bool) (g : Graph Pos) :
  (forall el, p (f el) = p el) -> filter p (map f g) = map f (filter p g).
Proof. apply restyle_filter2. Qed.

Lemma restyle_nodesAmong (g : Graph Pos) (coll : Collection) :
  nodesAmong (map f g) coll = nodesAmong g coll.
Proof.
  unfold nodesAmong. rewrite restyle_filter.
  - apply restyle_ids.
  - intros el. now rewrite restyle_isNode, restyle_id.
Qed.

Lemma restyle_nodes (g : Graph Pos) : nodes (map f g) = nodes g.
Proof.
  unfold nodes. rewrite restyle_filter; [apply restyle_ids | apply restyle_isNode].
Qed.




Lemma restyle_connectedEdges (g : Graph Pos) (coll : Collection) :
  connectedEdges (map f g) coll = connectedEdges g coll.
Proof.
  unfold connectedEdges. fold (nodesAmong (map f g) coll). fold (nodesAmong g coll).
  rewrite restyle_nodesAmong, restyle_filter; [apply restyle_ids|].
  apply restyle_touches.
Qed.

Lemma restyle_joins (around : Collection) (n : string) (el : Element Pos) :
  joins around n (f el) = joins around n el.
Proof. unfold joins. now rewrite f_def. Qed.

Lemma restyle_existsb (p : Element Pos -> bool) (g : Graph Pos) :
  (forall el, p (f el) = p el) -> existsb p (map f g) = existsb p g.
Proof.
  intros Hp. induction g as [|el g IH]; simpl; [reflexivity|]. now rewrite Hp, IH.
Qed.

Lemma restyle_neighborhood (g : Graph Pos) (coll : Collection) :
  neighborhood (map f g) coll = neighborhood g coll.
Proof.
  unfold neighborhood. fold (nodesAmong (map f g) coll). fold (nodesAmong g coll).
  rewrite restyle_nodesAmong.
  erewrite restyle_filter2; [apply restyle_ids|].
  intros el. cbv beta. rewrite restyle_touches, restyle_isNode, restyle_id.
  rewrite restyle_existsb; [reflexivity|]. apply restyle_joins.
Qed.

Lemma restyle_closedNeighborhood (g : Graph Pos) (coll : Collection) :
  closedNeighborhood (map f g) coll = closedNeighborhood g coll.
Proof.
  unfold closedNeighborhood. now rewrite restyle_neighborhood, restyle_ids.
Qed.

Lemma restyle_connectedNodes (g : Graph Pos) (edges : Collection) :
  connectedNodes (map f g) edges = connectedNodes g edges.
Proof.
  unfold connectedNodes. erewrite restyle_filter2; [apply restyle_ids|].
  intros el. cbv beta. rewrite restyle_isNode, restyle_id. f_equal.
  apply restyle_existsb. intros e. now rewrite restyle_id, f_def.
Qed.

End Restyle.

Lemma strip_def (coll : Collection) (cs : list string) (el : Element Pos) :
  el_def (if mem (el_id el) coll
          then mkElement (el_def el)
                         (filter (fun c => negb (mem c cs)) (el_classes el))
                         (el_position el)
          else el) = el_def el.
Proof. destruct (mem (el_id el) coll); reflexivity. Qed.

Lemma mark_def (coll : Collection) (c : string) (el : Element Pos) :
  el_def (if mem (el_id el) coll && negb (mem c (el_classes el))
          then mkElement (el_def el) (el_classes el ++ [c]) (el_position el)
          else el) = el_def el.
Proof. destruct (_ && _); reflexivity. Qed.

(* ================================================================== *)
(** ** The vault's notifications *)
(* ================================================================== *)

(** What is left when the element with a given id is removed: the elements
    other than it and than the edges attached to it as a node. *)
Lemma removeAt_In (g : Graph Pos) (i : string) (el : Element Pos) :
  In el (removeFrom (nodeAt g i) g)
  <-> In el g /\ el_id el <> i /\ ~ (In i (nodes g) /\ touches [i] el = true).
Proof.
  unfold removeFrom. rewrite filter_In, negb_true_iff, leaves_false.
  assert (Hamong : forall x, In x (nodesAmong g (nodeAt g i)) <-> x = i /\ In i (nodes g)).
  { intros x. rewrite nodesAmong_In, nodeAt_In. split.
    - intros [Hx [-> _]]. auto.
    - intros [-> Hi]. repeat split; auto.
      apply nodes_In in Hi. destruct Hi as [n [Hn [_ <-]]]. now apply in_map. }
  split.
  - intros [Hin [Hid Ht]]. split; [exact Hin|]. split.
    + intros E. apply Hid. apply nodeAt_In. split; [exact E|].
      rewrite <- E. now apply in_map.
    + intros [Hi Ht'].
      apply touches_true in Ht'. destruct Ht' as [e [Ee He]].
      assert (Hyes : touches (nodesAmong g (nodeAt g i)) el = true).
      { apply touches_true. exists e. split; [exact Ee|]. rewrite !Hamong.
        simpl in He. intuition. }
      congruence.
  - intros [Hin [Hid Ht]]. split; [exact Hin|]. split.
    + rewrite nodeAt_In. tauto.
    + destruct (touches (nodesAmong g (nodeAt g i)) el) eqn:E; [|reflexivity].
      exfalso. apply touches_true in E. destruct E as [e [Ee He]].
      rewrite !Hamong in He. apply Ht. split; [tauto|].
      apply touches_true. exists e. split; [exact Ee|]. simpl. intuition.
Qed.

(** X15.  The handler of a deleted file, on a ready view: the element
    carrying the id of the file leaves the container, with the edges
    attached to it when it is a node; every other element stays as it was,
    and no event is emitted: unlike a refresh, the handler does not signal
    the structural change. *)
Theorem delete_handler_removes_silently :
  forall (file : TFile) (g : Graph Pos) (me : bool) (evs : list Event),
  exists g' : Graph Pos,
    onDelete api file (mkJuggl true (Some g) me evs)
    = (Ret tt, mkJuggl true (Some g') me evs)
    /\ (forall el,
           In el g' <->
           In el g
           /\ el_id el <> api_toId api (api_fromFile api file)
           /\ ~ (In (api_toId api (api_fromFile api file)) (nodes g)
                 /\ touches [api_toId api (api_fromFile api file)] el = true)).
Proof.
  intros file g me evs.
  exists (removeFrom (nodeAt g (api_toId api (api_fromFile api file))) g).
  split; [reflexivity|]. intros el. apply removeAt_In.
Qed.

(** X16.  The handler of changed metadata does on every view what
    [refreshNode] does for the id of the file: its own readiness test lets
    through exactly the views on which the refresh acts, and on a view that
    is not ready, or has no container, both leave everything as it was. *)
Theorem changed_handler_is_refresh :
  forall (this : ObsidianStore) (file : TFile) (view : Juggl Pos),
    onChanged api dataStores this file view
    = refreshNode api dataStores this (api_fromFile api file) view
    /\ (isReady view = false ->
        refreshNode api dataStores this (api_fromFile api file) view = (Ret tt, view)).
Proof.
  intros this file view. split.
  - unfold onChanged. unfold bind at 1. unfold getView.
    destruct (isReady view) eqn:E; [reflexivity|].
    unfold refreshNode. unfold bind at 1. unfold getView. now rewrite E.
  - intros H. unfold refreshNode. unfold bind at 1. unfold getView. now rewrite H.
Qed.

(** X17.  A refresh of a node that is not expanded, for a document the
    store has no descriptor for (its metadata is not indexed), gives up
    without a trace: the container and the events are as they were. *)
Theorem refresh_without_descriptor_changes_nothing :
  forall (this : ObsidianStore) (id : VizId) (file : TFile)
         (g : Graph Pos) (me : bool) (evs : list Event),
    getFile this id = Some file ->
    get api this id = None ->
    hasClass g (api_CLASS_EXPANDED api) (nodeAt g (api_toId api id)) = false ->
    refreshNode api dataStores this id (mkJuggl true (Some g) me evs)
    = (Ret tt, mkJuggl true (Some g) me evs).
Proof.
  intros this id file g me evs Hfile Hget Hclass.
  unfold refreshNode. unfold bind at 1. unfold getView.
  cbn [isReady vizReady viz negb andb].
  unfold bind at 1. unfold byId. unfold bind at 1. unfold theViz at 1.
  cbn [viz ret]. rewrite Hfile.
  unfold refreshRecompute. unfold bind at 1. unfold bind at 1. unfold theViz at 1.
  cbn [viz]. rewrite Hclass, andb_false_r, Hget. reflexivity.
Qed.

Lemma nonempty_length {A} (l : list A) : Nat.ltb 0 (List.length l) = true <-> l <> [].
Proof.
  destruct l; simpl.
  - split; [discriminate | congruence].
  - split; [discriminate | reflexivity].
Qed.



(* ================================================================== *)
(** ** Forced removal *)
(* ================================================================== *)


(* ================================================================== *)
(** ** The local mode *)
(* ================================================================== *)

Lemma union_In (a b : Collection) (x : string) : In x (union a b) <-> In x a \/ In x b.
Proof.
  unfold union. revert a. induction b as [|y b IH]; intros a; simpl; [tauto|].
  rewrite IH. destruct (mem y a) eqn:E.
  - apply mem_In in E. split; [intros [H|H]; auto | intros [H|[<-|H]]; auto].
  - rewrite in_app_iff. simpl. tauto.
Qed.

Lemma addClassTo_defs (coll : Collection) (c : string) (g : Graph Pos) :
  map (@el_def Pos) (addClassTo coll c g) = map (@el_def Pos) g.
Proof. unfold addClassTo. rewrite map_map. apply map_ext. intros el. apply mark_def. Qed.

Lemma removeClassFrom_defs (coll : Collection) (cs : list string) (g : Graph Pos) :
  map (@el_def Pos) (removeClassFrom coll cs g) = map (@el_def Pos) g.
Proof.
  unfold removeClassFrom. rewrite map_map. apply map_ext. intros el. apply strip_def.
Qed.

Lemma addClassTo_closedNeighborhood (coll : Collection) (c : string) (g : Graph Pos)
      (node : Collection) :
  closedNeighborhood (addClassTo coll c g) node = closedNeighborhood g node.
Proof.
  unfold addClassTo. apply restyle_closedNeighborhood. intros el. apply mark_def.
Qed.

Lemma addClassTo_connectedEdges (coll : Collection) (c : string) (g : Graph Pos)
      (node : Collection) :
  connectedEdges (addClassTo coll c g) node = connectedEdges g node.
Proof.
  unfold addClassTo. apply restyle_connectedEdges. intros el. apply mark_def.
Qed.

Lemma addClassTo_connectedNodes (coll : Collection) (c : string) (g : Graph Pos)
      (edges : Collection) :
  connectedNodes (addClassTo coll c g) edges = connectedNodes g edges.
Proof.
  unfold addClassTo. apply restyle_connectedNodes. intros el. apply mark_def.
Qed.

Lemma addClassTo_nodes (coll : Collection) (c : string) (g : Graph Pos) :
  nodes (addClassTo coll c g) = nodes g.
Proof. unfold addClassTo. apply restyle_nodes. intros el. apply mark_def. Qed.

Lemma removeClassFrom_ids (coll : Collection) (cs : list string) (g : Graph Pos) :
  ids (removeClassFrom coll cs g) = ids g.
Proof. unfold removeClassFrom. apply restyle_ids. intros el. apply strip_def. Qed.

Lemma removeClassFrom_closedNeighborhood (coll : Collection) (cs : list string)
      (g : Graph Pos) (node : Collection) :
  closedNeighborhood (removeClassFrom coll cs g) node = closedNeighborhood g node.
Proof.
  unfold removeClassFrom. apply restyle_closedNeighborhood. intros el. apply strip_def.
Qed.

Lemma removeClassFrom_connectedEdges (coll : Collection) (cs : list string)
      (g : Graph Pos) (node : Collection) :
  connectedEdges (removeClassFrom coll cs g) node = connectedEdges g node.
Proof.
  unfold removeClassFrom. apply restyle_connectedEdges. intros el. apply strip_def.
Qed.

Lemma removeClassFrom_connectedNodes (coll : Collection) (cs : list string)
      (g : Graph Pos) (edges : Collection) :
  connectedNodes (removeClassFrom coll cs g) edges = connectedNodes g edges.
Proof.
  unfold removeClassFrom. apply restyle_connectedNodes. intros el. apply strip_def.
Qed.

Lemma removeClassFrom_nodes (coll : Collection) (cs : list string) (g : Graph Pos) :
  nodes (removeClassFrom coll cs g) = nodes g.
Proof. unfold removeClassFrom. apply restyle_nodes. intros el. apply strip_def. Qed.

Ltac same_structure :=
  repeat first [ rewrite addClassTo_connectedNodes
               | rewrite addClassTo_connectedEdges
               | rewrite addClassTo_closedNeighborhood
               | rewrite addClassTo_nodes
               | rewrite addClassTo_ids
               | rewrite removeClassFrom_connectedNodes
               | rewrite removeClassFrom_connectedEdges
               | rewrite removeClassFrom_closedNeighborhood
               | rewrite removeClassFrom_nodes
               | rewrite removeClassFrom_ids ].

(** The classes of an element after [addClass] and after [removeClass]. *)
Lemma addClassTo_In (coll : Collection) (c : string) (g : Graph Pos) (el' : Element Pos) :
  In el' (addClassTo coll c g) ->
  exists el, In el g
             /\ el_def el' = el_def el
             /\ (forall c', In c' (el_classes el')
                            <-> In c' (el_classes el) \/ (c' = c /\ In (el_id el) coll)).
Proof.
  unfold addClassTo. intros H. apply in_map_iff in H. destruct H as [el [<- Hin]].
  exists el. split; [exact Hin|].
  destruct (mem (el_id el) coll) eqn:Em; simpl.
  - apply mem_In in Em. destruct (mem c (el_classes el)) eqn:Ec; simpl.
    + apply mem_In in Ec. split; [reflexivity|]. intros c'.
      split; [auto | intros [H | [-> _]]; auto].
    + split; [reflexivity|]. intros c'. rewrite in_app_iff. simpl.
      split; [intros [H|[<-|[]]]; auto | intros [H|[-> _]]; auto].
  - apply mem_false in Em. split; [reflexivity|]. intros c'. tauto.
Qed.

Lemma removeClassFrom_In (coll : Collection) (cs : list string) (g : Graph Pos)
      (el' : Element Pos) :
  In el' (removeClassFrom coll cs g) ->
  exists el, In el g
             /\ el_def el' = el_def el
             /\ (forall c', In c' (el_classes el')
                            <-> In c' (el_classes el)
                                /\ ~ (In (el_id el) coll /\ In c' cs)).
Proof.
  unfold removeClassFrom. intros H. apply in_map_iff in H. destruct H as [el [<- Hin]].
  exists el. split; [exact Hin|].
  destruct (mem (el_id el) coll) eqn:Em; simpl.
  - apply mem_In in Em. split; [reflexivity|]. intros c'.
    rewrite filter_In, negb_true_iff, mem_false. tauto.
  - apply mem_false in Em. split; [reflexivity|]. intros c'. tauto.
Qed.

Lemma same_def_id (el el' : Element Pos) : el_def el' = el_def el -> el_id el' = el_id el.
Proof. unfold el_id. now intros ->. Qed.

Lemma connectedEdges_neighborhood (g : Graph Pos) (node : Collection) (i : string) :
  In i (connectedEdges g node) -> In i (neighborhood g node).
Proof.
  unfold connectedEdges, neighborhood, ids. rewrite !in_map_iff.
  intros [el [E H]]. exists el. split; [exact E|].
  apply filter_In in H. apply filter_In. destruct H as [Hin Ht].
  split; [exact Hin|]. now rewrite Ht.
Qed.

Lemma connectedNodes_closed (g : Graph Pos) (node : Collection) (i : string) :
  NoDup (ids g) ->
  In i (connectedNodes g (connectedEdges g node)) ->
  In i (closedNeighborhood g node).
Proof.
  intros Hnd H. unfold connectedNodes, ids in H. apply in_map_iff in H.
  destruct H as [n [<- H]]. apply filter_In in H. destruct H as [Hn H].
  apply andb_true_iff in H. destruct H as [Hnode H].
  apply existsb_exists in H. destruct H as [e [He H]].
  apply andb_true_iff in H. destruct H as [Hm Hend]. apply mem_In in Hm.
  apply connectedEdges_In in Hm; try assumption.
  apply touches_true in Hm. destruct Hm as [d [Ed Haround]].
  rewrite Ed in Hend. apply orb_true_iff in Hend.
  unfold closedNeighborhood. apply union_In.
  assert (Hself : In (el_id n) (nodesAmong g node) ->
                  In (el_id n) (filter (fun i => mem i (ids g)) node)).
  { intros Hin. apply nodesAmong_In in Hin. destruct Hin as [_ Hin].
    apply filter_In. split; [exact Hin|]. apply mem_In. now apply in_map. }
  assert (Hnext : existsb (joins (nodesAmong g node) (el_id n)) g = true ->
                  In (el_id n) (neighborhood g node)).
  { intros Hj. unfold neighborhood. fold (nodesAmong g node). apply in_map.
    apply filter_In. split; [exact Hn|]. now rewrite Hnode, Hj, orb_true_r. }
  destruct Hend as [Hs | Ht], Haround as [Has | Hat].
  - apply String.eqb_eq in Hs. rewrite Hs in Has. left. now apply Hself.
  - right. apply Hnext. apply existsb_exists. exists e. split; [exact He|].
    unfold joins. rewrite Ed. apply mem_In in Hat. rewrite Hat, Hs.
    now rewrite orb_true_r.
  - right. apply Hnext. apply existsb_exists. exists e. split; [exact He|].
    unfold joins. rewrite Ed. apply mem_In in Has. now rewrite Has, Ht.
  - apply String.eqb_eq in Ht. rewrite Ht in Hat. left. now apply Hself.
Qed.

(** [updateActiveFile] on a view with its container. *)
Lemma updateActiveFile_run (active connected inactive : string) (node : Collection)
      (g : Graph Pos) (ready me : bool) (evs : list Event) :
  updateActiveFile active connected inactive node (mkJuggl ready (Some g) me evs)
  = (Ret tt,
     mkJuggl ready
       (Some (addClassTo (connectedNodes g (connectedEdges g node)) connected
                (addClassTo (connectedEdges g node) connected
                   (addClassTo node active
                      (addClassTo (difference (ids g) (closedNeighborhood g node)) inactive
                         (removeClassFrom (ids g) [connected; active; inactive] g))))))
       me evs).
Proof.
  unfold updateActiveFile, addClass, removeClass, bind, theViz, setViz.
  cbn [viz vizReady mergeEdges events]. same_structure. reflexivity.
Qed.

(** X20.  [updateActiveFile] sorts the container around the active node,
    the three class names being distinct.  The structure is untouched and no
    event is emitted; afterwards an element is inactive exactly when it lies
    outside the closed neighbourhood of the node, active exactly when it is
    of the node, and connected exactly when it is an edge attached to the
    node or a node at an end of such an edge.  With distinct ids no element
    is both inactive and active or connected, whatever classes it carried
    before. *)
Theorem updateActiveFile_sorts_the_container :
  forall (active connected inactive : string) (node : Collection)
         (g : Graph Pos) (ready me : bool) (evs : list Event),
    active <> connected -> active <> inactive -> connected <> inactive ->
    exists g' : Graph Pos,
      updateActiveFile active connected inactive node (mkJuggl ready (Some g) me evs)
      = (Ret tt, mkJuggl ready (Some g') me evs)
      /\ map (@el_def Pos) g' = map (@el_def Pos) g
      /\ (forall el', In el' g' ->
            (In inactive (el_classes el')
             <-> ~ In (el_id el') (closedNeighborhood g node))
            /\ (In active (el_classes el') <-> In (el_id el') node)
            /\ (In connected (el_classes el')
                <-> In (el_id el') (connectedEdges g node)
                    \/ In (el_id el') (connectedNodes g (connectedEdges g node))))
      /\ (NoDup (ids g) ->
          forall el', In el' g' -> In inactive (el_classes el') ->
                      ~ In active (el_classes el') /\ ~ In connected (el_classes el')).
Proof.
  intros active connected inactive node g ready me evs Hac Hai Hci.
  set (g1 := removeClassFrom (ids g) [connected; active; inactive] g).
  set (g2 := addClassTo (difference (ids g) (closedNeighborhood g node)) inactive g1).
  set (g3 := addClassTo node active g2).
  set (g4 := addClassTo (connectedEdges g node) connected g3).
  set (g5 := addClassTo (connectedNodes g (connectedEdges g node)) connected g4).
  assert (Hclasses : forall el', In el' g5 ->
            (In inactive (el_classes el')
             <-> ~ In (el_id el') (closedNeighborhood g node))
            /\ (In active (el_classes el') <-> In (el_id el') node)
            /\ (In connected (el_classes el')
                <-> In (el_id el') (connectedEdges g node)
                    \/ In (el_id el') (connectedNodes g (connectedEdges g node)))).
  { intros el5 H5.
    apply addClassTo_In in H5. destruct H5 as [el4 [H4 [D5 C5]]].
    apply addClassTo_In in H4. destruct H4 as [el3 [H3 [D4 C4]]].
    apply addClassTo_In in H3. destruct H3 as [el2 [H2 [D3 C3]]].
    apply addClassTo_In in H2. destruct H2 as [el1 [H1 [D2 C2]]].
    apply removeClassFrom_In in H1. destruct H1 as [el [H0 [D1 C1]]].
    apply same_def_id in D5, D4, D3, D2, D1.
    rewrite D4, D3, D2, D1 in D5. rewrite D4, D3, D2, D1 in C5.
    rewrite D3, D2, D1 in C4. rewrite D2, D1 in C3. rewrite D1 in C2.
    rewrite D5. clear D4 D3 D2 D1 D5.
    assert (Hid : In (el_id el) (ids g)) by now apply in_map.
    pose proof (difference_In (el_id el) (ids g) (closedNeighborhood g node)) as Hd.
    rewrite !C5, !C4, !C3, !C2, !C1. simpl In.
    repeat split; intros; intuition congruence. }
  exists g5. split; [|split; [|split]].
  - apply updateActiveFile_run.
  - unfold g5, g4, g3, g2, g1.
    now rewrite !addClassTo_defs, removeClassFrom_defs.
  - exact Hclasses.
  - intros Hnd el' Hin Hina.
    destruct (Hclasses el' Hin) as [Hi [Ha Hc]].
    assert (Hid : In (el_id el') (ids g)).
    { replace (ids g) with (ids g5); [now apply in_map|].
      unfold g5, g4, g3, g2, g1. now same_structure. }
    apply Hi in Hina. split; intros H; apply Hina.
    + apply Ha in H. unfold closedNeighborhood. apply union_In. left.
      apply filter_In. split; [exact H | now apply mem_In].
    + apply Hc in H. destruct H as [H | H].
      * unfold closedNeighborhood. apply union_In. right.
        now apply connectedEdges_neighborhood.
      * now apply connectedNodes_closed.
Qed.

(* ------------------------------------------------------------------ *)
(** *** Opening a file *)

Lemma bind_inv {A B} (m : M Pos A) (k : A -> M Pos B) (v v' : Juggl Pos) (b : B) :
  bind m k v = (Ret b, v') -> exists a v1, m v = (Ret a, v1) /\ k a v1 = (Ret b, v').
Proof. unfold bind. destruct (m v) as [[a|] v1]; [eauto | discriminate]. Qed.

Lemma framed_addElement (P : Element Pos -> Prop) (renderedPosition : ElementDefinition -> Pos)
      (def : ElementDefinition) :
  framed P (addElement renderedPosition def).
Proof.
  intros v g Hg Hnd. unfold addElement, bind, theViz, setViz, ret. rewrite Hg.
  destruct (findEl g (def_id def)) eqn:E; simpl.
  - exists g. auto.
  - eexists. split; [reflexivity|]. split.
    + unfold ids. rewrite map_app. simpl.
      apply NoDup_app; [exact Hnd | repeat constructor; auto |].
      intros x Hx [<- | []]. unfold el_id in Hx at 1. simpl in Hx.
      fold (ids g) in Hx.
      apply mem_In in Hx. rewrite findEl_mem, E in Hx. discriminate.
    + intros el Hin _. apply in_or_app. now left.
Qed.

Lemma framed_openedNode (P : Element Pos -> Prop) (renderedPosition : ElementDefinition -> Pos)
      (coreStore : ObsidianStore) (file : TFile) :
  framed P (openedNode api renderedPosition coreStore file).
Proof.
  unfold openedNode, byId.
  apply framed_bind; [apply framed_batch | intros _].
  apply framed_bind; [repeat frame_step | intros shown].
  destruct (Nat.eqb (List.length shown) 0).
  - destruct (get api coreStore _).
    + apply framed_bind; [apply framed_addElement | intros ?; apply framed_ret].
    + apply framed_bind; [apply framed_batch | intros ?; apply framed_ret].
  - repeat frame_step.
Qed.

(** Once the nodes outside the closed neighbourhood are removed, every node
    left is in the closed neighbourhood taken in what is left. *)
Lemma far_nodes_removed_local (g : Graph Pos) (node : Collection) (x : string) :
  NoDup (ids g) ->
  In x (nodes (removeFrom (difference (nodes g) (closedNeighborhood g node)) g)) ->
  In x (closedNeighborhood
          (removeFrom (difference (nodes g) (closedNeighborhood g node)) g) node).
Proof.
  intros Hnd Hx. set (D := difference (nodes g) (closedNeighborhood g node)) in *.
  set (g' := removeFrom D g) in *.
  assert (Hstay : forall el, In el g' <-> In el g /\ leaves g D el = false).
  { intros el. unfold g', removeFrom. rewrite filter_In, negb_true_iff. tauto. }
  assert (HD : forall y, In y D <-> In y (nodes g) /\ ~ In y (closedNeighborhood g node)).
  { intros y. apply difference_In. }
  assert (Hnotouch : forall (coll : Collection) (m : Element Pos),
             isNode m = true -> touches coll m = false).
  { intros coll m Hm. destruct (touches coll m) eqn:T; [|reflexivity].
    apply touches_edge in T. congruence. }
  apply nodes_In in Hx. destruct Hx as [n [Hn [Hnode <-]]].
  destruct (proj1 (Hstay n) Hn) as [Hng Hnl].
  apply leaves_false in Hnl. destruct Hnl as [HnD _].
  assert (Hclosed : In (el_id n) (closedNeighborhood g node)).
  { destruct (in_dec string_dec (el_id n) (closedNeighborhood g node)) as [H|H];
      [exact H|].
    exfalso. apply HnD. apply HD. split; [|exact H]. apply nodes_In. exists n. auto. }
  unfold closedNeighborhood in Hclosed |- *. apply union_In in Hclosed. apply union_In.
  destruct Hclosed as [Hself | Hnext].
  - left. apply filter_In in Hself. destruct Hself as [Hin _].
    apply filter_In. split; [exact Hin|]. apply mem_In. now apply in_map.
  - right. unfold neighborhood in Hnext. fold (nodesAmong g node) in Hnext.
    apply in_map_iff in Hnext. destruct Hnext as [el [E Hel]].
    apply filter_In in Hel. destruct Hel as [Helg HP].
    assert (el = n) by (eapply unique_id; eauto). subst el.
    rewrite (Hnotouch _ n Hnode), Hnode in HP. simpl in HP.
    apply existsb_exists in HP. destruct HP as [e [Heg Hj]].
    unfold joins in Hj. destruct (el_def e) as [|d] eqn:Ed; [discriminate|].
    assert (Haround : forall y, In y (nodesAmong g node) ->
                                In y (nodesAmong g' node) /\ ~ In y D).
    { intros y Hy. apply nodesAmong_In in Hy. destruct Hy as [Hyn Hyc].
      apply nodes_In in Hyn. destruct Hyn as [m [Hm [Hmn <-]]].
      assert (HyD : ~ In (el_id m) D).
      { intros H. apply HD in H. destruct H as [_ H]. apply H.
        unfold closedNeighborhood. apply union_In. left. apply filter_In.
        split; [exact Hyc|]. apply mem_In. now apply in_map. }
      split; [|exact HyD]. apply nodesAmong_In. split; [|exact Hyc].
      apply nodes_In. exists m. split; [|auto]. apply Hstay. split; [exact Hm|].
      apply leaves_false. split; [exact HyD | now apply Hnotouch]. }
    assert (Hends : ~ In (d_source (e_data d)) D /\ ~ In (d_target (e_data d)) D).
    { apply orb_true_iff in Hj.
      destruct Hj as [Hj|Hj]; apply andb_true_iff in Hj; destruct Hj as [Hm He];
        apply mem_In in Hm; apply String.eqb_eq in He; apply Haround in Hm;
        rewrite He; tauto. }
    assert (HeD : In e g').
    { apply Hstay. split; [exact Heg|]. apply leaves_false. split.
      - intros H. apply HD in H. destruct H as [H _]. apply nodes_In in H.
        destruct H as [m [Hm [Hmn Em]]].
        assert (m = e) by (eapply unique_id; eauto). subst m.
        unfold isNode in Hmn. rewrite Ed in Hmn. discriminate.
      - destruct (touches (nodesAmong g D) e) eqn:T; [|reflexivity]. exfalso.
        apply touches_true in T. destruct T as [d' [Ed' Hin]].
        rewrite Ed in Ed'. injection Ed' as <-.
        rewrite !nodesAmong_In in Hin. tauto. }
    unfold neighborhood. fold (nodesAmong g' node). apply in_map. apply filter_In.
    split; [exact Hn|]. rewrite Hnode. simpl. apply orb_true_iff. right.
    apply existsb_exists. exists e. split; [exact HeD|].
    unfold joins. rewrite Ed. apply orb_true_iff in Hj. apply orb_true_iff.
    destruct Hj as [Hj|Hj]; [left|right]; apply andb_true_iff in Hj;
      destruct Hj as [Hm He]; apply andb_true_iff; (split; [|exact He]);
      apply mem_In; apply mem_In in Hm; now apply Haround.
Qed.

(** X21.  Opening a file in the local mode leaves a local graph.  When the
    node of the opened file is there (shown already, or created from the
    store) and the handler completes, the container holds distinct ids
    still, and every node left in it is of the opened node or joined to it
    by an edge of the container: whatever else the expansion brought in or
    was shown before is gone. *)
Theorem onOpenFile_leaves_the_neighbourhood :
  forall (renderedPosition : ElementDefinition -> Pos)
         (active connected inactive : string)
         (coreStore : ObsidianStore) (file : TFile)
         (g : Graph Pos) (ready me : bool) (evs : list Event)
         (node : Collection) (view1 view' : Juggl Pos) (g' : Graph Pos),
    NoDup (ids g) ->
    openedNode api renderedPosition coreStore file (mkJuggl ready (Some g) me evs)
    = (Ret (Some node), view1) ->
    onOpenFile api dataStores renderedPosition active connected inactive
               true coreStore file (mkJuggl ready (Some g) me evs)
    = (Ret tt, view') ->
    viz view' = Some g' ->
    NoDup (ids g')
    /\ (forall x, In x (nodes g') -> In x (closedNeighborhood g' node)).
Proof.
  intros renderedPosition active connected inactive coreStore file g ready me evs
         node view1 view' g' Hnd Hopen Hrun Hviz'.
  unfold onOpenFile in Hrun. cbn [negb] in Hrun.
  unfold bind at 1 in Hrun. unfold getView in Hrun. cbn [viz] in Hrun.
  erewrite bind_Ret in Hrun by exact Hopen.
  pose proof (@framed_openedNode (fun _ => False) renderedPosition coreStore file
                (mkJuggl ready (Some g) me evs)) as K1.
  rewrite Hopen in K1. cbn [snd] in K1.
  destruct (K1 g eq_refl Hnd) as [g1 [Hg1 [Hnd1 _]]].
  apply bind_inv in Hrun. destruct Hrun as [r [view2 [Hexp Hrun]]].
  assert (K2 : framed (fun _ => False) (expand api dataStores node false true)).
  { apply framed_expand. intros el []. }
  specialize (K2 view1). rewrite Hexp in K2. cbn [snd] in K2.
  destruct (K2 g1 Hg1 Hnd1) as [g2 [Hg2 [Hnd2 _]]].
  destruct view2 as [ready2 vz2 me2 evs2]. simpl in Hg2. subst vz2.
  unfold addClass, remove, onGraphChanged, when, emit, endBatch, bind, theViz,
    setViz, ret in Hrun.
  cbn [viz vizReady mergeEdges events] in Hrun.
  set (g3 := addClassTo node active g2) in *.
  rewrite updateActiveFile_run in Hrun. cbn [viz] in Hrun.
  injection Hrun as <-. simpl in Hviz'. injection Hviz' as <-.
  assert (Hnd3 : NoDup (ids g3)) by (unfold g3; now rewrite addClassTo_ids).
  same_structure. split.
  - now apply removeFrom_NoDup.
  - intros x. now apply far_nodes_removed_local.
Qed.

(** X22.  What stops [onOpenFile] before it touches anything: the setting
    [autoAddNodes] switched off, a view without container (which is no
    error here), and a file that is neither shown nor known to the store.
    In each case the container and the events are as they were. *)
Theorem onOpenFile_guards :
  forall (renderedPosition : ElementDefinition -> Pos)
         (active connected inactive : string)
         (coreStore : ObsidianStore) (file : TFile) (view : Juggl Pos),
    onOpenFile api dataStores renderedPosition active connected inactive
               false coreStore file view = (Ret tt, view)
    /\ (viz view = None ->
        onOpenFile api dataStores renderedPosition active connected inactive
                   true coreStore file view = (Ret tt, view))
    /\ (forall g,
           viz view = Some g ->
           findEl g (api_toId api (mkVizId (name file) "core")) = None ->
           get api coreStore (mkVizId (name file) "core") = None ->
           onOpenFile api dataStores renderedPosition active connected inactive
                      true coreStore file view = (Ret tt, view)).
Proof.
  intros renderedPosition active connected inactive coreStore file view.
  split; [reflexivity|]. split.
  - intros Hviz. unfold onOpenFile. cbn [negb]. unfold bind at 1. unfold getView.
    now rewrite Hviz.
  - intros g Hviz Hfind Hget. destruct view as [ready vz me evs].
    simpl in Hviz. subst vz.
    unfold onOpenFile, openedNode, byId, nodeAt, startBatch, endBatch, bind,
      getView, theViz, ret.
    cbn [negb viz]. rewrite Hfind. cbn [List.length Nat.eqb viz]. rewrite Hget.
    reflexivity.
Qed.

(* ================================================================== *)
(** ** Further properties of the view *)
(* ================================================================== *)

Lemma neighbourhood_fold (toExpand : list VizId) (v : Juggl Pos)
      (stores : list (DataStore Pos)) :
  forall (init : M Pos (list NodeDefinition)) (acc : list NodeDefinition),
    init v = (Ret acc, v) ->
    (Forall (fun store => ds_getNeighbourhood store toExpand v <> Throw) stores ->
     fold_left (fun acc store =>
                  bind acc (fun nodes0 =>
                  bind getView (fun view =>
                  bind (lift (ds_getNeighbourhood store toExpand view))
                       (fun storeNodes => ret (nodes0 ++ storeNodes)))))
               stores init v
     = (Ret (acc ++ flat_map (fun store =>
                                match ds_getNeighbourhood store toExpand v with
                                | Ret l => l
                                | Throw => []
                                end) stores), v))
    /\ (Exists (fun store => ds_getNeighbourhood store toExpand v = Throw) stores ->
        fold_left (fun acc store =>
                     bind acc (fun nodes0 =>
                     bind getView (fun view =>
                     bind (lift (ds_getNeighbourhood store toExpand view))
                          (fun storeNodes => ret (nodes0 ++ storeNodes)))))
                  stores init v
        = (Throw, v)).
Proof.
  induction stores as [|store stores IH]; intros init acc Hinit.
  - split.
    + intros _. simpl. now rewrite app_nil_r.
    + intros H. inversion H.
  - cbn [fold_left flat_map].
    destruct (ds_getNeighbourhood store toExpand v) as [l|] eqn:E.
    + destruct (IH (bind init (fun nodes0 =>
                    bind getView (fun view =>
                    bind (lift (ds_getNeighbourhood store toExpand view))
                         (fun storeNodes => ret (nodes0 ++ storeNodes)))))
                   (acc ++ l)) as [IH1 IH2].
      { unfold bind, getView, lift, ret. now rewrite Hinit, E. }
      split.
      * intros H. inversion H; subst. rewrite IH1 by assumption.
        now rewrite app_assoc.
      * intros H. inversion H; subst; [congruence | now apply IH2].
    + split.
      * intros H. inversion H; subst. congruence.
      * intros _. clear IH.
        assert (Hthrow : forall (stores0 : list (DataStore Pos))
                                (m : M Pos (list NodeDefinition)),
                   m v = (Throw, v) ->
                   fold_left (fun acc store =>
                                bind acc (fun nodes0 =>
                                bind getView (fun view =>
                                bind (lift (ds_getNeighbourhood store toExpand view))
                                     (fun storeNodes => ret (nodes0 ++ storeNodes)))))
                             stores0 m v = (Throw, v)).
        { induction stores0 as [|s stores0 IH0]; intros m Hm; simpl; [exact Hm|].
          apply IH0. unfold bind. now rewrite Hm. }
        apply Hthrow. unfold bind, getView, lift, ret. now rewrite Hinit, E.
Qed.

(** X23.  The neighbourhood of the view is that of its stores, in the order
    of the stores: when each of them answers, the answers are concatenated;
    when one of them fails, the request fails, whatever the others answer. *)
Theorem neighbourhood_concatenates_the_stores :
  forall (toExpand : list VizId) (view : Juggl Pos),
    (Forall (fun store => ds_getNeighbourhood store toExpand view <> Throw) dataStores ->
     neighbourhood dataStores toExpand view
     = (Ret (flat_map (fun store =>
                         match ds_getNeighbourhood store toExpand view with
                         | Ret l => l
                         | Throw => []
                         end) dataStores), view))
    /\ (Exists (fun store => ds_getNeighbourhood store toExpand view = Throw) dataStores ->
        neighbourhood dataStores toExpand view = (Throw, view)).
Proof.
  intros toExpand view. unfold neighbourhood.
  apply (@neighbourhood_fold toExpand view dataStores (ret []) [] eq_refl).
Qed.

(* ------------------------------------------------------------------ *)
(** *** Expanding *)

Lemma addClassTo_marks (coll : Collection) (c : string) (g : Graph Pos) (el : Element Pos) :
  In el g ->
  exists el', In el' (addClassTo coll c g)
              /\ el_def el' = el_def el
              /\ (forall c', In c' (el_classes el) -> In c' (el_classes el'))
              /\ (In (el_id el) coll -> In c (el_classes el')).
Proof.
  intros Hin. eexists. split; [unfold addClassTo; apply in_map; exact Hin|].
  destruct (mem (el_id el) coll) eqn:Em; simpl.
  - destruct (mem c (el_classes el)) eqn:Ec; simpl.
    + apply mem_In in Ec. auto.
    + repeat split; intros; apply in_or_app; simpl; auto.
  - apply mem_false in Em. repeat split; auto. intros H. contradiction.
Qed.

(** An expansion of some nodes answers the merged edges. *)
Lemma expand_answers (toExpand : Collection) (batch triggerGraphChanged : bool)
      (v v' : Juggl Pos) (r : option MergedToGraph) :
  toExpand <> [] ->
  expand api dataStores toExpand batch triggerGraphChanged v = (Ret r, v') ->
  exists edges, r = Some edges.
Proof.
  intros Hne Hrun. unfold expand in Hrun.
  destruct toExpand as [|i rest]; [now elim Hne|]. cbn [List.length Nat.eqb] in Hrun.
  repeat (apply bind_inv in Hrun; destruct Hrun as [? [? [_ Hrun]]]).
  unfold ret in Hrun. injection Hrun as <- _. eauto.
Qed.

(** X24.  An expansion of some nodes that completes answers the merged
    edges, never [null], and the nodes it was asked to expand are marked:
    each of them that the container showed counts among the expanded and
    among the protected nodes afterwards.  (The merges are those of the
    merge engine as modelled.) *)
Theorem expand_marks_its_nodes :
  forall (toExpand : Collection) (batch triggerGraphChanged : bool)
         (g : Graph Pos) (ready me : bool) (evs : list Event)
         (r : option MergedToGraph) (view' : Juggl Pos),
    NoDup (ids g) ->
    toExpand <> [] ->
    expand api dataStores toExpand batch triggerGraphChanged (mkJuggl ready (Some g) me evs)
    = (Ret r, view') ->
    (exists edges, r = Some edges)
    /\ exists g' : Graph Pos,
         viz view' = Some g'
         /\ (forall i, In i toExpand -> In i (nodes g) ->
                       In i (nodesWithClass g' (api_CLASS_EXPANDED api))
                       /\ In i (nodesWithClass g' (api_CLASS_PROTECTED api))).
Proof.
  intros toExpand batch tgc g ready me evs r view' Hnd Hne Hrun.
  split; [eapply expand_answers; eauto|].
  unfold expand in Hrun.
  destruct toExpand as [|i0 rest] eqn:Eto; [now elim Hne|].
  cbn [List.length Nat.eqb] in Hrun. rewrite <- Eto in *. clear Hne.
  apply bind_inv in Hrun. destruct Hrun as [[] [v0 [H0 Hrun]]].
  assert (E0 : v0 = mkJuggl ready (Some g) me evs).
  { destruct batch; unfold when, startBatch, bind, theViz, ret in H0; simpl in H0;
      now injection H0 as <-. }
  subst v0. clear H0.
  apply bind_inv in Hrun. destruct Hrun as [[] [v1 [H1 Hrun]]].
  unfold addClass, bind, theViz, setViz in H1. simpl in H1. injection H1 as <-.
  apply bind_inv in Hrun. destruct Hrun as [[] [v2 [H2 Hrun]]].
  unfold addClass, bind, theViz, setViz in H2. simpl in H2. injection H2 as <-.
  set (g2 := addClassTo toExpand (api_CLASS_PROTECTED api)
               (addClassTo toExpand (api_CLASS_EXPANDED api) g)) in *.
  assert (Hnd2 : NoDup (ids g2)) by (unfold g2; now rewrite !addClassTo_ids).
  match type of Hrun with
  | ?m ?v = _ => assert (Hframe : framed (fun _ => True) m)
  end.
  { repeat first [ apply framed_batch
                 | apply framed_neighbourhood
                 | apply framed_buildEdges
                 | apply framed_mergeToGraph
                 | apply framed_trigger
                 | frame_step ]. }
  specialize (Hframe (mkJuggl ready (Some g2) me evs)).
  cbv beta in Hrun. rewrite Hrun in Hframe. cbn [snd] in Hframe.
  destruct (Hframe g2 eq_refl Hnd2) as [g' [Hg' [_ Hkeep]]].
  exists g'. split; [exact Hg'|].
  intros i Hi Hshown. apply nodes_In in Hshown. destruct Hshown as [n [Hn [Hnode <-]]].
  destruct (@addClassTo_marks toExpand (api_CLASS_EXPANDED api) g n Hn)
    as [n1 [Hn1 [D1 [K1 M1]]]].
  destruct (@addClassTo_marks toExpand (api_CLASS_PROTECTED api) _ n1 Hn1)
    as [n2 [Hn2 [D2 [K2 M2]]]].
  fold g2 in Hn2. apply Hkeep in Hn2; [|exact I].
  assert (Hid1 : el_id n1 = el_id n) by now apply same_def_id.
  assert (Hid2 : el_id n2 = el_id n) by (rewrite <- Hid1; now apply same_def_id).
  assert (Hnode2 : isNode n2 = true) by (unfold isNode in *; now rewrite D2, D1).
  rewrite <- Hid2. unfold nodesWithClass.
  split; apply in_map; apply filter_In; (split; [exact Hn2|]); rewrite Hnode2; simpl;
    apply mem_In.
  - apply K2, M1. exact Hi.
  - apply M2. rewrite Hid1. exact Hi.
Qed.

(** X25.  The edges recomputed by a refresh are there: whichever way the
    refresh recomputes them (by expanding an expanded node, or by merging
    the node and building its edges), what it hands to the pruning step is
    never [null], so that step never reads [merged] or [added] of [null]. *)
Theorem refresh_recomputed_edges_are_there :
  forall (this : ObsidianStore) (id : VizId) (node node1 : Collection)
         (correctEdges : option MergedToGraph) (view view1 : Juggl Pos),
    refreshRecompute api dataStores this id node view
    = (Ret (Some (node1, correctEdges)), view1) ->
    exists edges, correctEdges = Some edges.
Proof.
  intros this id node node1 ce view view1 Hrun.
  unfold refreshRecompute in Hrun.
  apply bind_inv in Hrun. destruct Hrun as [g [v0 [_ Hrun]]].
  destruct (Nat.ltb 0 (List.length node) && hasClass g (api_CLASS_EXPANDED api) node)
    eqn:Econd.
  - apply bind_inv in Hrun. destruct Hrun as [ce' [v1 [Hexp Hrun]]].
    unfold ret in Hrun. injection Hrun as <- <- _.
    apply expand_answers in Hexp; [exact Hexp|].
    apply andb_true_iff in Econd. destruct Econd as [Hlen _].
    now apply nonempty_length.
  - destruct (get api this id) as [nodeDef|]; [|discriminate].
    apply bind_inv in Hrun. destruct Hrun as [? [? [_ Hrun]]].
    apply bind_inv in Hrun. destruct Hrun as [view0 [? [_ Hrun]]].
    destruct (viz view0); [|discriminate].
    repeat (apply bind_inv in Hrun; destruct Hrun as [? [? [_ Hrun]]]).
    unfold ret in Hrun. injection Hrun as _ <- _. eauto.
Qed.

(* ================================================================== *)
(** ** Connecting new nodes: the two passes *)
(* ================================================================== *)

Lemma filter_all {A} (p : A -> bool) (l : list A) :
  (forall x, In x l -> p x = true) -> filter p l = l.
Proof.
  induction l as [|x l IH]; intros H; simpl; [reflexivity|].
  rewrite (H x) by now left. f_equal. apply IH. intros y Hy. apply H. now right.
Qed.

(** Among the edges of several documents, those leaving from one node are
    the edges of that node's document. *)
Lemma filter_source_flat_map (F : string -> list EdgeDefinition) (l : list string)
      (i : string) :
  (forall j e, In j l -> In e (F j) -> d_source (e_data e) = j) ->
  NoDup l ->
  filter (fun e => String.eqb (d_source (e_data e)) i) (flat_map F l)
  = if mem i l then F i else [].
Proof.
  induction l as [|j l IH]; intros Hsrc Hnd; [reflexivity|].
  apply NoDup_cons_iff in Hnd. destruct Hnd as [Hj Hnd].
  cbn [flat_map]. rewrite filter_app, IH; [|intros; apply Hsrc; simpl; auto|exact Hnd].
  unfold mem. cbn [existsb]. fold (mem i l).
  destruct (String.eqb i j) eqn:E.
  - apply String.eqb_eq in E. subst j.
    replace (mem i l) with false by (symmetry; now apply mem_false).
    rewrite app_nil_r. apply filter_all. intros e He.
    apply String.eqb_eq. apply Hsrc; simpl; auto.
  - cbn [orb]. rewrite filter_none; [reflexivity|]. intros e He.
    apply String.eqb_neq. rewrite (Hsrc j e); simpl; auto.
    intros ->. now rewrite String.eqb_refl in E.
Qed.

(** The edges a shown node of this store contributes are those of its
    document. *)
Lemma edgesOfNode_shown (this : ObsidianStore) (g : Graph Pos) (view : Juggl Pos)
      (toNodes : Collection) (i : string) (el : Element Pos) (file : TFile) :
  viz view = Some g ->
  findEl g i = Some el ->
  storeId (api_fromNode api el) = CORE ->
  getFile this (api_fromNode api el) = Some file ->
  edgesOfNode api this view toNodes i
  = createEdges api this file (api_toId api (api_fromNode api el)) toNodes view.
Proof.
  intros Hviz Hfind Hstore Hfile. unfold edgesOfNode, nodeOf.
  now rewrite Hviz, Hfind, Hstore, Hfile.
Qed.

(** C7.  [connectNodes] is two passes: for each new node in turn the edges
    of its document towards all nodes, then for each node that is not new the
    edges of its document towards the new nodes; the sources of the second
    pass are exactly the nodes outside [newNodes].  On a view whose shown
    nodes carry the id their [VizId] writes, with duplicate-free collections
    and a reference parser that hands back the endpoints it is given, this
    pins what is answered, source by source: the edges leaving from a new
    node are exactly what [createEdges] extracts from its document towards
    all nodes, those leaving from a node that is not new are exactly what
    [createEdges] extracts from its document towards the new nodes, and every
    edge answered leaves from one of [allNodes].  So an edge between two new
    nodes comes from the first pass only, as often as [createEdges] answers
    it and no more: the second pass answers no edge that leaves from a new
    node. *)
Theorem connectNodes_two_passes :
  forall (this : ObsidianStore) (allNodes newNodes : Collection) (view : Juggl Pos),
    connectNodes api this allNodes newNodes view
    = flat_map (edgesOfNode api this view allNodes) newNodes
      ++ flat_map (edgesOfNode api this view newNodes) (difference allNodes newNodes)
    /\ (forall n, In n (difference allNodes newNodes) <-> In n allNodes /\ ~ In n newNodes)
    /\ (NoDup allNodes -> NoDup newNodes ->
        NoDup (newNodes ++ difference allNodes newNodes))
    /\ (forall g : Graph Pos,
           viz view = Some g ->
           parserKeepsEndpoints api ->
           (forall i el, In i allNodes -> findEl g i = Some el ->
                         api_toId api (api_fromNode api el) = i) ->
           (forall i, In i newNodes -> In i allNodes) ->
           NoDup allNodes -> NoDup newNodes ->
           (forall i el file,
               In i newNodes ->
               findEl g i = Some el ->
               storeId (api_fromNode api el) = CORE ->
               getFile this (api_fromNode api el) = Some file ->
               filter (fun e => String.eqb (d_source (e_data e)) i)
                      (connectNodes api this allNodes newNodes view)
               = createEdges api this file i allNodes view)
           /\ (forall i el file,
                  In i allNodes -> ~ In i newNodes ->
                  findEl g i = Some el ->
                  storeId (api_fromNode api el) = CORE ->
                  getFile this (api_fromNode api el) = Some file ->
                  filter (fun e => String.eqb (d_source (e_data e)) i)
                         (connectNodes api this allNodes newNodes view)
                  = createEdges api this file i newNodes view)
           /\ (forall edge,
                  In edge (connectNodes api this allNodes newNodes view) ->
                  In (d_source (e_data edge)) allNodes)
           /\ (forall edge,
                  In edge (flat_map (edgesOfNode api this view newNodes)
                                    (difference allNodes newNodes)) ->
                  ~ In (d_source (e_data edge)) newNodes
                  /\ In (d_target (e_data edge)) newNodes)).
Proof.
  intros this allNodes newNodes view.
  assert (Hsplit : connectNodes api this allNodes newNodes view
                   = flat_map (edgesOfNode api this view allNodes) newNodes
                     ++ flat_map (edgesOfNode api this view newNodes)
                                 (difference allNodes newNodes)).
  { unfold connectNodes. rewrite !fold_push_flat_map. reflexivity. }
  split; [exact Hsplit|]. split; [intros n; apply difference_In|]. split.
  { intros Hall Hnew. apply NoDup_app; [exact Hnew | now apply difference_NoDup |].
    intros n Hn Hd. apply difference_In in Hd. tauto. }
  intros g Hviz Hparser Hround Hsub Hall Hnew.
  assert (Hsrc1 : forall toNodes j e,
             In j newNodes -> In e (edgesOfNode api this view toNodes j) ->
             d_source (e_data e) = j /\ In (d_target (e_data e)) toNodes).
  { intros toNodes j e Hj He.
    apply (@edgesOfNode_endpoints this g view toNodes j e); auto. }
  assert (Hsrc2 : forall toNodes j e,
             In j (difference allNodes newNodes) ->
             In e (edgesOfNode api this view toNodes j) ->
             d_source (e_data e) = j /\ In (d_target (e_data e)) toNodes).
  { intros toNodes j e Hj He. apply difference_In in Hj. destruct Hj as [Hj _].
    apply (@edgesOfNode_endpoints this g view toNodes j e); auto. }
  assert (Hfilter : forall i,
             filter (fun e => String.eqb (d_source (e_data e)) i)
                    (connectNodes api this allNodes newNodes view)
             = (if mem i newNodes then edgesOfNode api this view allNodes i else [])
               ++ (if mem i (difference allNodes newNodes)
                   then edgesOfNode api this view newNodes i else [])).
  { intros i. rewrite Hsplit, filter_app. f_equal.
    - apply filter_source_flat_map; [|exact Hnew].
      intros j e Hj He. now apply (Hsrc1 allNodes).
    - apply filter_source_flat_map; [|now apply difference_NoDup].
      intros j e Hj He. now apply (Hsrc2 newNodes). }
  split; [|split; [|split]].
  - intros i el file Hi Hfind Hstore Hfile. rewrite Hfilter.
    replace (mem i newNodes) with true by (symmetry; now apply mem_In).
    replace (mem i (difference allNodes newNodes)) with false.
    2: { symmetry. apply mem_false. intros H. apply difference_In in H. tauto. }
    rewrite app_nil_r, (@edgesOfNode_shown this g view allNodes i el file) by assumption.
    now rewrite (Hround i el (Hsub i Hi) Hfind).
  - intros i el file Hi Hold Hfind Hstore Hfile. rewrite Hfilter.
    replace (mem i newNodes) with false by (symmetry; now apply mem_false).
    replace (mem i (difference allNodes newNodes)) with true.
    2: { symmetry. apply mem_In. apply difference_In. tauto. }
    cbn [app]. rewrite (@edgesOfNode_shown this g view newNodes i el file) by assumption.
    now rewrite (Hround i el Hi Hfind).
  - intros edge Hin. rewrite Hsplit in Hin. apply in_app_or in Hin.
    destruct Hin as [Hin | Hin]; apply in_flat_map in Hin; destruct Hin as [j [Hj He]].
    + destruct (Hsrc1 allNodes j edge Hj He) as [-> _]. now apply Hsub.
    + destruct (Hsrc2 newNodes j edge Hj He) as [-> _].
      apply difference_In in Hj. tauto.
  - intros edge Hin. apply in_flat_map in Hin. destruct Hin as [j [Hj He]].
    destruct (Hsrc2 newNodes j edge Hj He) as [-> Ht].
    apply difference_In in Hj. tauto.
Qed.

(* ================================================================== *)
(** ** Refreshing a node: what leaves the container *)
(* ================================================================== *)




(* ================================================================== *)
(** ** Neighbourhoods: one descriptor per id *)
(* ================================================================== *)

Lemma set_In {V} (k : string) (v : V) (d : Dict.t V) (k' : string) (v' : V) :
  In (k', v') (Dict.set k v d) -> (k' = k /\ v' = v) \/ In (k', v') d.
Proof.
  induction d as [|[k0 v0] d IH]; simpl.
  - intros [E | []]. injection E as <- <-. auto.
  - destruct (String.eqb k k0) eqn:Ek; simpl.
    + apply String.eqb_eq in Ek. subst k0. intros [E | H]; [|auto].
      injection E as <- <-. auto.
    + intros [E | H]; [auto|]. apply IH in H. tauto.
Qed.

Lemma get_In {V} (k : string) (v : V) (d : Dict.t V) :
  Dict.get k d = Some v -> In (k, v) d.
Proof.
  induction d as [|[k0 v0] d IH]; simpl; [discriminate|].
  destruct (String.eqb k k0) eqn:Ek.
  - apply String.eqb_eq in Ek. subst k0. intros E. injection E as <-. now left.
  - intros H. right. now apply IH.
Qed.

Lemma labelled_set (k : string) (v : NodeDefinition) (nodes : Nodes) :
  labelled nodes -> n_id v = k -> labelled (Dict.set k v nodes).
Proof.
  intros Hl Hv k' v' Hin. apply set_In in Hin.
  destruct Hin as [[-> ->] | Hin]; [exact Hv | now apply Hl].
Qed.

Lemma getNodeFromLink_labelled (this : ObsidianStore) (ref : Reference) (sourcePath : string) :
  descriptorsFollowIds api ->
  n_id (getNodeFromLink api this ref sourcePath)
  = api_toId api (getOtherId api this ref sourcePath).
Proof.
  intros [Hfile [_ Hdangling]]. unfold getNodeFromLink, getOtherId.
  destruct (getFirstLinkpathDest this _ sourcePath); [apply Hfile | apply Hdangling].
Qed.

Lemma promise_labelled (this : ObsidianStore) (file : TFile) (nodes1 : Nodes)
      (refs : list Reference) :
  descriptorsFollowIds api ->
  forall pn, labelled pn ->
             labelled (fold_left (promiseStep api this file nodes1) refs pn).
Proof.
  intros Hapi. induction refs as [|r refs IH]; intros pn H; simpl; [exact H|].
  apply IH. unfold promiseStep. destruct (Dict.has _ nodes1); [exact H|].
  apply labelled_set; [exact H | now apply getNodeFromLink_labelled].
Qed.

Lemma settle_labelled (promiseNodes : Nodes) (ks : list string) :
  labelled promiseNodes ->
  forall nodes, labelled nodes ->
                labelled (fold_left (settleStep promiseNodes) ks nodes).
Proof.
  intros Hpn. induction ks as [|k ks IH]; intros nodes H; simpl; [exact H|].
  apply IH. unfold settleStep. destruct (Dict.has k nodes); [exact H|].
  destruct (Dict.get k promiseNodes) as [n|] eqn:E; [|exact H].
  apply labelled_set; [exact H|]. apply Hpn. now apply get_In.
Qed.

Lemma backlinks_labelled (this : ObsidianStore) (p : string) (paths : list string) :
  descriptorsFollowIds api ->
  forall acc, whenRet labelled acc ->
              whenRet labelled (fold_left (backlinkStep api this p) paths acc).
Proof.
  intros Hapi. induction paths as [|q paths IH]; intros acc H; simpl; [exact H|].
  apply IH. destruct acc as [nodes|]; simpl in *; [|exact I].
  destruct (mem p _); [|exact H].
  destruct (getAbstractFileByPath this q) as [other|]; [|exact I].
  destruct (Dict.has _ nodes); simpl; [exact H|].
  apply labelled_set; [exact H|].
  destruct Hapi as [Hfile [Hfrom _]]. now rewrite Hfile, Hfrom.
Qed.

Lemma step_labelled (this : ObsidianStore) (nodes : Nodes) (nodeId : VizId) :
  descriptorsFollowIds api ->
  canonical api this nodeId ->
  labelled nodes -> whenRet labelled (neighbourhoodStep api this nodes nodeId).
Proof.
  intros Hapi Hcan H. unfold neighbourhoodStep.
  destruct (String.eqb (storeId nodeId) ObsidianStore_storeId); [|exact H].
  destruct (getFile this nodeId) as [file|] eqn:Efile; [|exact H].
  destruct (getFileCache this file) as [cache|]; [|exact H].
  unfold fillWithBacklinks. rewrite Efile.
  match goal with
  | |- context [fold_left (settleStep ?pn) ?ks ?n1] =>
      assert (H2 : labelled (fold_left (settleStep pn) ks n1))
  end.
  { apply settle_labelled.
    - apply promise_labelled; [exact Hapi|]. intros k v [].
    - destruct (Dict.has _ nodes); [exact H|].
      apply labelled_set; [exact H|].
      destruct Hapi as [Hfile _]. rewrite Hfile. symmetry. now apply Hcan. }
  destruct (String.eqb (storeId nodeId) "core"); [|exact H2].
  now apply backlinks_labelled.
Qed.

Lemma neighbourhood_labelled (this : ObsidianStore) (nodeIds : list VizId) :
  descriptorsFollowIds api ->
  (forall nodeId, In nodeId nodeIds -> canonical api this nodeId) ->
  forall acc, whenRet labelled acc ->
    whenRet labelled
      (fold_left (fun acc nodeId => obind acc (fun nodes => neighbourhoodStep api this nodes nodeId))
                 nodeIds acc).
Proof.
  intros Hapi. induction nodeIds as [|nodeId nodeIds IH]; intros Hcan acc H; simpl;
    [exact H|].
  apply IH; [intros n Hn; apply Hcan; now right|].
  destruct acc as [nodes|]; simpl in *; [|exact I].
  apply step_labelled; [exact Hapi | apply Hcan; now left | exact H].
Qed.

Lemma labelled_ids (nodes : Nodes) :
  labelled nodes -> map n_id (Dict.values nodes) = Dict.keys nodes.
Proof.
  unfold Dict.values, Dict.keys. induction nodes as [|[k v] nodes IH]; intros H; simpl;
    [reflexivity|].
  rewrite (H k v) by now left. f_equal. apply IH. intros k' v' Hin. apply H. now right.
Qed.

(** X26.  The descriptors answered by [getNeighbourhood] are the values of a
    dictionary whose keys are distinct, and a requested id whose document or
    metadata is missing is passed over: the loop body answers the dictionary
    it was given, and the request answers what it answers without that id.
    An entry of the dictionary is never replaced or moved: a document
    reached again, by a link, a back-link or a later request, is skipped.
    When the helpers agree on the id of a document and every requested id is
    the id its document's descriptor carries, each descriptor carries its
    key, so the descriptors answered have distinct ids however often a
    document is reached by links and back-links. *)
Theorem neighbourhood_one_descriptor_per_id :
  forall (this : ObsidianStore),
    (forall (nodeIds : list VizId) (nodes : Nodes),
        neighbourhoodNodes api this nodeIds = Ret nodes ->
        NoDup (Dict.keys nodes)
        /\ getNeighbourhood api this nodeIds = Ret (Dict.values nodes)
        /\ List.length (Dict.values nodes) = List.length (Dict.keys nodes))
    /\ (forall (nodeId : VizId),
           indexed this nodeId = false ->
           (forall nodes, neighbourhoodStep api this nodes nodeId = Ret nodes)
           /\ (forall before after,
                  getNeighbourhood api this (before ++ nodeId :: after)
                  = getNeighbourhood api this (before ++ after)))
    /\ (forall (nodes nodes' : Nodes) (nodeId : VizId),
           neighbourhoodStep api this nodes nodeId = Ret nodes' ->
           exists extra, nodes' = nodes ++ extra)
    /\ (descriptorsFollowIds api ->
        forall (nodeIds : list VizId) (answer : list NodeDefinition),
          (forall nodeId, In nodeId nodeIds -> canonical api this nodeId) ->
          getNeighbourhood api this nodeIds = Ret answer ->
          NoDup (map n_id answer)).
Proof.
  intros this. split; [|split; [|split]].
  - intros nodeIds nodes Hrun.
    pose proof (@neighbourhood_uniqueKeys this nodeIds (Ret [])) as Hu.
    unfold neighbourhoodNodes in Hrun. rewrite Hrun in Hu.
    split; [apply Hu; constructor|].
    split.
    + unfold getNeighbourhood, neighbourhoodNodes. rewrite Hrun. reflexivity.
    + unfold Dict.values, Dict.keys. now rewrite !length_map.
  - intros nodeId Hmiss. split.
    + intros nodes. now apply step_not_indexed.
    + intros before after. unfold getNeighbourhood, neighbourhoodNodes.
      rewrite !fold_left_app. simpl.
      match goal with
      | |- context [fold_left ?f before ?a] =>
          destruct (fold_left f before a) as [nodes|]; simpl; [|reflexivity]
      end.
      rewrite step_not_indexed by exact Hmiss. reflexivity.
  - intros nodes nodes' nodeId Hstep. now apply step_grows in Hstep.
  - intros Hapi nodeIds answer Hcan Hrun.
    pose proof (@neighbourhood_uniqueKeys this nodeIds (Ret [])) as Hu.
    pose proof (@neighbourhood_labelled this nodeIds Hapi Hcan (Ret [])) as Hl.
    unfold getNeighbourhood, neighbourhoodNodes in Hrun.
    match type of Hrun with
    | context [fold_left ?f nodeIds ?a] =>
        destruct (fold_left f nodeIds a) as [nodes|]; simpl in Hrun; [|discriminate]
    end.
    injection Hrun as <-. rewrite labelled_ids.
    + apply Hu. constructor.
    + apply Hl. intros k v [].
Qed.

End Properties.

(* ================================================================== *)
(** ** The properties on the small vault *)
(* ================================================================== *)

Import Scenario.

(** C1, counterexample.  The key [related.sibling] has the two segments
    [related] and [sibling]; its relation type is [related], not the last
    segment. *)
Lemma frontmatter_type_is_not_last_segment :
  JS.split dot "related.sibling" = ["related"; "sibling"]
  /\ d_type (e_data (frontmatterEdge "e" "core:A.md" "core:C.md" "related.sibling"))
     = Some "related"
  /\ frontmatterType "related.sibling" <> "sibling".
Proof.
  split; [reflexivity|]. split; [reflexivity|]. vm_compute. discriminate.
Qed.

Lemma frontmatter_type_witness :
  Forall (fun s => JS.occurs dot s = 0) (["related"] ++ ["sibling_of"])
  /\ frontmatterType "related.sibling_of" = "related"
  /\ frontmatterType "a.b.c" = "a,b"
  /\ frontmatterType "up_link" = "up_link"
  /\ d_type (e_data (frontmatterEdge "e" "s" "t" "up_link")) = Some "up link"
  /\ e_classes (frontmatterEdge "e" "s" "t" "up_link")
     = ClassList ["up_link"; "type-up_link"; "type-up_link"].
Proof.
  assert (H1 : Forall (fun s => JS.occurs dot s = 0) (["related"] ++ ["sibling_of"]))
    by (repeat constructor).
  assert (H2 : Forall (fun s => JS.occurs dot s = 0) (["a"; "b"] ++ ["c"]))
    by (repeat constructor).
  assert (H3 : Forall (fun s => JS.occurs dot s = 0) ([] ++ ["up_link"]))
    by (repeat constructor).
  split; [exact H1|].
  split; [exact (proj1 (frontmatter_type_drops_last_segment "e" "s" "t" _ _ H1))|].
  split; [exact (proj1 (frontmatter_type_drops_last_segment "e" "s" "t" _ _ H2))|].
  destruct (frontmatter_type_drops_last_segment "e" "s" "t" _ _ H3)
    as [Ht [Hd [_ [_ Hc]]]].
  split; [exact Ht|]. split; [exact Hd | exact Hc].
Defined.

(** The link to [Ghost] from [A.md] is dangling: its id is the placeholder,
    which is not the id of [B.md]. *)
Lemma dangling_link_witness :
  getOtherId api vault ghostRef "A.md" = mkVizId "Ghost" "core"
  /\ getOtherId api vault ghostRef "A.md" <> mkVizId "B.md" "core".
Proof.
  destruct (dangling_link_placeholder api vault ghostRef "A.md" eq_refl)
    as [Hid [Hreal _]].
  split; [exact Hid|].
  apply (Hreal fileB). discriminate.
Defined.

(** The two inline edges of [A.md] to [B.md], with contexts "A" and "B",
    come out as one edge of count 2 whose context has "A" before "B"; the
    front-matter edge stays on its own. *)
Lemma merge_inline_witness :
  createEdges api vault fileA "core:A.md" ["core:B.md"; "core:C.md"] (viewOf [] true)
  = [edgeAB; edgeAC].
Proof.
  exact (eq_trans
           (createEdges_merges_inline_edges api vault fileA "core:A.md"
              ["core:B.md"; "core:C.md"] true (Some []) [] eq_refl eq_refl)
           eq_refl).
Defined.

(** Without merging, the two references to [B.md] are numbered 1 and 2. *)
Lemma edge_ids_witness :
  map (fun e => d_id (e_data e))
      (createEdges api vault fileA "core:A.md" ["core:B.md"; "core:C.md"] (viewOf [] false))
  = ["core:A.md->core:B.md1"; "core:A.md->core:B.md2"; "core:A.md->core:C.md1"].
Proof.
  exact (eq_trans
           (f_equal (map (fun e => d_id (e_data e)))
              (proj1 (createEdges_ids_by_occurrence api vault fileA "core:A.md"
                        ["core:B.md"; "core:C.md"] true (Some []) [] eq_refl eq_refl)))
           eq_refl).
Defined.


(** C4 on the vault: no file answers to [Z.md] and the container shows no
    node for it, yet the refresh emits the structural-change notification. *)
Example refresh_missing_file_always_notifies :
  getFile vault (mkVizId "Z.md" "core") = None
  /\ nodeAt [nodeEl "B.md"] (api_toId api (mkVizId "Z.md" "core")) = []
  /\ refreshNode api stores vault (mkVizId "Z.md" "core") (viewOf [nodeEl "B.md"] true)
     = (Ret tt, mkJuggl true (Some [nodeEl "B.md"]) true [GraphChanged true]).
Proof. split; [reflexivity|]. split; vm_compute; reflexivity. Qed.


(** The neighbourhood of [A.md] and [B.md]: [B.md] is requested and linked
    twice and comes once; the unknown [Z] contributes nothing. *)
Example neighbourhood_of_A_and_B :
  getNeighbourhood api vault [mkVizId "A.md" "core"; mkVizId "Z" "core"; mkVizId "B.md" "core"]
  = Ret [nodeOfFile fileA; nodeOfFile fileB; dangling "Ghost"; nodeOfFile fileC].
Proof. vm_compute. reflexivity. Qed.

(** Showing [C.md] next to [A.md] and [B.md] connects it by the front-matter
    edge of [A.md], once. *)
Example connect_new_node_C :
  connectNodes api vault ["core:A.md"; "core:B.md"; "core:C.md"] ["core:C.md"]
               (viewOf [nodeEl "A.md"; nodeEl "B.md"; nodeEl "C.md"] true)
  = [edgeAC].
Proof. vm_compute. reflexivity. Qed.

(** Merging the same two descriptors twice: the second merge adds nothing. *)
Example merge_twice_on_vault :
  let batch := [NodeDef (nodeOfFile fileC); EdgeDef edgeAC; NodeDef (nodeOfFile fileC)] in
  let '(r1, view1) := mergeToGraph api batch true true None (viewOf shown true) in
  let '(r2, view2) := mergeToGraph api batch true true None view1 in
  r1 = Ret (mkMerged ["core:C.md"; "core:A.md->core:C.md1"]
                     ["core:C.md"; "core:A.md->core:C.md1"])
  /\ r2 = Ret (mkMerged ["core:C.md"; "core:A.md->core:C.md1"] [])
  /\ viz view2 = viz view1
  /\ events view2 = events view1 ++ [GraphChanged false].
Proof. vm_compute. repeat split; reflexivity. Qed.

(* ================================================================== *)
(** ** The further properties on the small vault *)
(* ================================================================== *)

(** No link of [A.md] leads to [X.md]: no edge towards it. *)
Lemma no_target_witness :
  createEdges api vault fileA "core:A.md" ["core:X.md"] (viewOf [] true) = [].
Proof.
  apply createEdges_without_targets.
  intros cache ref E Hin. vm_compute in E. injection E as <-.
  simpl in Hin.
  destruct Hin as [<- | [<- | [<- | [<- | []]]]]; vm_compute; intuition discriminate.
Defined.

(** The front-matter edge of [A.md] is typed [related]. *)
Lemma type_label_witness : JS.occurs underscore "related" = 0.
Proof.
  apply (edge_type_labels_have_no_underscore api vault fileA "core:A.md"
           ["core:B.md"; "core:C.md"] (viewOf [] true) edgeAC).
  - vm_compute. right. left. reflexivity.
  - reflexivity.
Defined.

Lemma parser_keeps_endpoints : parserKeepsEndpoints api.
Proof. intros r content id srcId otherId prefix. split; reflexivity. Defined.

(** The merged inline edge of [A.md] runs from [A.md] to [B.md]. *)
Lemma endpoints_witness :
  d_source (e_data edgeAB) = "core:A.md"
  /\ In (d_target (e_data edgeAB)) ["core:B.md"; "core:C.md"].
Proof.
  apply (edges_run_from_source_into_targets vault fileA "core:A.md"
           ["core:B.md"; "core:C.md"] (viewOf [] true) edgeAB parser_keeps_endpoints).
  vm_compute. left. reflexivity.
Defined.

(** Showing [C.md] next to [A.md] and [B.md]: the edge that connects it
    arrives at the new node. *)
Lemma connect_witness :
  In (d_source (e_data edgeAC)) ["core:A.md"; "core:B.md"; "core:C.md"]
  /\ In (d_target (e_data edgeAC)) ["core:A.md"; "core:B.md"; "core:C.md"]
  /\ (In (d_source (e_data edgeAC)) ["core:C.md"]
      \/ In (d_target (e_data edgeAC)) ["core:C.md"]).
Proof.
  apply (connectNodes_edges_touch_new_nodes vault
           ["core:A.md"; "core:B.md"; "core:C.md"] ["core:C.md"]
           (g := [nodeEl "A.md"; nodeEl "B.md"; nodeEl "C.md"])
           (viewOf [nodeEl "A.md"; nodeEl "B.md"; nodeEl "C.md"] true) edgeAC
           parser_keeps_endpoints eq_refl).
  - intros i el [<- | [<- | [<- | []]]] H; vm_compute in H; injection H as <-;
      reflexivity.
  - intros i [<- | []]. simpl. auto.
  - vm_compute. left. reflexivity.
Defined.

(** The neighbourhood of [B.md] alone is [B.md] and [A.md], which links to
    it; asking for [A.md] as well appends what [A.md] links to. *)
Lemma neighbourhood_prefix_witness :
  exists extra,
    [nodeOfFile fileB; nodeOfFile fileA; dangling "Ghost"; nodeOfFile fileC]
    = [nodeOfFile fileB; nodeOfFile fileA] ++ extra.
Proof.
  exact (neighbourhood_answer_is_prefix api vault
           [mkVizId "B.md" "core"] [mkVizId "A.md" "core"] eq_refl eq_refl).
Defined.

(** The neighbourhood of [A.md] holds the placeholder of its dangling link. *)
Lemma neighbourhood_holds_witness :
  exists nodes,
    neighbourhoodNodes api vault [mkVizId "A.md" "core"] = Ret nodes
    /\ Dict.has "core:A.md" nodes = true
    /\ Dict.has "core:Ghost" nodes = true.
Proof.
  eexists. split; [reflexivity|].
  destruct (neighbourhood_holds_links_and_backlinks api vault
              [mkVizId "A.md" "core"] (mkVizId "A.md" "core")
              (file := fileA) (cache := cacheA)
              (or_introl eq_refl) eq_refl eq_refl eq_refl eq_refl)
    as [Hself [Hlinks _]].
  split; [exact Hself|].
  apply (Hlinks ghostRef). simpl. auto.
Defined.

(** Every path of the index of the vault names a file. *)
Lemma neighbourhood_answers_witness :
  exists answer,
    getNeighbourhood api vault [mkVizId "A.md" "core"; mkVizId "B.md" "core"]
    = Ret answer.
Proof.
  apply neighbourhood_answers_on_consistent_index.
  intros q [<- | [<- | [<- | []]]]; discriminate.
Defined.

(** The descriptor of [A.md] comes first when [A.md] is asked for first. *)
Lemma get_first_witness :
  hd_error [nodeOfFile fileA; nodeOfFile fileB; dangling "Ghost"; nodeOfFile fileC]
  = Some (nodeOfFile fileA).
Proof.
  exact (get_is_first_of_neighbourhood api vault (mkVizId "A.md" "core")
           [mkVizId "Z" "core"; mkVizId "B.md" "core"] eq_refl eq_refl eq_refl).
Defined.

(** On a vault whose metadata is not indexed, a refresh of [A.md] leaves the
    view alone. *)
Lemma refresh_unindexed_witness :
  refreshNode api stores bareVault (mkVizId "A.md" "core") (viewOf [nodeEl "A.md"] true)
  = (Ret tt, viewOf [nodeEl "A.md"] true).
Proof.
  exact (refresh_without_descriptor_changes_nothing api stores bareVault
           (mkVizId "A.md" "core") [nodeEl "A.md"] true []
           (file := fileA) eq_refl eq_refl eq_refl).
Defined.



(** With [A.md] active in the container [shown], the structure stays. *)
Lemma updateActiveFile_witness :
  exists g' : Graph Pos,
    updateActiveFile "active" "connected" "inactive" ["core:A.md"] (viewOf shown true)
    = (Ret tt, viewOf g' true)
    /\ map (@el_def Pos) g' = map (@el_def Pos) shown.
Proof.
  destruct (updateActiveFile_sorts_the_container (active := "active")
              (connected := "connected") (inactive := "inactive")
              ["core:A.md"] shown true true [])
    as [g' [Hrun [Hdefs _]]]; try discriminate.
  exists g'. split; [exact Hrun | exact Hdefs].
Defined.

(** Opening [B.md] on the container [shown] leaves [B.md] and [A.md], which
    links to it, with the edge between them; [X.md] is gone. *)
Lemma onOpenFile_witness :
  exists (view' : Juggl Pos) (g' : Graph Pos),
    onOpenFile api stores rendered "active" "connected" "inactive" true vault fileB
               (viewOf shown true)
    = (Ret tt, view')
    /\ viz view' = Some g'
    /\ ids g' = ["core:A.md"; "core:B.md"; "core:A.md->core:B.md1"]
    /\ (forall x, In x (nodes g') -> In x (closedNeighborhood g' ["core:B.md"])).
Proof.
  assert (Hnd : NoDup (ids shown)).
  { vm_compute. repeat constructor; simpl; intuition discriminate. }
  set (run := onOpenFile api stores rendered "active" "connected" "inactive" true
                         vault fileB (viewOf shown true)).
  assert (Hrun : run = (Ret tt, snd run)) by (vm_compute; reflexivity).
  assert (Hviz : exists g', viz (snd run) = Some g'
                            /\ ids g' = ["core:A.md"; "core:B.md"; "core:A.md->core:B.md1"]).
  { vm_compute. eexists. split; reflexivity. }
  destruct Hviz as [g' [Hviz Hids]].
  exists (snd run), g'. split; [exact Hrun|]. split; [exact Hviz|].
  split; [exact Hids|].
  apply (onOpenFile_leaves_the_neighbourhood api stores rendered
           "active" "connected" "inactive" vault fileB shown true true []
           (node := ["core:B.md"]) (view1 := viewOf shown true)
           Hnd eq_refl Hrun Hviz).
Defined.

(** Expanding [A.md] on the container [shown] marks it. *)
Lemma expand_witness :
  exists (r : option MergedToGraph) (view' : Juggl Pos) (g' : Graph Pos),
    expand api stores ["core:A.md"] true true (viewOf shown true) = (Ret r, view')
    /\ viz view' = Some g'
    /\ In "core:A.md" (nodesWithClass g' "expanded")
    /\ In "core:A.md" (nodesWithClass g' "protected").
Proof.
  assert (Hnd : NoDup (ids shown)).
  { vm_compute. repeat constructor; simpl; intuition discriminate. }
  set (run := expand api stores ["core:A.md"] true true (viewOf shown true)).
  assert (Hrun : exists r, run = (Ret r, snd run)).
  { vm_compute. eexists. reflexivity. }
  destruct Hrun as [r Hrun].
  assert (Hne : ["core:A.md"] <> @nil string) by discriminate.
  destruct (expand_marks_its_nodes api stores true true shown true true []
              Hnd Hne Hrun)
    as [_ [g' [Hviz Hmarks]]].
  exists r, (snd run), g'. split; [exact Hrun|]. split; [exact Hviz|].
  apply (Hmarks "core:A.md"); [simpl; auto | vm_compute; auto].
Defined.

(** The refresh of [A.md] on the container [shown] hands its merged edges to
    the pruning step. *)
Lemma recomputed_edges_witness :
  exists edges : MergedToGraph,
    Some (mkMerged ["core:A.md->core:B.md1"] ["core:A.md->core:B.md1"]) = Some edges.
Proof.
  apply (refresh_recomputed_edges_are_there api stores vault (mkVizId "A.md" "core")
           (nodeAt shown (api_toId api (mkVizId "A.md" "core")))
           (mkJuggl true (Some shown) true [])
           (node1 := ["core:A.md"])
           (view1 := mkJuggl true (Some recomputed) true [])).
  vm_compute. reflexivity.
Defined.

(* ================================================================== *)
(** ** Refreshing, connecting and neighbourhoods on the small vault *)
(* ================================================================== *)



(** With [A.md] and [B.md] both new next to [C.md], and merging off: the two
    links of [A.md] to [B.md] and its front-matter link to [C.md] give three
    edges, each once; they are what [createEdges] extracts from [A.md]. *)
Lemma connectNodes_two_passes_witness :
  filter (fun e => String.eqb (d_source (e_data e)) "core:A.md")
         (connectNodes api vault ["core:A.md"; "core:B.md"; "core:C.md"]
                       ["core:A.md"; "core:B.md"]
                       (viewOf [nodeEl "A.md"; nodeEl "B.md"; nodeEl "C.md"] false))
  = createEdges api vault fileA "core:A.md" ["core:A.md"; "core:B.md"; "core:C.md"]
                (viewOf [nodeEl "A.md"; nodeEl "B.md"; nodeEl "C.md"] false)
  /\ map (fun e => d_id (e_data e))
         (connectNodes api vault ["core:A.md"; "core:B.md"; "core:C.md"]
                       ["core:A.md"; "core:B.md"]
                       (viewOf [nodeEl "A.md"; nodeEl "B.md"; nodeEl "C.md"] false))
     = ["core:A.md->core:B.md1"; "core:A.md->core:B.md2"; "core:A.md->core:C.md1"].
Proof.
  split; [|vm_compute; reflexivity].
  destruct (connectNodes_two_passes api vault ["core:A.md"; "core:B.md"; "core:C.md"]
              ["core:A.md"; "core:B.md"]
              (viewOf [nodeEl "A.md"; nodeEl "B.md"; nodeEl "C.md"] false))
    as [_ [_ [_ Hpasses]]].
  destruct (Hpasses [nodeEl "A.md"; nodeEl "B.md"; nodeEl "C.md"] eq_refl
              parser_keeps_endpoints)
    as [Hnew _].
  - intros i el [<- | [<- | [<- | []]]] H; vm_compute in H; injection H as <-;
      reflexivity.
  - intros i [<- | [<- | []]]; simpl; auto.
  - repeat constructor; simpl; intuition discriminate.
  - repeat constructor; simpl; intuition discriminate.
  - apply (Hnew "core:A.md" (nodeEl "A.md") fileA); [simpl; auto | reflexivity..].
Defined.

(** C8 on the vault.  [B] is not the id that the descriptor of [B.md]
    carries, yet the store finds [B.md] for it.  Requested before [A.md],
    which links to [B.md], it makes the descriptor of [B.md] come twice: once
    under the key [core:B], once under the key [core:B.md]. *)
Example neighbourhood_repeats_descriptor_id :
  getFile vault (mkVizId "B" "core") = Some fileB
  /\ getNeighbourhood api vault [mkVizId "B" "core"; mkVizId "A.md" "core"]
     = Ret [nodeOfFile fileB; nodeOfFile fileA; nodeOfFile fileB;
            dangling "Ghost"; nodeOfFile fileC]
  /\ map n_id [nodeOfFile fileB; nodeOfFile fileA; nodeOfFile fileB;
               dangling "Ghost"; nodeOfFile fileC]
     = ["core:B.md"; "core:A.md"; "core:B.md"; "core:Ghost"; "core:C.md"]
  /\ ~ NoDup (map n_id [nodeOfFile fileB; nodeOfFile fileA; nodeOfFile fileB;
                        dangling "Ghost"; nodeOfFile fileC]).
Proof.
  split; [reflexivity|]. split; [vm_compute; reflexivity|]. split; [reflexivity|].
  intros H. apply NoDup_cons_iff in H. destruct H as [H _]. apply H. simpl. auto.
Qed.

Lemma descriptors_follow_ids : descriptorsFollowIds api.
Proof. repeat split. Defined.

(** Requested by the ids their descriptors carry, [A.md], the unknown [Z]
    and [B.md] give descriptors of distinct ids. *)
Lemma descriptor_ids_witness :
  NoDup (map n_id [nodeOfFile fileA; nodeOfFile fileB; dangling "Ghost"; nodeOfFile fileC]).
Proof.
  destruct (neighbourhood_one_descriptor_per_id api vault) as [_ [_ [_ Hids]]].
  apply (Hids descriptors_follow_ids
              [mkVizId "A.md" "core"; mkVizId "Z" "core"; mkVizId "B.md" "core"]).
  - intros nodeId [<- | [<- | [<- | []]]] file H; vm_compute in H;
      try discriminate H; injection H as <-; reflexivity.
  - vm_compute. reflexivity.
Defined.
